(** * Verification of the chess engine core against its specification

    Shallow embedding of the C sources under [src/lib]:
    - [chess_state.h], [chess_state.c]: the bitboard position record;
    - [chess_moves*.c]: the pseudo-legal move generators;
    - [chess_game_dynamics.c]: attack queries and the move applicator;
    - [chess_hash.c]: Zobrist hashing and state equality;
    - [obj_cache.c]: the chained hash table used as transposition table;
    - [minimax.c]: the alpha-beta search;
    - [chess_game_descriptor.c]: the chess callbacks handed to the search.

    Conventions.  A [uint64_t], [uint8_t] or [int] is a [Z]; every
    operation that can leave the type's range has its wrap-around written
    out ([u64], [u8]).  A pointer that may be [NULL] on return is an
    [option].  Allocation is assumed to succeed. *)

From Stdlib Require Import ZArith Lia Bool List.
From stdpp Require Import base option list.
Import ListNotations.

Local Open Scope Z_scope.

(** ** Machine integers *)

Module Bits.

Definition u64 (x : Z) : Z := x mod 2 ^ 64.
Definition u8 (x : Z) : Z := x mod 2 ^ 8.

(** [x << n] and [x >> n] on [uint64_t].  C defines them for
    [0 <= n < 64] only, and there they are these functions.  For any
    other count the C shift is undefined, and the value here (0 for
    [n >= 64]) is not what a given machine computes: a statement whose
    conclusion depends on a shift by a square assumes that the square is
    on the board. *)
Definition shl (x n : Z) : Z := u64 (Z.shiftl x n).
Definition shr (x n : Z) : Z := Z.shiftr x n.
(** [~x] on [uint64_t]. *)
Definition bnot (x : Z) : Z := u64 (Z.lnot x).
(** [1ULL << sq], for a square [0 <= sq < 64] (see [shl]). *)
Definition bit (sq : Z) : Z := shl 1 sq.
(** The C test [(a & b) != 0ULL], also written [if (a & b)]. *)
Definition meets (a b : Z) : bool := negb (Z.land a b =? 0).

(** [__builtin_ctzll]: index of the lowest set bit, found as the portable
    fallback of the sources does, by scanning upwards from bit 0.  The
    builtin is undefined at 0; the scan gives 64 there. *)
Fixpoint ctz_scan (fuel : nat) (index : Z) (bb : Z) : Z :=
  match fuel with
  | O => index
  | S fuel' => if meets bb (bit index) then index else ctz_scan fuel' (index + 1) bb
  end.

Definition ctzll (bb : Z) : Z := ctz_scan 64 0 bb.

(** [__builtin_popcountll]. *)
Fixpoint popcount_scan (fuel : nat) (bb : Z) : Z :=
  match fuel with
  | O => 0
  | S fuel' => Z.b2z (Z.odd bb) + popcount_scan fuel' (Z.shiftr bb 1)
  end.

Definition popcountll (bb : Z) : Z := popcount_scan 64 bb.

(** The idiom [while (bb) { sq = ctzll(bb); bb &= bb - 1; body }]: the body
    runs once per set bit, lowest first.  A 64-bit word has at most 64 set
    bits, which bounds the number of iterations (see [for_each_bit_fuel]). *)
Fixpoint for_each_bit_loop {A : Type} (fuel : nat) (bb : Z) (body : Z -> A -> A) (acc : A) : A :=
  match fuel with
  | O => acc
  | S fuel' =>
      if bb =? 0 then acc
      else let sq := ctzll bb in
           for_each_bit_loop fuel' (Z.land bb (bb - 1)) body (body sq acc)
  end.

Definition for_each_bit {A : Type} (bb : Z) (body : Z -> A -> A) (acc : A) : A :=
  for_each_bit_loop 64 bb body acc.

Definition NOT_A_FILE : Z := 0xfefefefefefefefe.
Definition NOT_H_FILE : Z := 0x7f7f7f7f7f7f7f7f.
Definition NOT_AB_FILE : Z := 0xfcfcfcfcfcfcfcfc.
Definition NOT_HG_FILE : Z := 0x3f3f3f3f3f3f3f3f.
Definition NOT_GH_FILE : Z := 0x3f3f3f3f3f3f3f3f.

End Bits.

(** ** The position and move records ([chess_state.h], [chess_moves.h]) *)

Module Chess.
Import Bits.

Record bitboard_state_t : Type := mk_state {
  white_pawns : Z; white_knights : Z; white_bishops : Z;
  white_rooks : Z; white_queens : Z; white_kings : Z;
  black_pawns : Z; black_knights : Z; black_bishops : Z;
  black_rooks : Z; black_queens : Z; black_kings : Z;
  castling_rights : Z;   (* uint8_t *)
  en_passant : Z;        (* uint8_t, 255 when there is none *)
  halfmove_clock : Z;    (* uint8_t *)
  fullmove_number : Z;   (* uint8_t *)
  current_player : Z     (* int: 1 = White, -1 = Black *)
}.

Record chess_move_t : Type := mk_move {
  from : Z; to : Z; promotion : Z; is_castling : Z; is_en_passant : Z   (* all uint8_t *)
}.

Definition set_white_pawns (s : bitboard_state_t) (v : Z) : bitboard_state_t :=
  {| white_pawns := v; white_knights := white_knights s; white_bishops := white_bishops s;
     white_rooks := white_rooks s; white_queens := white_queens s;
     white_kings := white_kings s; black_pawns := black_pawns s;
     black_knights := black_knights s; black_bishops := black_bishops s;
     black_rooks := black_rooks s; black_queens := black_queens s;
     black_kings := black_kings s; castling_rights := castling_rights s;
     en_passant := en_passant s; halfmove_clock := halfmove_clock s;
     fullmove_number := fullmove_number s; current_player := current_player s |}.

Definition set_white_knights (s : bitboard_state_t) (v : Z) : bitboard_state_t :=
  {| white_pawns := white_pawns s; white_knights := v; white_bishops := white_bishops s;
     white_rooks := white_rooks s; white_queens := white_queens s;
     white_kings := white_kings s; black_pawns := black_pawns s;
     black_knights := black_knights s; black_bishops := black_bishops s;
     black_rooks := black_rooks s; black_queens := black_queens s;
     black_kings := black_kings s; castling_rights := castling_rights s;
     en_passant := en_passant s; halfmove_clock := halfmove_clock s;
     fullmove_number := fullmove_number s; current_player := current_player s |}.

Definition set_white_bishops (s : bitboard_state_t) (v : Z) : bitboard_state_t :=
  {| white_pawns := white_pawns s; white_knights := white_knights s; white_bishops := v;
     white_rooks := white_rooks s; white_queens := white_queens s;
     white_kings := white_kings s; black_pawns := black_pawns s;
     black_knights := black_knights s; black_bishops := black_bishops s;
     black_rooks := black_rooks s; black_queens := black_queens s;
     black_kings := black_kings s; castling_rights := castling_rights s;
     en_passant := en_passant s; halfmove_clock := halfmove_clock s;
     fullmove_number := fullmove_number s; current_player := current_player s |}.

Definition set_white_rooks (s : bitboard_state_t) (v : Z) : bitboard_state_t :=
  {| white_pawns := white_pawns s; white_knights := white_knights s;
     white_bishops := white_bishops s; white_rooks := v; white_queens := white_queens s;
     white_kings := white_kings s; black_pawns := black_pawns s;
     black_knights := black_knights s; black_bishops := black_bishops s;
     black_rooks := black_rooks s; black_queens := black_queens s;
     black_kings := black_kings s; castling_rights := castling_rights s;
     en_passant := en_passant s; halfmove_clock := halfmove_clock s;
     fullmove_number := fullmove_number s; current_player := current_player s |}.

Definition set_white_queens (s : bitboard_state_t) (v : Z) : bitboard_state_t :=
  {| white_pawns := white_pawns s; white_knights := white_knights s;
     white_bishops := white_bishops s; white_rooks := white_rooks s; white_queens := v;
     white_kings := white_kings s; black_pawns := black_pawns s;
     black_knights := black_knights s; black_bishops := black_bishops s;
     black_rooks := black_rooks s; black_queens := black_queens s;
     black_kings := black_kings s; castling_rights := castling_rights s;
     en_passant := en_passant s; halfmove_clock := halfmove_clock s;
     fullmove_number := fullmove_number s; current_player := current_player s |}.

Definition set_white_kings (s : bitboard_state_t) (v : Z) : bitboard_state_t :=
  {| white_pawns := white_pawns s; white_knights := white_knights s;
     white_bishops := white_bishops s; white_rooks := white_rooks s;
     white_queens := white_queens s; white_kings := v; black_pawns := black_pawns s;
     black_knights := black_knights s; black_bishops := black_bishops s;
     black_rooks := black_rooks s; black_queens := black_queens s;
     black_kings := black_kings s; castling_rights := castling_rights s;
     en_passant := en_passant s; halfmove_clock := halfmove_clock s;
     fullmove_number := fullmove_number s; current_player := current_player s |}.

Definition set_black_pawns (s : bitboard_state_t) (v : Z) : bitboard_state_t :=
  {| white_pawns := white_pawns s; white_knights := white_knights s;
     white_bishops := white_bishops s; white_rooks := white_rooks s;
     white_queens := white_queens s; white_kings := white_kings s; black_pawns := v;
     black_knights := black_knights s; black_bishops := black_bishops s;
     black_rooks := black_rooks s; black_queens := black_queens s;
     black_kings := black_kings s; castling_rights := castling_rights s;
     en_passant := en_passant s; halfmove_clock := halfmove_clock s;
     fullmove_number := fullmove_number s; current_player := current_player s |}.

Definition set_black_knights (s : bitboard_state_t) (v : Z) : bitboard_state_t :=
  {| white_pawns := white_pawns s; white_knights := white_knights s;
     white_bishops := white_bishops s; white_rooks := white_rooks s;
     white_queens := white_queens s; white_kings := white_kings s;
     black_pawns := black_pawns s; black_knights := v; black_bishops := black_bishops s;
     black_rooks := black_rooks s; black_queens := black_queens s;
     black_kings := black_kings s; castling_rights := castling_rights s;
     en_passant := en_passant s; halfmove_clock := halfmove_clock s;
     fullmove_number := fullmove_number s; current_player := current_player s |}.

Definition set_black_bishops (s : bitboard_state_t) (v : Z) : bitboard_state_t :=
  {| white_pawns := white_pawns s; white_knights := white_knights s;
     white_bishops := white_bishops s; white_rooks := white_rooks s;
     white_queens := white_queens s; white_kings := white_kings s;
     black_pawns := black_pawns s; black_knights := black_knights s; black_bishops := v;
     black_rooks := black_rooks s; black_queens := black_queens s;
     black_kings := black_kings s; castling_rights := castling_rights s;
     en_passant := en_passant s; halfmove_clock := halfmove_clock s;
     fullmove_number := fullmove_number s; current_player := current_player s |}.

Definition set_black_rooks (s : bitboard_state_t) (v : Z) : bitboard_state_t :=
  {| white_pawns := white_pawns s; white_knights := white_knights s;
     white_bishops := white_bishops s; white_rooks := white_rooks s;
     white_queens := white_queens s; white_kings := white_kings s;
     black_pawns := black_pawns s; black_knights := black_knights s;
     black_bishops := black_bishops s; black_rooks := v; black_queens := black_queens s;
     black_kings := black_kings s; castling_rights := castling_rights s;
     en_passant := en_passant s; halfmove_clock := halfmove_clock s;
     fullmove_number := fullmove_number s; current_player := current_player s |}.

Definition set_black_queens (s : bitboard_state_t) (v : Z) : bitboard_state_t :=
  {| white_pawns := white_pawns s; white_knights := white_knights s;
     white_bishops := white_bishops s; white_rooks := white_rooks s;
     white_queens := white_queens s; white_kings := white_kings s;
     black_pawns := black_pawns s; black_knights := black_knights s;
     black_bishops := black_bishops s; black_rooks := black_rooks s; black_queens := v;
     black_kings := black_kings s; castling_rights := castling_rights s;
     en_passant := en_passant s; halfmove_clock := halfmove_clock s;
     fullmove_number := fullmove_number s; current_player := current_player s |}.

Definition set_black_kings (s : bitboard_state_t) (v : Z) : bitboard_state_t :=
  {| white_pawns := white_pawns s; white_knights := white_knights s;
     white_bishops := white_bishops s; white_rooks := white_rooks s;
     white_queens := white_queens s; white_kings := white_kings s;
     black_pawns := black_pawns s; black_knights := black_knights s;
     black_bishops := black_bishops s; black_rooks := black_rooks s;
     black_queens := black_queens s; black_kings := v; castling_rights := castling_rights s;
     en_passant := en_passant s; halfmove_clock := halfmove_clock s;
     fullmove_number := fullmove_number s; current_player := current_player s |}.

Definition set_castling_rights (s : bitboard_state_t) (v : Z) : bitboard_state_t :=
  {| white_pawns := white_pawns s; white_knights := white_knights s;
     white_bishops := white_bishops s; white_rooks := white_rooks s;
     white_queens := white_queens s; white_kings := white_kings s;
     black_pawns := black_pawns s; black_knights := black_knights s;
     black_bishops := black_bishops s; black_rooks := black_rooks s;
     black_queens := black_queens s; black_kings := black_kings s; castling_rights := v;
     en_passant := en_passant s; halfmove_clock := halfmove_clock s;
     fullmove_number := fullmove_number s; current_player := current_player s |}.

Definition set_en_passant (s : bitboard_state_t) (v : Z) : bitboard_state_t :=
  {| white_pawns := white_pawns s; white_knights := white_knights s;
     white_bishops := white_bishops s; white_rooks := white_rooks s;
     white_queens := white_queens s; white_kings := white_kings s;
     black_pawns := black_pawns s; black_knights := black_knights s;
     black_bishops := black_bishops s; black_rooks := black_rooks s;
     black_queens := black_queens s; black_kings := black_kings s;
     castling_rights := castling_rights s; en_passant := v; halfmove_clock := halfmove_clock s;
     fullmove_number := fullmove_number s; current_player := current_player s |}.

Definition set_halfmove_clock (s : bitboard_state_t) (v : Z) : bitboard_state_t :=
  {| white_pawns := white_pawns s; white_knights := white_knights s;
     white_bishops := white_bishops s; white_rooks := white_rooks s;
     white_queens := white_queens s; white_kings := white_kings s;
     black_pawns := black_pawns s; black_knights := black_knights s;
     black_bishops := black_bishops s; black_rooks := black_rooks s;
     black_queens := black_queens s; black_kings := black_kings s;
     castling_rights := castling_rights s; en_passant := en_passant s; halfmove_clock := v;
     fullmove_number := fullmove_number s; current_player := current_player s |}.

Definition set_fullmove_number (s : bitboard_state_t) (v : Z) : bitboard_state_t :=
  {| white_pawns := white_pawns s; white_knights := white_knights s;
     white_bishops := white_bishops s; white_rooks := white_rooks s;
     white_queens := white_queens s; white_kings := white_kings s;
     black_pawns := black_pawns s; black_knights := black_knights s;
     black_bishops := black_bishops s; black_rooks := black_rooks s;
     black_queens := black_queens s; black_kings := black_kings s;
     castling_rights := castling_rights s; en_passant := en_passant s;
     halfmove_clock := halfmove_clock s; fullmove_number := v;
     current_player := current_player s |}.

Definition set_current_player (s : bitboard_state_t) (v : Z) : bitboard_state_t :=
  {| white_pawns := white_pawns s; white_knights := white_knights s;
     white_bishops := white_bishops s; white_rooks := white_rooks s;
     white_queens := white_queens s; white_kings := white_kings s;
     black_pawns := black_pawns s; black_knights := black_knights s;
     black_bishops := black_bishops s; black_rooks := black_rooks s;
     black_queens := black_queens s; black_kings := black_kings s;
     castling_rights := castling_rights s; en_passant := en_passant s;
     halfmove_clock := halfmove_clock s; fullmove_number := fullmove_number s;
     current_player := v |}.

(** ** Attack queries ([chess_game_dynamics.c]) *)

(** Negation of an [int]. *)
Definition int_neg (x : Z) : Z := (- x + 2 ^ 31) mod 2 ^ 32 - 2 ^ 31.

Definition compute_white_occ (s : bitboard_state_t) : Z :=
  Z.lor (Z.lor (Z.lor (Z.lor (Z.lor (white_pawns s) (white_knights s)) (white_bishops s))
                      (white_rooks s)) (white_queens s)) (white_kings s).

Definition compute_black_occ (s : bitboard_state_t) : Z :=
  Z.lor (Z.lor (Z.lor (Z.lor (Z.lor (black_pawns s) (black_knights s)) (black_bishops s))
                      (black_rooks s)) (black_queens s)) (black_kings s).

Definition compute_all_occ (s : bitboard_state_t) : Z :=
  Z.lor (compute_white_occ s) (compute_black_occ s).

Definition get_king_position (state : bitboard_state_t) (player : Z) : Z :=
  let king_bb := if player =? 1 then white_kings state else black_kings state in
  if king_bb =? 0 then -1 else ctzll king_bb.

(** The twelve piece bitboards, as the targets of [uint64_t *piece_bb_to_update]. *)
Inductive piece_bb : Type :=
  | WP | WN | WB | WR | WQ | WK | BP | BN | BB | BR | BQ | BK.

Definition get_bb (f : piece_bb) (s : bitboard_state_t) : Z :=
  match f with
  | WP => white_pawns s | WN => white_knights s | WB => white_bishops s
  | WR => white_rooks s | WQ => white_queens s | WK => white_kings s
  | BP => black_pawns s | BN => black_knights s | BB => black_bishops s
  | BR => black_rooks s | BQ => black_queens s | BK => black_kings s
  end.

Definition set_bb (f : piece_bb) (s : bitboard_state_t) (v : Z) : bitboard_state_t :=
  match f with
  | WP => set_white_pawns s v | WN => set_white_knights s v | WB => set_white_bishops s v
  | WR => set_white_rooks s v | WQ => set_white_queens s v | WK => set_white_kings s v
  | BP => set_black_pawns s v | BN => set_black_knights s v | BB => set_black_bishops s v
  | BR => set_black_rooks s v | BQ => set_black_queens s v | BK => set_black_kings s v
  end.

(** [*bb &= ~mask] and [*bb |= mask]. *)
Definition clear_bits (f : piece_bb) (mask : Z) (s : bitboard_state_t) : bitboard_state_t :=
  set_bb f s (Z.land (get_bb f s) (bnot mask)).

Definition set_bits (f : piece_bb) (mask : Z) (s : bitboard_state_t) : bitboard_state_t :=
  set_bb f s (Z.lor (get_bb f s) mask).

Definition white_pieces : list piece_bb := [WP; WN; WB; WR; WQ; WK].
Definition black_pieces : list piece_bb := [BP; BN; BB; BR; BQ; BK].

(** The [if (bb1 & mask) ... else if (bb2 & mask) ...] chains: the first
    bitboard of the list, in source order, that holds a bit of [mask]. *)
Fixpoint first_holding (fs : list piece_bb) (mask : Z) (s : bitboard_state_t) : option piece_bb :=
  match fs with
  | [] => None
  | f :: fs' => if meets (get_bb f s) mask then Some f else first_holding fs' mask s
  end.

Definition remove_piece_from_bitboards (tempState : bitboard_state_t) (from_square player : Z)
  : bitboard_state_t :=
  let mask := bit from_square in
  match first_holding (if player =? 1 then white_pieces else black_pieces) mask tempState with
  | Some f => clear_bits f mask tempState
  | None => tempState
  end.

Definition simulate_position_without_piece (state : bitboard_state_t) (move : chess_move_t)
  : bitboard_state_t :=
  remove_piece_from_bitboards state (from move) (current_player state).

Definition is_attacked_by_pawn (state : bitboard_state_t) (square attacker_player : Z) : bool :=
  let attacker_pawns := if attacker_player =? 1 then white_pawns state else black_pawns state in
  let mask := bit square in
  if attacker_player =? 1 then
    if negb (Z.land (Z.land (shl mask 7) attacker_pawns) NOT_H_FILE =? 0) then true
    else if negb (Z.land (Z.land (shl mask 9) attacker_pawns) NOT_A_FILE =? 0) then true
    else false
  else
    if negb (Z.land (Z.land (shr mask 7) attacker_pawns) NOT_A_FILE =? 0) then true
    else if negb (Z.land (Z.land (shr mask 9) attacker_pawns) NOT_H_FILE =? 0) then true
    else false.

Definition is_attacked_by_knight (state : bitboard_state_t) (square attacker_player : Z) : bool :=
  let attacker_knights :=
    if attacker_player =? 1 then white_knights state else black_knights state in
  let sq_mask := bit square in
  let k0 := 0 in
  let k1 := if meets (shl sq_mask 6) NOT_GH_FILE then Z.lor k0 (shl sq_mask 6) else k0 in
  let k2 := if meets (shr sq_mask 10) NOT_GH_FILE then Z.lor k1 (shr sq_mask 10) else k1 in
  let k3 := if meets (shl sq_mask 10) NOT_AB_FILE then Z.lor k2 (shl sq_mask 10) else k2 in
  let k4 := if meets (shr sq_mask 6) NOT_AB_FILE then Z.lor k3 (shr sq_mask 6) else k3 in
  let k5 := if meets (shl sq_mask 15) NOT_H_FILE then Z.lor k4 (shl sq_mask 15) else k4 in
  let k6 := if meets (shr sq_mask 17) NOT_H_FILE then Z.lor k5 (shr sq_mask 17) else k5 in
  let k7 := if meets (shl sq_mask 17) NOT_A_FILE then Z.lor k6 (shl sq_mask 17) else k6 in
  let knights_from_positions :=
    if meets (shr sq_mask 15) NOT_A_FILE then Z.lor k7 (shr sq_mask 15) else k7 in
  meets knights_from_positions attacker_knights.

(** The wrap test of [ray_moves]: [true] when the step must stop the walk. *)
Definition ray_wraps (delta row_diff col_diff : Z) : bool :=
  ((delta =? 1) && (negb (row_diff =? 0) || negb (col_diff =? 1)))
  || ((delta =? -1) && (negb (row_diff =? 0) || negb (col_diff =? -1)))
  || ((delta =? 8) && (negb (row_diff =? 1) || negb (col_diff =? 0)))
  || ((delta =? -8) && (negb (row_diff =? -1) || negb (col_diff =? 0)))
  || ((delta =? 7) && (negb (row_diff =? 1) || negb (col_diff =? -1)))
  || ((delta =? -7) && (negb (row_diff =? -1) || negb (col_diff =? 1)))
  || ((delta =? 9) && (negb (row_diff =? 1) || negb (col_diff =? 1)))
  || ((delta =? -9) && (negb (row_diff =? -1) || negb (col_diff =? -1))).

(** The [while (true)] loop of [ray_moves].  With a non-zero [delta] the
    position moves monotonically inside 0..63, so 64 iterations are never
    exhausted (see [ray_loop_fuel]). *)
Fixpoint ray_loop (fuel : nat) (delta occupancy current_pos row col result : Z) : Z :=
  match fuel with
  | O => result
  | S fuel' =>
      let new_pos := current_pos + delta in
      if (new_pos <? 0) || (new_pos >? 63) then result
      else
        let new_row := Z.quot new_pos 8 in
        let new_col := Z.rem new_pos 8 in
        let row_diff := new_row - row in
        let col_diff := new_col - col in
        if ray_wraps delta row_diff col_diff then result
        else
          let new_bit := bit new_pos in
          let result' := Z.lor result new_bit in
          if meets new_bit occupancy then result'
          else ray_loop fuel' delta occupancy new_pos new_row new_col result'
  end.

Definition ray_moves (starting_bit delta occupancy : Z) : Z :=
  let current_pos := ctzll starting_bit in
  ray_loop 64 delta occupancy current_pos (Z.quot current_pos 8) (Z.rem current_pos 8) 0.

Definition is_attacked_by_bishop_or_queen (state : bitboard_state_t)
    (square attacker_player : Z) : bool :=
  let sq_mask := bit square in
  let attacker_bishops :=
    if attacker_player =? 1 then white_bishops state else black_bishops state in
  let attacker_queens :=
    if attacker_player =? 1 then white_queens state else black_queens state in
  let occupancy := compute_all_occ state in
  let diag_up_right := ray_moves sq_mask 9 occupancy in
  let diag_up_left := ray_moves sq_mask 7 occupancy in
  let diag_dn_right := ray_moves sq_mask (-7) occupancy in
  let diag_dn_left := ray_moves sq_mask (-9) occupancy in
  let sliders := Z.lor attacker_bishops attacker_queens in
  if meets diag_up_right sliders then true
  else if meets diag_up_left sliders then true
  else if meets diag_dn_right sliders then true
  else if meets diag_dn_left sliders then true
  else false.

Definition is_attacked_by_rook_or_queen (state : bitboard_state_t)
    (square attacker_player : Z) : bool :=
  let sq_mask := bit square in
  let attacker_rooks :=
    if attacker_player =? 1 then white_rooks state else black_rooks state in
  let attacker_queens :=
    if attacker_player =? 1 then white_queens state else black_queens state in
  let occupancy := compute_all_occ state in
  let up_moves := ray_moves sq_mask 8 occupancy in
  let down_moves := ray_moves sq_mask (-8) occupancy in
  let right_moves := ray_moves sq_mask 1 occupancy in
  let left_moves := ray_moves sq_mask (-1) occupancy in
  let sliders := Z.lor attacker_rooks attacker_queens in
  if meets up_moves sliders then true
  else if meets down_moves sliders then true
  else if meets right_moves sliders then true
  else if meets left_moves sliders then true
  else false.

Definition is_attacked_by_king (state : bitboard_state_t) (square attacker_player : Z) : bool :=
  let attacker_king := if attacker_player =? 1 then white_kings state else black_kings state in
  if attacker_king =? 0 then false
  else
    let k_pos := ctzll attacker_king in
    let king_row := Z.quot k_pos 8 in
    let king_col := Z.rem k_pos 8 in
    let sq_row := Z.quot square 8 in
    let sq_col := Z.rem square 8 in
    (Z.abs (king_row - sq_row) <=? 1) && (Z.abs (king_col - sq_col) <=? 1).

Definition is_square_attacked (state : bitboard_state_t) (square attacker_player : Z) : bool :=
  if is_attacked_by_pawn state square attacker_player then true
  else if is_attacked_by_knight state square attacker_player then true
  else if is_attacked_by_bishop_or_queen state square attacker_player then true
  else if is_attacked_by_rook_or_queen state square attacker_player then true
  else if is_attacked_by_king state square attacker_player then true
  else false.

Definition is_king_in_check (state : bitboard_state_t) (player : Z) : bool :=
  let king_pos := get_king_position state player in
  if king_pos =? -1 then false
  else
    let attacker := int_neg player in
    if is_attacked_by_pawn state king_pos attacker then true
    else if is_attacked_by_knight state king_pos attacker then true
    else if is_attacked_by_bishop_or_queen state king_pos attacker then true
    else if is_attacked_by_rook_or_queen state king_pos attacker then true
    else if is_attacked_by_king state king_pos attacker then true
    else false.

Definition is_move_pinned (state : bitboard_state_t) (move : chess_move_t) : bool :=
  let king_pos := get_king_position state (current_player state) in
  if king_pos =? -1 then false
  else is_king_in_check (simulate_position_without_piece state move) (current_player state).

(** ** The move applicator ([chess_game_dynamics.c]) *)

Definition apply_castling (new_state : bitboard_state_t) (move : chess_move_t)
  : bitboard_state_t :=
  let from_sq := from move in
  let to_sq := to move in
  let from_mask := bit from_sq in
  let to_mask := bit to_sq in
  let is_white_king := meets (white_kings new_state) from_mask in
  let is_black_king := meets (black_kings new_state) from_mask in
  (* (rook_from, rook_to), [None] standing for the pair of -1 *)
  let rook : option (Z * Z) :=
    if is_white_king then
      if (from_sq =? 4) && (to_sq =? 6) then Some (7, 5)
      else if (from_sq =? 4) && (to_sq =? 2) then Some (0, 3)
      else None
    else if is_black_king then
      if (from_sq =? 60) && (to_sq =? 62) then Some (63, 61)
      else if (from_sq =? 60) && (to_sq =? 58) then Some (56, 59)
      else None
    else None in
  if is_white_king then
    let s1 := set_bits WK to_mask (clear_bits WK from_mask new_state) in
    match rook with
    | Some (rook_from, rook_to) => set_bits WR (bit rook_to) (clear_bits WR (bit rook_from) s1)
    | None => s1
    end
  else if is_black_king then
    let s1 := set_bits BK to_mask (clear_bits BK from_mask new_state) in
    match rook with
    | Some (rook_from, rook_to) => set_bits BR (bit rook_to) (clear_bits BR (bit rook_from) s1)
    | None => s1
    end
  else new_state.

Definition apply_en_passant (new_state : bitboard_state_t) (move : chess_move_t)
  : bitboard_state_t :=
  let from_mask := bit (from move) in
  let to_mask := bit (to move) in
  let is_white_pawn := meets (white_pawns new_state) from_mask in
  let is_black_pawn := meets (black_pawns new_state) from_mask in
  if negb is_white_pawn && negb is_black_pawn then new_state
  else
    let s1 :=
      if is_white_pawn then set_bits WP to_mask (clear_bits WP from_mask new_state)
      else set_bits BP to_mask (clear_bits BP from_mask new_state) in
    let captured_square := if is_white_pawn then to move - 8 else to move + 8 in
    let captured_mask := bit captured_square in
    if is_white_pawn then clear_bits BP captured_mask s1
    else clear_bits WP captured_mask s1.

Definition is_white_piece (f : piece_bb) : bool :=
  match f with
  | WP | WN | WB | WR | WQ | WK => true
  | _ => false
  end.

Definition is_pawn_piece (f : piece_bb) : bool :=
  match f with
  | WP | BP => true
  | _ => false
  end.

(** Returns the new position and the [was_pawn_or_capture] flag. *)
Definition apply_regular_move (new_state : bitboard_state_t) (move : chess_move_t)
  : bitboard_state_t * bool :=
  let from_mask := bit (from move) in
  let to_mask := bit (to move) in
  match first_holding (white_pieces ++ black_pieces) from_mask new_state with
  | None => (new_state, false)
  | Some piece_bb_to_update =>
      let is_white := is_white_piece piece_bb_to_update in
      let was_pawn := is_pawn_piece piece_bb_to_update in
      let s1 := clear_bits piece_bb_to_update from_mask new_state in
      let '(s2, captured) :=
        match first_holding (if is_white then black_pieces else white_pieces) to_mask s1 with
        | Some victim => (clear_bits victim to_mask s1, true)
        | None => (s1, false)
        end in
      (set_bits piece_bb_to_update to_mask s2, was_pawn || captured)
  end.

Definition handle_promotion (new_state : bitboard_state_t) (move : chess_move_t)
  : bitboard_state_t :=
  let to_mask := bit (to move) in
  let is_white_pawn := meets (white_pawns new_state) to_mask in
  let is_black_pawn := meets (black_pawns new_state) to_mask in
  if negb is_white_pawn && negb is_black_pawn then new_state
  else
    let s1 := if is_white_pawn then clear_bits WP to_mask new_state
              else clear_bits BP to_mask new_state in
    if promotion move =? 1 then
      if is_white_pawn then set_bits WN to_mask s1 else set_bits BN to_mask s1
    else if promotion move =? 2 then
      if is_white_pawn then set_bits WB to_mask s1 else set_bits BB to_mask s1
    else if promotion move =? 3 then
      if is_white_pawn then set_bits WR to_mask s1 else set_bits BR to_mask s1
    else
      if is_white_pawn then set_bits WQ to_mask s1 else set_bits BQ to_mask s1.

(** [rights &= ~m] on the [uint8_t] mask. *)
Definition drop_rights (rights m : Z) : Z := u8 (Z.land rights (Z.lnot m)).

Definition update_castling_rights (new_state : bitboard_state_t) (move : chess_move_t)
  : bitboard_state_t :=
  let from_mask := bit (from move) in
  let to_mask := bit (to move) in
  let rights := castling_rights new_state in
  let is_white_king := meets (white_kings new_state) from_mask in
  let is_black_king := meets (black_kings new_state) from_mask in
  let rights := if is_white_king then drop_rights rights 0x3 else rights in
  let rights := if is_black_king then drop_rights rights 0xC else rights in
  let is_white_rook_from := meets (white_rooks new_state) from_mask in
  let is_white_rook_to := meets (white_rooks new_state) to_mask in
  let is_black_rook_from := meets (black_rooks new_state) from_mask in
  let is_black_rook_to := meets (black_rooks new_state) to_mask in
  let rights := if is_white_rook_from && (from move =? 0)
                then drop_rights rights 0x2 else rights in
  let rights := if is_white_rook_from && (from move =? 7)
                then drop_rights rights 0x1 else rights in
  let rights := if is_black_rook_from && (to move =? 0) && is_white_rook_to
                then drop_rights rights 0x2 else rights in
  let rights := if is_black_rook_from && (to move =? 7) && is_white_rook_to
                then drop_rights rights 0x1 else rights in
  let rights := if is_black_rook_from && (from move =? 56)
                then drop_rights rights 0x8 else rights in
  let rights := if is_black_rook_from && (from move =? 63)
                then drop_rights rights 0x4 else rights in
  let rights := if is_white_rook_from && (to move =? 56) && is_black_rook_to
                then drop_rights rights 0x8 else rights in
  let rights := if is_white_rook_from && (to move =? 63) && is_black_rook_to
                then drop_rights rights 0x4 else rights in
  set_castling_rights new_state rights.

Definition update_en_passant (new_state : bitboard_state_t) (move : chess_move_t)
  : bitboard_state_t :=
  let s0 := set_en_passant new_state 255 in
  let from_mask := bit (from move) in
  let is_white_pawn := meets (white_pawns s0) from_mask in
  let is_black_pawn := meets (black_pawns s0) from_mask in
  if negb is_white_pawn && negb is_black_pawn then s0
  else
    let diff := to move - from move in
    if is_white_pawn && (diff =? 16) then set_en_passant s0 (u8 (from move + 8))
    else if is_black_pawn && (diff =? -16) then set_en_passant s0 (u8 (from move - 8))
    else set_en_passant s0 255.

Definition update_move_counters (new_state : bitboard_state_t)
    (was_capture_or_pawn_move : bool) : bitboard_state_t :=
  let s1 :=
    if was_capture_or_pawn_move then set_halfmove_clock new_state 0
    else set_halfmove_clock new_state (u8 (halfmove_clock new_state + 1)) in
  if current_player s1 =? -1 then set_fullmove_number s1 (u8 (fullmove_number s1 + 1))
  else s1.

(** The squares written into [squares[3]]; the returned count is the length. *)
Definition get_castling_squares (from_sq to_sq : Z) : list Z :=
  if (from_sq =? 4) && (to_sq =? 6) then [5]
  else if (from_sq =? 4) && (to_sq =? 2) then [1; 3]
  else if (from_sq =? 60) && (to_sq =? 62) then [61]
  else if (from_sq =? 60) && (to_sq =? 58) then [57; 59]
  else [].

Definition is_legal_castle (temp_state : bitboard_state_t) (ch_move : chess_move_t) : bool :=
  let from_sq := from ch_move in
  let to_sq := to ch_move in
  let current_player := current_player temp_state in
  let attacker := int_neg current_player in
  if is_king_in_check temp_state current_player then false
  else
    let squares := get_castling_squares from_sq to_sq in
    if (Z.of_nat (length squares) =? 0) then false
    else negb (existsb (fun sq => is_square_attacked temp_state sq attacker) squares).

(** [None] is the [NULL] returned for a rejected move. *)
Definition chess_apply_move (old_state : bitboard_state_t) (ch_move : chess_move_t)
  : option bitboard_state_t :=
  if is_move_pinned old_state ch_move then None
  else
    let opp_king_bb :=
      if current_player old_state =? 1 then black_kings old_state
      else white_kings old_state in
    let to_mask := bit (to ch_move) in
    if meets opp_king_bb to_mask then None
    else
      let new_state := old_state in
      let applied : option (bitboard_state_t * bool) :=
        if negb (is_castling ch_move =? 0) then
          if negb (is_legal_castle new_state ch_move) then None
          else Some (apply_castling new_state ch_move, false)
        else if negb (is_en_passant ch_move =? 0) then
          Some (apply_en_passant new_state ch_move, true)
        else if negb (promotion ch_move =? 0) then
          Some (handle_promotion (fst (apply_regular_move new_state ch_move)) ch_move, true)
        else Some (apply_regular_move new_state ch_move) in
      match applied with
      | None => None
      | Some (new_state, was_capture_or_pawn_move) =>
          let new_state := update_castling_rights new_state ch_move in
          let new_state := update_en_passant new_state ch_move in
          let new_state := update_move_counters new_state was_capture_or_pawn_move in
          let new_state := set_current_player new_state (int_neg (current_player old_state)) in
          if is_king_in_check new_state (int_neg (current_player new_state)) then None
          else Some new_state
      end.

(** ** The initial position ([chess_state.c]) *)

Definition initialize_board : bitboard_state_t :=
  {| white_pawns := 0x000000000000FF00; black_pawns := 0x00FF000000000000;
     white_rooks := 0x0000000000000081; black_rooks := 0x8100000000000000;
     white_knights := 0x0000000000000042; black_knights := 0x4200000000000000;
     white_bishops := 0x0000000000000024; black_bishops := 0x2400000000000000;
     white_queens := 0x0000000000000008; black_queens := 0x0800000000000000;
     white_kings := 0x0000000000000010; black_kings := 0x1000000000000000;
     castling_rights := 0xF; en_passant := 255; halfmove_clock := 0;
     fullmove_number := 1; current_player := 1 |}.

Definition chess_copy_state (state : bitboard_state_t) : bitboard_state_t := state.

(** ** Pseudo-legal move generation ([chess_moves*.c])

    The [dynamic_vector_t] of moves is a list; [dv_push_back] appends. *)

Definition add_move (moves : list chess_move_t) (from_sq to_sq promo castling ep : Z)
  : list chess_move_t :=
  moves ++ [mk_move (u8 from_sq) (u8 to_sq) (u8 promo) (u8 castling) (u8 ep)].

(** The [switch (shift)] of [explore_ray]: the column and row steps. *)
Definition ray_step (shift : Z) : option (Z * Z) :=
  if shift =? 1 then Some (1, 0)
  else if shift =? -1 then Some (-1, 0)
  else if shift =? 8 then Some (0, 1)
  else if shift =? -8 then Some (0, -1)
  else if shift =? 7 then Some (1, 1)
  else if shift =? 9 then Some (-1, 1)
  else if shift =? -7 then Some (-1, -1)
  else if shift =? -9 then Some (1, -1)
  else None.

(** The [while (1)] loop of [explore_ray]: every iteration moves the column
    or the row by one inside 0..7, so it runs at most 8 times. *)
Fixpoint explore_loop (fuel : nat) (from_sq dc dr col row own_occ opp_occ : Z)
    (moves : list chess_move_t) : list chess_move_t :=
  match fuel with
  | O => moves
  | S fuel' =>
      let col := col + dc in
      let row := row + dr in
      if (col <? 0) || (col >? 7) || (row <? 0) || (row >? 7) then moves
      else
        let to_sq := row * 8 + col in
        let to_bit := bit to_sq in
        if meets to_bit own_occ then moves
        else if meets to_bit opp_occ then add_move moves from_sq to_sq 0 0 0
        else explore_loop fuel' from_sq dc dr col row own_occ opp_occ
               (add_move moves from_sq to_sq 0 0 0)
  end.

Definition explore_ray (from_bit from_sq shift block_mask own_occ opp_occ : Z)
    (moves : list chess_move_t) : list chess_move_t :=
  let col := Z.rem from_sq 8 in
  let row := Z.quot from_sq 8 in
  match ray_step shift with
  | None => moves
  | Some (dc, dr) => explore_loop 8 from_sq dc dr col row own_occ opp_occ moves
  end.

(** The promotion fan-out shared by the pawn pushes and captures. *)
Definition add_pawn_move (last_rank from_sq to_sq : Z) (moves : list chess_move_t)
  : list chess_move_t :=
  if Z.quot to_sq 8 =? last_rank then
    add_move (add_move (add_move (add_move moves from_sq to_sq 1 0 0) from_sq to_sq 2 0 0)
                       from_sq to_sq 3 0 0) from_sq to_sq 4 0 0
  else add_move moves from_sq to_sq 0 0 0.

Definition generate_white_pawn_moves (state : bitboard_state_t) (moves : list chess_move_t)
  : list chess_move_t :=
  let pawns := white_pawns state in
  let occupied := compute_all_occ state in
  let empty := bnot occupied in
  let single_push := Z.land (shl pawns 8) empty in
  let moves := for_each_bit single_push (fun to_sq => add_pawn_move 7 (to_sq - 8) to_sq) moves in
  let initial_pawns := Z.land pawns 0x000000000000FF00 in
  let double_push := Z.land (shl (Z.land (shl initial_pawns 8) empty) 8) empty in
  let moves :=
    for_each_bit double_push (fun to_sq ms => add_move ms (to_sq - 16) to_sq 0 0 0) moves in
  let black_occ := compute_black_occ state in
  let captures_right :=
    Z.land (Z.land (shl pawns 9) (bnot 0x0101010101010101)) black_occ in
  let moves :=
    for_each_bit captures_right (fun to_sq => add_pawn_move 7 (to_sq - 9) to_sq) moves in
  let captures_left :=
    Z.land (Z.land (shl pawns 7) (bnot 0x8080808080808080)) black_occ in
  let moves :=
    for_each_bit captures_left (fun to_sq => add_pawn_move 7 (to_sq - 7) to_sq) moves in
  if negb (en_passant state =? 255) then
    let ep_square := en_passant state in
    let ep_bit := bit ep_square in
    let moves :=
      if meets (shl pawns 9) ep_bit then
        if Z.quot (ep_square - 9) 8 =? 4 then add_move moves (ep_square - 9) ep_square 0 0 1
        else moves
      else moves in
    if meets (shl pawns 7) ep_bit then
      if Z.quot (ep_square - 7) 8 =? 4 then add_move moves (ep_square - 7) ep_square 0 0 1
      else moves
    else moves
  else moves.

Definition generate_black_pawn_moves (state : bitboard_state_t) (moves : list chess_move_t)
  : list chess_move_t :=
  let pawns := black_pawns state in
  let occupied := compute_all_occ state in
  let empty := bnot occupied in
  let single_push := Z.land (shr pawns 8) empty in
  let moves := for_each_bit single_push (fun to_sq => add_pawn_move 0 (to_sq + 8) to_sq) moves in
  let initial_pawns := Z.land pawns 0x00FF000000000000 in
  let double_push := Z.land (shr (Z.land (shr initial_pawns 8) empty) 8) empty in
  let moves :=
    for_each_bit double_push (fun to_sq ms => add_move ms (to_sq + 16) to_sq 0 0 0) moves in
  let white_occ := compute_white_occ state in
  let captures_right :=
    Z.land (Z.land (shr pawns 7) (bnot 0x0101010101010101)) white_occ in
  let moves :=
    for_each_bit captures_right (fun to_sq => add_pawn_move 0 (to_sq + 7) to_sq) moves in
  let captures_left :=
    Z.land (Z.land (shr pawns 9) (bnot 0x8080808080808080)) white_occ in
  let moves :=
    for_each_bit captures_left (fun to_sq => add_pawn_move 0 (to_sq + 9) to_sq) moves in
  if negb (en_passant state =? 255) then
    let ep_square := en_passant state in
    let ep_bit := bit ep_square in
    let moves :=
      if meets (shr pawns 7) ep_bit then
        if Z.quot (ep_square + 7) 8 =? 3 then add_move moves (ep_square + 7) ep_square 0 0 1
        else moves
      else moves in
    if meets (shr pawns 9) ep_bit then
      if Z.quot (ep_square + 9) 8 =? 3 then add_move moves (ep_square + 9) ep_square 0 0 1
      else moves
    else moves
  else moves.

(** The eight knight hops from one square, before own pieces are removed. *)
Definition knight_attacks (knight_bit : Z) : Z :=
  let attacks := 0 in
  let attacks := Z.lor attacks (shl (Z.land knight_bit NOT_H_FILE) 17) in
  let attacks := Z.lor attacks (shl (Z.land knight_bit NOT_A_FILE) 15) in
  let attacks := Z.lor attacks (shr (Z.land knight_bit NOT_H_FILE) 15) in
  let attacks := Z.lor attacks (shr (Z.land knight_bit NOT_A_FILE) 17) in
  let attacks := Z.lor attacks (shl (Z.land knight_bit NOT_HG_FILE) 10) in
  let attacks := Z.lor attacks (shl (Z.land knight_bit NOT_AB_FILE) 6) in
  let attacks := Z.lor attacks (shr (Z.land knight_bit NOT_HG_FILE) 6) in
  Z.lor attacks (shr (Z.land knight_bit NOT_AB_FILE) 10).

Definition generate_knight_moves (knights own_occ : Z) (moves : list chess_move_t)
  : list chess_move_t :=
  for_each_bit knights
    (fun from_sq ms =>
       let knight_bit := bit from_sq in
       let attacks := Z.land (knight_attacks knight_bit) (bnot own_occ) in
       for_each_bit attacks (fun to_sq ms' => add_move ms' from_sq to_sq 0 0 0) ms)
    moves.

Definition generate_white_knight_moves (state : bitboard_state_t) (moves : list chess_move_t)
  : list chess_move_t :=
  generate_knight_moves (white_knights state) (compute_white_occ state) moves.

Definition generate_black_knight_moves (state : bitboard_state_t) (moves : list chess_move_t)
  : list chess_move_t :=
  generate_knight_moves (black_knights state) (compute_black_occ state) moves.

(** One slider: the rays are explored in the order of the list. *)
Definition explore_rays (shifts : list (Z * Z)) (from_sq own_occ opp_occ : Z)
    (moves : list chess_move_t) : list chess_move_t :=
  fold_left (fun ms sm => explore_ray (bit from_sq) from_sq (fst sm) (snd sm) own_occ opp_occ ms)
            shifts moves.

Definition generate_slider_moves (shifts : list (Z * Z)) (pieces own_occ opp_occ : Z)
    (moves : list chess_move_t) : list chess_move_t :=
  for_each_bit pieces (fun from_sq ms => explore_rays shifts from_sq own_occ opp_occ ms) moves.

(** Shift and (ignored) block mask of each ray, in source order. *)
Definition bishop_rays : list (Z * Z) :=
  [(7, 0x8080808080808080); (9, 0x0101010101010101);
   (-9, 0x8080808080808080); (-7, 0x0101010101010101)].

Definition rook_rays : list (Z * Z) :=
  [(1, 0x8080808080808080); (-1, 0x0101010101010101);
   (8, 0xFF00000000000000); (-8, 0x00000000000000FF)].

Definition queen_rays : list (Z * Z) :=
  [(7, 0x8080808080808080); (9, 0x0101010101010101);
   (-7, 0x0101010101010101); (-9, 0x8080808080808080);
   (1, 0x8080808080808080); (-1, 0x0101010101010101);
   (8, 0xFF00000000000000); (-8, 0x00000000000000FF)].

Definition generate_white_bishop_moves (state : bitboard_state_t) (moves : list chess_move_t) :=
  generate_slider_moves bishop_rays (white_bishops state)
    (compute_white_occ state) (compute_black_occ state) moves.

Definition generate_black_bishop_moves (state : bitboard_state_t) (moves : list chess_move_t) :=
  generate_slider_moves bishop_rays (black_bishops state)
    (compute_black_occ state) (compute_white_occ state) moves.

Definition generate_white_rook_moves (state : bitboard_state_t) (moves : list chess_move_t) :=
  generate_slider_moves rook_rays (white_rooks state)
    (compute_white_occ state) (compute_black_occ state) moves.

Definition generate_black_rook_moves (state : bitboard_state_t) (moves : list chess_move_t) :=
  generate_slider_moves rook_rays (black_rooks state)
    (compute_black_occ state) (compute_white_occ state) moves.

Definition generate_white_queen_moves (state : bitboard_state_t) (moves : list chess_move_t) :=
  generate_slider_moves queen_rays (white_queens state)
    (compute_white_occ state) (compute_black_occ state) moves.

Definition generate_black_queen_moves (state : bitboard_state_t) (moves : list chess_move_t) :=
  generate_slider_moves queen_rays (black_queens state)
    (compute_black_occ state) (compute_white_occ state) moves.

(** One king step: taken when the board edge allows it and the target is
    not occupied by an own piece. *)
Definition king_step (allowed : bool) (from_sq to_sq own_occ : Z) (moves : list chess_move_t)
  : list chess_move_t :=
  if allowed then
    if negb (meets (bit to_sq) own_occ) then add_move moves from_sq to_sq 0 0 0 else moves
  else moves.

Definition MASK_WHITE_SHORT_CASTLING : Z := Z.lor (bit 5) (bit 6).
Definition MASK_WHITE_LONG_CASTLING : Z := Z.lor (Z.lor (bit 3) (bit 2)) (bit 1).
Definition MASK_BLACK_SHORT_CASTLING : Z := Z.lor (bit 61) (bit 62).
Definition MASK_BLACK_LONG_CASTLING : Z := Z.lor (Z.lor (bit 59) (bit 58)) (bit 57).

Definition generate_white_king_moves (state : bitboard_state_t) (moves : list chess_move_t)
  : list chess_move_t :=
  let occupied := compute_all_occ state in
  for_each_bit (white_kings state)
    (fun from_sq moves =>
       let from_file := Z.rem from_sq 8 in
       let from_rank := Z.quot from_sq 8 in
       let white_occ := compute_white_occ state in
       let moves := king_step (from_rank <? 7) from_sq (from_sq + 8) white_occ moves in
       let moves := king_step (from_rank >? 0) from_sq (from_sq - 8) white_occ moves in
       let moves := king_step (from_file <? 7) from_sq (from_sq + 1) white_occ moves in
       let moves := king_step (from_file >? 0) from_sq (from_sq - 1) white_occ moves in
       let moves :=
         king_step ((from_file <? 7) && (from_rank <? 7)) from_sq (from_sq + 9) white_occ moves in
       let moves :=
         king_step ((from_file >? 0) && (from_rank <? 7)) from_sq (from_sq + 7) white_occ moves in
       let moves :=
         king_step ((from_file <? 7) && (from_rank >? 0)) from_sq (from_sq - 7) white_occ moves in
       let moves :=
         king_step ((from_file >? 0) && (from_rank >? 0)) from_sq (from_sq - 9) white_occ moves in
       if from_sq =? 4 then
         let moves :=
           if negb (Z.land (castling_rights state) 0x1 =? 0)
              && negb (meets occupied MASK_WHITE_SHORT_CASTLING)
           then add_move moves from_sq (from_sq + 2) 0 1 0 else moves in
         if negb (Z.land (castling_rights state) 0x2 =? 0)
            && negb (meets occupied MASK_WHITE_LONG_CASTLING)
         then add_move moves from_sq (from_sq - 2) 0 1 0 else moves
       else moves)
    moves.

Definition generate_black_king_moves (state : bitboard_state_t) (moves : list chess_move_t)
  : list chess_move_t :=
  let occupied := compute_all_occ state in
  for_each_bit (black_kings state)
    (fun from_sq moves =>
       let from_file := Z.rem from_sq 8 in
       let from_rank := Z.quot from_sq 8 in
       let black_occ := compute_black_occ state in
       let moves := king_step (from_rank <? 7) from_sq (from_sq + 8) black_occ moves in
       let moves := king_step (from_rank >? 0) from_sq (from_sq - 8) black_occ moves in
       let moves := king_step (from_file <? 7) from_sq (from_sq + 1) black_occ moves in
       let moves := king_step (from_file >? 0) from_sq (from_sq - 1) black_occ moves in
       let moves :=
         king_step ((from_rank <? 7) && (from_file <? 7)) from_sq (from_sq + 9) black_occ moves in
       let moves :=
         king_step ((from_rank <? 7) && (from_file >? 0)) from_sq (from_sq + 7) black_occ moves in
       let moves :=
         king_step ((from_rank >? 0) && (from_file <? 7)) from_sq (from_sq - 7) black_occ moves in
       let moves :=
         king_step ((from_rank >? 0) && (from_file >? 0)) from_sq (from_sq - 9) black_occ moves in
       if from_sq =? 60 then
         let moves :=
           if negb (Z.land (castling_rights state) 0x4 =? 0)
              && negb (meets occupied MASK_BLACK_SHORT_CASTLING)
           then add_move moves from_sq (from_sq + 2) 0 1 0 else moves in
         if negb (Z.land (castling_rights state) 0x8 =? 0)
            && negb (meets occupied MASK_BLACK_LONG_CASTLING)
         then add_move moves from_sq (from_sq - 2) 0 1 0 else moves
       else moves)
    moves.

Definition chess_get_moves (state : bitboard_state_t) : list chess_move_t :=
  let moves := [] in
  if current_player state =? 1 then
    let moves := generate_white_pawn_moves state moves in
    let moves := generate_white_knight_moves state moves in
    let moves := generate_white_bishop_moves state moves in
    let moves := generate_white_rook_moves state moves in
    let moves := generate_white_queen_moves state moves in
    generate_white_king_moves state moves
  else
    let moves := generate_black_pawn_moves state moves in
    let moves := generate_black_knight_moves state moves in
    let moves := generate_black_bishop_moves state moves in
    let moves := generate_black_rook_moves state moves in
    let moves := generate_black_queen_moves state moves in
    generate_black_king_moves state moves.

Definition chess_get_num_moves (moves_vec : list chess_move_t) : Z := Z.of_nat (length moves_vec).

(** ** Zobrist hashing and state equality ([chess_hash.c]) *)

Record zobrist_keys_t : Type := mk_zobrist {
  piece_keys : list (list Z);     (* [12][64] *)
  castling_keys : list Z;         (* [16] *)
  en_passant_keys : list Z;       (* [64] *)
  side_to_move_key : Z
}.

(** The file-scope variables of [chess_hash.c]. *)
Record zobrist_globals : Type := mk_globals {
  zobrist_keys : zobrist_keys_t;
  zobrist_initialized : Z;
  prng_state : Z
}.

Definition zobrist_start : zobrist_globals :=
  mk_globals (mk_zobrist [] [] [] 0) 0 88172645463325252.

(** Xorshift64: returns the new state, which is also the number produced. *)
Definition next_rand64 (prng : Z) : Z :=
  let prng := Z.lxor prng (shl prng 13) in
  let prng := Z.lxor prng (shr prng 7) in
  Z.lxor prng (shl prng 17).

(** [n] consecutive draws, in order, and the state after them. *)
Fixpoint draw_keys (n : nat) (prng : Z) : list Z * Z :=
  match n with
  | O => ([], prng)
  | S n' => let k := next_rand64 prng in
            let '(ks, prng') := draw_keys n' k in (k :: ks, prng')
  end.

Fixpoint draw_rows (rows cols : nat) (prng : Z) : list (list Z) * Z :=
  match rows with
  | O => ([], prng)
  | S rows' => let '(r, prng1) := draw_keys cols prng in
               let '(rs, prng2) := draw_rows rows' cols prng1 in (r :: rs, prng2)
  end.

(** [now] is the value of [time(NULL)]. *)
Definition chess_hash_init (g : zobrist_globals) (now : Z) : zobrist_globals :=
  if negb (zobrist_initialized g =? 0) then g
  else
    let prng := Z.lxor (prng_state g) (u64 now) in
    let '(pk, prng) := draw_rows 12 64 prng in
    let '(ck, prng) := draw_keys 16 prng in
    let '(ek, prng) := draw_keys 64 prng in
    let sk := next_rand64 prng in
    mk_globals (mk_zobrist pk ck ek sk) 1 sk.

Definition key_at (keys : list Z) (i : Z) : Z := nth (Z.to_nat i) keys 0.

Definition pieces_of (state : bitboard_state_t) : list Z :=
  [white_pawns state; white_knights state; white_bishops state;
   white_rooks state; white_queens state; white_kings state;
   black_pawns state; black_knights state; black_bishops state;
   black_rooks state; black_queens state; black_kings state].

Definition chess_hash_state (g : zobrist_globals) (state : bitboard_state_t) : Z :=
  if zobrist_initialized g =? 0 then 0
  else
    let zk := zobrist_keys g in
    let hash := 0 in
    let hash :=
      fold_left
        (fun hash '(piece, bb) =>
           for_each_bit bb
             (fun sq hash => Z.lxor hash (key_at (nth piece (piece_keys zk) []) sq)) hash)
        (combine (seq 0 12) (pieces_of state)) hash in
    let hash := Z.lxor hash (key_at (castling_keys zk) (Z.land (castling_rights state) 0xF)) in
    let hash :=
      if en_passant state <? 64 then Z.lxor hash (key_at (en_passant_keys zk) (en_passant state))
      else hash in
    if current_player state =? -1 then Z.lxor hash (side_to_move_key zk) else hash.

Definition chess_equals_state (stateA stateB : bitboard_state_t) : Z :=
  Z.b2z
    ((white_pawns stateA =? white_pawns stateB)
     && (white_knights stateA =? white_knights stateB)
     && (white_bishops stateA =? white_bishops stateB)
     && (white_rooks stateA =? white_rooks stateB)
     && (white_queens stateA =? white_queens stateB)
     && (white_kings stateA =? white_kings stateB)
     && (black_pawns stateA =? black_pawns stateB)
     && (black_knights stateA =? black_knights stateB)
     && (black_bishops stateA =? black_bishops stateB)
     && (black_rooks stateA =? black_rooks stateB)
     && (black_queens stateA =? black_queens stateB)
     && (black_kings stateA =? black_kings stateB)
     && (castling_rights stateA =? castling_rights stateB)
     && (en_passant stateA =? en_passant stateB)
     && (halfmove_clock stateA =? halfmove_clock stateB)
     && (fullmove_number stateA =? fullmove_number stateB)
     && (current_player stateA =? current_player stateB)).

(** ** Terminal test and evaluation ([chess_game_dynamics.c]) *)

(** The filtering loop of [chess_is_terminal]: 0 at the first move that the
    applicator accepts, 1 when the moves are exhausted. *)
Fixpoint no_move_applies (state : bitboard_state_t) (moves : list chess_move_t) : Z :=
  match moves with
  | [] => 1
  | mv :: rest =>
      match chess_apply_move state mv with
      | Some _ => 0
      | None => no_move_applies state rest
      end
  end.

Definition chess_is_terminal (state : bitboard_state_t) : Z :=
  let moves := chess_get_moves state in
  let num_moves := chess_get_num_moves moves in
  if num_moves =? 0 then 1 else no_move_applies state moves.

Definition chess_player_to_move (state : bitboard_state_t) : Z := current_player state.

Definition chess_evaluate (bs : bitboard_state_t) : Z :=
  if negb (chess_is_terminal bs =? 0) then
    let white_check := is_king_in_check bs 1 in
    let black_check := is_king_in_check bs (-1) in
    if white_check then -99999
    else if black_check then 99999
    else 0
  else
    let white_pawns := popcountll (white_pawns bs) in
    let white_knights := popcountll (white_knights bs) in
    let white_bishops := popcountll (white_bishops bs) in
    let white_rooks := popcountll (white_rooks bs) in
    let white_queens := popcountll (white_queens bs) in
    let black_pawns := popcountll (black_pawns bs) in
    let black_knights := popcountll (black_knights bs) in
    let black_bishops := popcountll (black_bishops bs) in
    let black_rooks := popcountll (black_rooks bs) in
    let black_queens := popcountll (black_queens bs) in
    let wscore := white_pawns * 100 + white_knights * 320 + white_bishops * 330
                  + white_rooks * 500 + white_queens * 900 in
    let bscore := black_pawns * 100 + black_knights * 320 + black_bishops * 330
                  + black_rooks * 500 + black_queens * 900 in
    let material_score := wscore - bscore in
    let material_score :=
      if white_bishops >=? 2 then material_score + 30 else material_score in
    if black_bishops >=? 2 then material_score - 30 else material_score.

(** ** Concrete positions used by the examples *)

(** [r3k2r/8/8/8/8/8/8/R3K2R w KQkq - 0 1]: kings and rooks at home. *)
Definition rooks_at_home : bitboard_state_t :=
  {| white_pawns := 0; white_knights := 0; white_bishops := 0;
     white_rooks := 0x81; white_queens := 0; white_kings := 0x10;
     black_pawns := 0; black_knights := 0; black_bishops := 0;
     black_rooks := 0x8100000000000000; black_queens := 0;
     black_kings := 0x1000000000000000;
     castling_rights := 0xF; en_passant := 255; halfmove_clock := 0;
     fullmove_number := 1; current_player := 1 |}.

(** The same position with the halfmove clock at 5. *)
Definition clock_at_5 : bitboard_state_t := set_halfmove_clock rooks_at_home 5.

(** The same position with both clocks at their largest value, 255. *)
Definition clocks_at_255 : bitboard_state_t :=
  set_fullmove_number (set_halfmove_clock rooks_at_home 255) 255.

(** [8/8/8/3k4/4P3/8/8/4K3 b - - 0 1]: the black king on d5 stands on a
    square attacked by the white pawn on e4. *)
Definition king_next_to_pawn : bitboard_state_t :=
  {| white_pawns := bit 28; white_knights := 0; white_bishops := 0;
     white_rooks := 0; white_queens := 0; white_kings := bit 4;
     black_pawns := 0; black_knights := 0; black_bishops := 0;
     black_rooks := 0; black_queens := 0; black_kings := bit 35;
     castling_rights := 0; en_passant := 255; halfmove_clock := 0;
     fullmove_number := 1; current_player := -1 |}.

(** [1r5k/8/8/8/8/8/8/R3K3 w Q - 0 1]: the black rook on b8 attacks b1,
    a square that only the white rook crosses when castling queenside. *)
Definition rook_eyes_b1 : bitboard_state_t :=
  {| white_pawns := 0; white_knights := 0; white_bishops := 0;
     white_rooks := bit 0; white_queens := 0; white_kings := bit 4;
     black_pawns := 0; black_knights := 0; black_bishops := 0;
     black_rooks := bit 57; black_queens := 0; black_kings := bit 63;
     castling_rights := 0x2; en_passant := 255; halfmove_clock := 0;
     fullmove_number := 1; current_player := 1 |}.

(** Rejected only for b1; the same position without the black rook. *)
Definition rook_gone : bitboard_state_t := set_black_rooks rook_eyes_b1 0.

(** [R3r3/8/8/8/8/7k/8/4K3 w - - 0 1]: the black rook on e8 checks the
    white king on e1; the white rook on a8 can take it. *)
Definition rook_gives_check : bitboard_state_t :=
  {| white_pawns := 0; white_knights := 0; white_bishops := 0;
     white_rooks := bit 56; white_queens := 0; white_kings := bit 4;
     black_pawns := 0; black_knights := 0; black_bishops := 0;
     black_rooks := bit 60; black_queens := 0; black_kings := bit 23;
     castling_rights := 0; en_passant := 255; halfmove_clock := 0;
     fullmove_number := 1; current_player := 1 |}.

End Chess.

(** ** Memory: blocks addressed by pointers

    A pointer is the number of a block.  A block is live from its
    allocation to its [free] (or, for a local variable, to the end of its
    scope); a block number is never given out twice.  Reading through a
    pointer whose block is no longer live is undefined behaviour in C:
    [load] returns [None] there, and every function that reads memory
    returns [None] as soon as one of its reads does. *)

Module Memory.

Definition addr : Type := nat.

Definition heap (A : Type) : Type := list (option A).

Definition alloc {A : Type} (v : A) (h : heap A) : addr * heap A :=
  (length h, h ++ [Some v]).

Definition free {A : Type} (a : addr) (h : heap A) : heap A := <[a := None]> h.

Definition load {A : Type} (a : addr) (h : heap A) : option A :=
  match h !! a with
  | Some (Some v) => Some v
  | _ => None
  end.


End Memory.

(** ** The chained hash table ([obj_cache.c])

    Keys and values are [void *]: the table keeps the pointers it is
    given.  A key is a non-null pointer; a value may be [NULL] ([None]).
    The callbacks read the keys through their pointers, in the memory
    [Mem] of the moment of the call. *)

Module Cache.
Import Memory.

Section Table.
Context {Mem : Type}.

Record hash_entry : Type := mk_entry {
  key : addr;
  value : option addr
}.

Record generic_hash_table : Type := mk_table {
  buckets : list (list hash_entry);   (* array of chains, head first *)
  capacity : Z;
  hash_cb : Mem -> addr -> option Z;            (* uint64_t result *)
  eq_cb : Mem -> addr -> addr -> option Z       (* int result *)
}.

Definition INITIAL_CAPACITY : Z := 1024.

Definition get_bucket_index (hash capacity : Z) : nat := Z.to_nat (hash mod capacity).

(** The callbacks are mandatory: [None] is a [NULL] function pointer. *)
Definition cache_create (hash_cb : option (Mem -> addr -> option Z))
    (eq_cb : option (Mem -> addr -> addr -> option Z)) : option generic_hash_table :=
  match hash_cb, eq_cb with
  | Some h, Some e =>
      Some (mk_table (replicate (Z.to_nat INITIAL_CAPACITY) []) INITIAL_CAPACITY h e)
  | _, _ => None
  end.

(** The walk of [cache_lookup] along one chain: the value of the first
    entry whose key the callback declares equal, [NULL] at the end. *)
Fixpoint find_entry (eq : addr -> addr -> option Z) (k : addr) (chain : list hash_entry)
  : option (option addr) :=
  match chain with
  | [] => Some None
  | entry :: next =>
      match eq (key entry) k with
      | None => None
      | Some r => if negb (r =? 0) then Some (value entry) else find_entry eq k next
      end
  end.

(** Outer [None]: undefined behaviour; inner [None]: the [NULL] result. *)
Definition cache_lookup (mem : Mem) (cache : option generic_hash_table) (k : option addr)
  : option (option addr) :=
  match cache with
  | None => Some None
  | Some ht =>
      match k with
      | None => Some None
      | Some k =>
          match hash_cb ht mem k with
          | None => None
          | Some h =>
              let index := get_bucket_index h (capacity ht) in
              find_entry (eq_cb ht mem) k (default [] (buckets ht !! index))
          end
      end
  end.

(** The walk of [cache_store]: [Some chain'] when an entry with an equal
    key was found and its value replaced in place, [None] when the end of
    the chain was reached. *)
Fixpoint replace_entry (eq : addr -> addr -> option Z) (k : addr) (v : option addr)
    (chain : list hash_entry) : option (option (list hash_entry)) :=
  match chain with
  | [] => Some None
  | entry :: next =>
      match eq (key entry) k with
      | None => None
      | Some r =>
          if negb (r =? 0) then Some (Some (mk_entry (key entry) v :: next))
          else
            match replace_entry eq k v next with
            | None => None
            | Some None => Some None
            | Some (Some next') => Some (Some (entry :: next'))
            end
      end
  end.

(** Returns the table after the call ([None] outside: undefined behaviour). *)
Definition cache_store (mem : Mem) (cache : option generic_hash_table) (k : option addr)
    (v : option addr) : option (option generic_hash_table) :=
  match cache with
  | None => Some None
  | Some ht =>
      match k with
      | None => Some (Some ht)
      | Some k =>
          match hash_cb ht mem k with
          | None => None
          | Some h =>
              let index := get_bucket_index h (capacity ht) in
              let chain := default [] (buckets ht !! index) in
              match replace_entry (eq_cb ht mem) k v chain with
              | None => None
              | Some (Some chain') =>
                  Some (Some (mk_table (<[index := chain']> (buckets ht)) (capacity ht)
                                       (hash_cb ht) (eq_cb ht)))
              | Some None =>
                  let new_entry := mk_entry k v in
                  Some (Some (mk_table (<[index := new_entry :: chain]> (buckets ht))
                                       (capacity ht) (hash_cb ht) (eq_cb ht)))
              end
          end
      end
  end.

(** [cache_for_each]: the callback sees every pair, bucket after bucket,
    each chain from its head.  [fn] threads the user data. *)
Definition cache_for_each {U : Type} (cache : option generic_hash_table)
    (fn : option (addr -> option addr -> U -> U)) (user_data : U) : U :=
  match cache, fn with
  | Some ht, Some fn =>
      fold_left (fun u chain => fold_left (fun u e => fn (key e) (value e) u) chain u)
                (buckets ht) user_data
  | _, _ => user_data
  end.

(** The explicit iterator: the bucket to visit next and what is left of
    the current chain, the current entry first ([[]] for [NULL]). *)
Record cache_iterator : Type := mk_iter {
  iter_cache : generic_hash_table;
  current_bucket : nat;
  current_entry : list hash_entry
}.

Definition cache_iterator_create (cache : option generic_hash_table) : option cache_iterator :=
  match cache with
  | None => None
  | Some ht => Some (mk_iter ht 0 [])
  end.

(** The [while (!iter->current_entry)] loop: skip empty buckets. *)
Fixpoint next_chain (fuel : nat) (bs : list (list hash_entry)) (cap bucket : nat)
  : nat * list hash_entry :=
  match fuel with
  | O => (bucket, [])
  | S fuel' =>
      if (cap <=? bucket)%nat then (bucket, [])
      else
        match default [] (bs !! bucket) with
        | [] => next_chain fuel' bs cap (S bucket)
        | chain => (S bucket, chain)
        end
  end.

(** Returns the iterator after the call and the pair delivered, if any
    (the C function returns 1 with the pair, 0 at the end). *)
Definition cache_iterator_next (iter : cache_iterator)
  : cache_iterator * option (addr * option addr) :=
  let ht := iter_cache iter in
  let entry := match current_entry iter with
               | [] => []
               | _ :: next => next
               end in
  let '(bucket, entry) :=
    match entry with
    | [] => next_chain (S (Z.to_nat (capacity ht))) (buckets ht)
                       (Z.to_nat (capacity ht)) (current_bucket iter)
    | _ => (current_bucket iter, entry)
    end in
  (mk_iter ht bucket entry,
   match entry with
   | [] => None
   | e :: _ => Some (key e, value e)
   end).

End Table.

Arguments hash_entry : clear implicits.
Arguments generic_hash_table : clear implicits.
Arguments cache_iterator : clear implicits.

End Cache.

(** ** The alpha-beta search ([minimax.c]) *)

Module Minimax.
Import Memory Cache.

Inductive NodeType : Type := EXACT | LOWER_BOUND | UPPER_BOUND.

Record minimax_cache_entry_t : Type := mk_cache_entry {
  entry_value : Z;     (* int value *)
  entry_depth : Z;     (* int depth *)
  entry_type : NodeType
}.

Definition INT_MIN : Z := - 2 ^ 31.
Definition INT_MAX : Z := 2 ^ 31 - 1.

(** The callbacks of [game_descriptor_t] that the search uses, as
    functions of the state a pointer refers to.  [get_moves], with
    [get_num_moves] and [get_move_at], is the list of moves; the
    allocation callbacks are those of [Memory]. *)
Record game_descriptor_t (S M : Type) : Type := mk_game {
  get_moves : S -> list M;
  apply_move : S -> M -> option S;      (* [None]: [NULL], the move is refused *)
  is_terminal : S -> Z;
  evaluate : S -> Z;
  player_to_move : S -> Z;
  hash_state : S -> Z;
  equals_state : S -> S -> Z
}.

Arguments get_moves {S M}.
Arguments apply_move {S M}.
Arguments is_terminal {S M}.
Arguments evaluate {S M}.
Arguments player_to_move {S M}.
Arguments hash_state {S M}.
Arguments equals_state {S M}.

(** The memory of a search: the game states, and the [entry] locals of
    [minimax_ab] whose address is handed to the table. *)
Record memory (S : Type) : Type := mk_memory {
  states : heap S;
  locals : heap minimax_cache_entry_t
}.

Arguments mk_memory {S}.
Arguments states {S}.
Arguments locals {S}.

Section Search.
Context {S M : Type} (gd : game_descriptor_t S M).

Local Abbreviation table := (generic_hash_table (memory S)).

(** The table callbacks, as [cache_create(gd->hash_state, gd->equals_state)]
    installs them: both read the states behind the key pointers. *)
Definition state_hash_cb (mem : memory S) (k : addr) : option Z :=
  match load k (states mem) with
  | Some st => Some (hash_state gd st)
  | None => None
  end.

Definition state_eq_cb (mem : memory S) (a b : addr) : option Z :=
  match load a (states mem), load b (states mem) with
  | Some sa, Some sb => Some (equals_state gd sa sb)
  | _, _ => None
  end.

Definition new_cache : option table := cache_create (Some state_hash_cb) (Some state_eq_cb).

(** What the cache probe at the head of [minimax_ab] decides. *)
Inductive probe : Type :=
  | Return (v : Z)
  | Window (alpha beta : Z).

Definition probe_cache (depth : Z) (state : addr) (alpha beta : Z)
    (cache_handle : option table) (mem : memory S) : option probe :=
  match cache_handle with
  | None => Some (Window alpha beta)
  | Some _ =>
      match cache_lookup mem cache_handle (Some state) with
      | None => None
      | Some None => Some (Window alpha beta)
      | Some (Some cached_val) =>
          match load cached_val (locals mem) with
          | None => None
          | Some e =>
              if entry_depth e >=? depth then
                match entry_type e with
                | EXACT => Some (Return (entry_value e))
                | LOWER_BOUND =>
                    let alpha := if entry_value e >? alpha then entry_value e else alpha in
                    if alpha >=? beta then Some (Return (entry_value e))
                    else Some (Window alpha beta)
                | UPPER_BOUND =>
                    let beta := if entry_value e <? beta then entry_value e else beta in
                    if alpha >=? beta then Some (Return (entry_value e))
                    else Some (Window alpha beta)
                end
              else Some (Window alpha beta)
          end
      end
  end.

(** [{ minimax_cache_entry_t entry; ...; cache_store(cache_handle, state,
    &entry); }]: the local lives until the end of the block. *)
Definition store_entry (state : addr) (e : minimax_cache_entry_t)
    (cache_handle : option table) (mem : memory S) : option (option table * memory S) :=
  match cache_handle with
  | None => Some (None, mem)
  | Some _ =>
      let '(entry, ls) := alloc e (locals mem) in
      let mem := mk_memory (states mem) ls in
      match cache_store mem cache_handle (Some state) (Some entry) with
      | None => None
      | Some cache_handle => Some (cache_handle, mk_memory (states mem) (free entry ls))
      end
  end.

(** The running values of the move loop. *)
Record loop_state : Type := mk_loop {
  best_value : Z;
  loop_alpha : Z;
  loop_beta : Z
}.

Definition update_best (player value : Z) (l : loop_state) : loop_state :=
  if player =? 1 then
    let best := if value >? best_value l then value else best_value l in
    let alpha := if best >? loop_alpha l then best else loop_alpha l in
    mk_loop best alpha (loop_beta l)
  else
    let best := if value <? best_value l then value else best_value l in
    let beta := if best <? loop_beta l then best else loop_beta l in
    mk_loop best (loop_alpha l) beta.

(** The [for] loop over the moves; [search] is the recursive call at
    [depth - 1]. *)
Fixpoint search_moves
    (search : addr -> Z -> Z -> option table -> memory S -> option (Z * option table * memory S))
    (st : S) (player : Z) (moves : list M) (l : loop_state)
    (cache_handle : option table) (mem : memory S)
  : option (loop_state * option table * memory S) :=
  match moves with
  | [] => Some (l, cache_handle, mem)
  | move :: rest =>
      match apply_move gd st move with
      | None => search_moves search st player rest l cache_handle mem
      | Some child =>
          let '(new_state, hs) := alloc child (states mem) in
          match search new_state (loop_alpha l) (loop_beta l) cache_handle
                       (mk_memory hs (locals mem)) with
          | None => None
          | Some (value, cache_handle, mem) =>
              let mem := mk_memory (free new_state (states mem)) (locals mem) in
              let l := update_best player value l in
              if loop_alpha l >=? loop_beta l then Some (l, cache_handle, mem)
              else search_moves search st player rest l cache_handle mem
          end
      end
  end.

Definition classify (best alpha_orig beta_orig : Z) : NodeType :=
  if best <=? alpha_orig then UPPER_BOUND
  else if best >=? beta_orig then LOWER_BOUND
  else EXACT.

(** [minimax_ab], for a depth that is not negative.  The result carries
    the table and the memory after the call; [None] is undefined
    behaviour (a read through a pointer to a dead block). *)
Fixpoint minimax_ab (depth : nat) (state : addr) (alpha beta : Z)
    (cache_handle : option table) (mem : memory S) {struct depth}
  : option (Z * option table * memory S) :=
  let alpha_orig := alpha in
  let beta_orig := beta in
  match probe_cache (Z.of_nat depth) state alpha beta cache_handle mem with
  | None => None
  | Some (Return v) => Some (v, cache_handle, mem)
  | Some (Window alpha beta) =>
      match load state (states mem) with
      | None => None
      | Some st =>
          let leaf :=
            let eval := evaluate gd st in
            match store_entry state (mk_cache_entry eval (Z.of_nat depth) EXACT)
                              cache_handle mem with
            | None => None
            | Some (cache_handle, mem) => Some (eval, cache_handle, mem)
            end in
          match depth with
          | O => leaf
          | Datatypes.S depth' =>
              if negb (is_terminal gd st =? 0) then leaf
              else
                let moves_vec := get_moves gd st in
                if Z.of_nat (length moves_vec) =? 0 then leaf
                else
                  let player := player_to_move gd st in
                  let best := if player =? 1 then INT_MIN else INT_MAX in
                  match search_moves (minimax_ab depth') st player moves_vec
                                     (mk_loop best alpha beta) cache_handle mem with
                  | None => None
                  | Some (l, cache_handle, mem) =>
                      let node_type := classify (best_value l) alpha_orig beta_orig in
                      match store_entry state
                              (mk_cache_entry (best_value l) (Z.of_nat depth) node_type)
                              cache_handle mem with
                      | None => None
                      | Some (cache_handle, mem) => Some (best_value l, cache_handle, mem)
                      end
                  end
          end
      end
  end.

(** The value a search returns, when it is defined. *)
Definition search_value (r : option (Z * option table * memory S)) : option Z :=
  match r with
  | Some (v, _, _) => Some v
  | None => None
  end.

(** The move loop of [get_best_move], which also tracks the best move. *)
Fixpoint best_moves (depth' : nat) (st : S) (player : Z) (moves : list M) (l : loop_state)
    (best_move : option M) (cache_handle : option table) (mem : memory S)
  : option (option M * option table * memory S) :=
  match moves with
  | [] => Some (best_move, cache_handle, mem)
  | move :: rest =>
      match apply_move gd st move with
      | None => best_moves depth' st player rest l best_move cache_handle mem
      | Some child =>
          let '(new_state, hs) := alloc child (states mem) in
          match minimax_ab depth' new_state (loop_alpha l) (loop_beta l) cache_handle
                           (mk_memory hs (locals mem)) with
          | None => None
          | Some (value, cache_handle, mem) =>
              let mem := mk_memory (free new_state (states mem)) (locals mem) in
              let improved :=
                if player =? 1 then value >? best_value l else value <? best_value l in
              let best_move := if improved then Some move else best_move in
              let l := update_best player value l in
              if loop_alpha l >=? loop_beta l then Some (best_move, cache_handle, mem)
              else best_moves depth' st player rest l best_move cache_handle mem
          end
      end
  end.

(** [get_best_move] for a depth of at least one ([depth' = depth - 1]). *)
Definition get_best_move (depth' : nat) (state : addr) (cache_handle : option table)
    (mem : memory S) : option (option M * option table * memory S) :=
  match load state (states mem) with
  | None => None
  | Some st =>
      if negb (is_terminal gd st =? 0) then Some (None, cache_handle, mem)
      else
        let moves_vec := get_moves gd st in
        if Z.of_nat (length moves_vec) =? 0 then Some (None, cache_handle, mem)
        else
          let player := player_to_move gd st in
          let best := if player =? 1 then INT_MIN else INT_MAX in
          best_moves depth' st player moves_vec (mk_loop best INT_MIN INT_MAX) None
                     cache_handle mem
  end.

End Search.

(** *** A two-leaf game

    State 0 has the moves 1 and 2, which lead to the terminal states 1 and
    2, worth 1 and 2 to the maximizer.  The hash of state [s] is
    [1024 * s]: distinct hashes, one bucket. *)
Definition two_leaves : game_descriptor_t Z Z :=
  {| get_moves := fun s => if s =? 0 then [1; 2] else [];
     apply_move := fun _ m => Some m;
     is_terminal := fun s => if s =? 0 then 0 else 1;
     evaluate := fun s => s;
     player_to_move := fun _ => 1;
     hash_state := fun s => 1024 * s;
     equals_state := fun a b => if a =? b then 1 else 0 |}.

(** The same game with the hash of state [s] equal to [s]. *)
Definition two_leaves_spread : game_descriptor_t Z Z :=
  {| get_moves := get_moves two_leaves;
     apply_move := apply_move two_leaves;
     is_terminal := is_terminal two_leaves;
     evaluate := evaluate two_leaves;
     player_to_move := player_to_move two_leaves;
     hash_state := fun s => s;
     equals_state := equals_state two_leaves |}.

(** The caller's memory: the root state 0 in block 0. *)
Definition root_memory : memory Z := mk_memory [Some 0] [].

End Minimax.

(** ** The chess game descriptor ([chess_game_descriptor.c]) *)

Module ChessGame.
Import Chess Minimax.

(** [initialize_chess_game_descriptor]: the hash module is initialised,
    then the callbacks are installed.  The result carries the file-scope
    variables of [chess_hash.c] after the call; [chess_hash_state] reads
    them, and nothing writes them afterwards.  [now] is the value of
    [time(NULL)]. *)
Definition initialize_chess_game_descriptor (g : zobrist_globals) (now : Z)
  : zobrist_globals * game_descriptor_t bitboard_state_t chess_move_t :=
  let g := chess_hash_init g now in
  (g, {| get_moves := chess_get_moves;
         apply_move := chess_apply_move;
         is_terminal := chess_is_terminal;
         evaluate := chess_evaluate;
         player_to_move := chess_player_to_move;
         hash_state := chess_hash_state g;
         equals_state := chess_equals_state |}).

End ChessGame.

(** ** Notions used to state the properties of the bit utilities *)

Module BitsSpec.

(** The range of [uint64_t]. *)
Definition u64_range (x : Z) : Prop := 0 <= x < 2 ^ 64.

(** The set bits of [bb] among the [len] indices from [n] on, lowest first. *)
Definition indices_from (bb : Z) (n len : nat) : list Z :=
  filter (fun i => Z.testbit bb i = true) (map Z.of_nat (seq n len)).

(** The set bits of a bitboard, lowest first. *)
Definition bit_indices (bb : Z) : list Z := indices_from bb 0 64.

End BitsSpec.

(** ** Notions used to state the properties of the chess core *)

Module ChessSpec.
Import Bits Chess.

(** The range of the C type [int]. *)
Definition int_range (x : Z) : Prop := - 2 ^ 31 <= x < 2 ^ 31.

(** Square [sq] is set in the bitboard [bb]. *)
Definition holds (bb sq : Z) : bool := meets bb (bit sq).

(** The squares of a move are squares of the board.  Only then are the
    shifts [1ULL << from] and [1ULL << to] of the applicator defined. *)
Definition on_board (m : chess_move_t) : Prop :=
  0 <= from m < 64 /\ 0 <= to m < 64.

(** The move carries neither the promotion nor the en-passant flag. *)
Definition unflagged (m : chess_move_t) : Prop :=
  promotion m = 0 /\ is_en_passant m = 0.

(** A pawn move: the piece on the origin is a pawn. *)
Definition is_pawn_move (p : bitboard_state_t) (m : chess_move_t) : bool :=
  holds (white_pawns p) (from m) || holds (black_pawns p) (from m).

(** A capture: the destination holds a piece of the colour opposite to the
    piece on the origin.  (An en-passant capture is a pawn move.) *)
Definition is_capture (p : bitboard_state_t) (m : chess_move_t) : bool :=
  (holds (compute_white_occ p) (from m) && holds (compute_black_occ p) (to m))
  || (holds (compute_black_occ p) (from m) && holds (compute_white_occ p) (to m)).

(** [n] consecutive accepted half-moves between squares of the board, none
    of them flagged as a promotion or as en passant, none a pawn move or a
    capture. *)
Inductive quiet_moves : nat -> bitboard_state_t -> bitboard_state_t -> Prop :=
  | quiet_none p : quiet_moves 0 p p
  | quiet_step n p m p1 p2 :
      chess_apply_move p m = Some p1 ->
      on_board m -> unflagged m ->
      is_pawn_move p m = false -> is_capture p m = false ->
      quiet_moves n p1 p2 -> quiet_moves (S n) p p2.

(** Steps 5 to 8 of [chess_apply_move], run on the position [s1] and the
    flag that the dispatch of step 4 produced. *)
Definition finish (p s1 : bitboard_state_t) (m : chess_move_t) (flag : bool)
  : bitboard_state_t :=
  set_current_player
    (update_move_counters (update_en_passant (update_castling_rights s1 m) m) flag)
    (int_neg (current_player p)).

(** The four branches of step 4. *)
Inductive dispatched (p : bitboard_state_t) (m : chess_move_t)
  : bitboard_state_t -> bool -> Prop :=
  | dispatch_castle :
      is_castling m <> 0 -> is_legal_castle p m = true ->
      dispatched p m (apply_castling p m) false
  | dispatch_en_passant :
      is_castling m = 0 -> is_en_passant m <> 0 ->
      dispatched p m (apply_en_passant p m) true
  | dispatch_promotion :
      is_castling m = 0 -> is_en_passant m = 0 -> promotion m <> 0 ->
      dispatched p m (handle_promotion (fst (apply_regular_move p m)) m) true
  | dispatch_regular :
      is_castling m = 0 -> is_en_passant m = 0 -> promotion m = 0 ->
      dispatched p m (fst (apply_regular_move p m)) (snd (apply_regular_move p m)).

(** [s'] has the scalar fields of [s]: only bitboards may differ. *)
Definition same_scalars (s s' : bitboard_state_t) : Prop :=
  castling_rights s' = castling_rights s
  /\ en_passant s' = en_passant s
  /\ halfmove_clock s' = halfmove_clock s
  /\ fullmove_number s' = fullmove_number s
  /\ current_player s' = current_player s.

End ChessSpec.

(** ** Notions used to state further properties of the chess core *)

Module ChessSpec2.
Import Bits Chess.

(** The rights [r'] are a byte and hold no right that [r] does not. *)
Definition rights_within (r r' : Z) : Prop :=
  0 <= r' < 256 /\ forall i, Z.testbit r' i = true -> Z.testbit r i = true.

(** The flags of a move fit the position: a promotion code up to 4, and
    at most one of the castling and en-passant flags; a castling move is
    one of the four king moves that [get_castling_squares] knows, an
    en-passant move goes to the en-passant square of the position. *)
Definition well_flagged (p : bitboard_state_t) (m : chess_move_t) : Prop :=
  0 <= promotion m <= 4
  /\ ((is_castling m = 0 /\ is_en_passant m = 0)
      \/ (is_castling m = 1 /\ is_en_passant m = 0 /\ promotion m = 0
          /\ get_castling_squares (from m) (to m) <> [])
      \/ (is_castling m = 0 /\ is_en_passant m = 1 /\ promotion m = 0
          /\ en_passant p <> 255 /\ to m = u8 (en_passant p))).

(** Every bit of [a] is a bit of [b]. *)
Definition bits_within (a b : Z) : Prop :=
  forall i, Z.testbit a i = true -> Z.testbit b i = true.

(** The attackers' boards and the king's board are those of [s], and no
    square is occupied in [s'] that is not in [s]. *)
Definition only_defenders_removed (pl : Z) (s s' : bitboard_state_t) : Prop :=
  bits_within (compute_all_occ s') (compute_all_occ s)
  /\ (if pl =? 1 then
        white_kings s' = white_kings s
        /\ black_pawns s' = black_pawns s /\ black_knights s' = black_knights s
        /\ black_bishops s' = black_bishops s /\ black_rooks s' = black_rooks s
        /\ black_queens s' = black_queens s /\ black_kings s' = black_kings s
      else
        black_kings s' = black_kings s
        /\ white_pawns s' = white_pawns s /\ white_knights s' = white_knights s
        /\ white_bishops s' = white_bishops s /\ white_rooks s' = white_rooks s
        /\ white_queens s' = white_queens s /\ white_kings s' = white_kings s).

End ChessSpec2.

(** ** Notions used to state the properties of the table and of the search *)

Module CacheSpec.
Import Memory Cache Minimax.

(** The bucket array has [capacity] slots. *)
Definition wf_table {Mem : Type} (ht : generic_hash_table Mem) : Prop :=
  0 < capacity ht /\ length (buckets ht) = Z.to_nat (capacity ht).

(** The chain in which a key of hash [h] is looked for. *)
Definition chain_of {Mem : Type} (ht : generic_hash_table Mem) (h : Z) : list hash_entry :=
  default [] (buckets ht !! get_bucket_index h (capacity ht)).


(** A table of the search: any bucket array under the callbacks that
    [cache_create(gd->hash_state, gd->equals_state)] installs. *)
Definition search_table {S M : Type} (gd : game_descriptor_t S M)
    (bs : list (list hash_entry)) : generic_hash_table (memory S) :=
  mk_table bs INITIAL_CAPACITY (state_hash_cb gd) (state_eq_cb gd).


End CacheSpec.

(** ** Notions used to state further properties of the table *)

Module CacheSpec2.
Import Memory Cache.

(** The number of entries in the table. *)
Definition entry_count {Mem : Type} (ht : generic_hash_table Mem) : nat :=
  length (concat (buckets ht)).

(** The pairs of the table, bucket after bucket, each chain from its head. *)
Definition pairs_of {Mem : Type} (ht : generic_hash_table Mem) : list (addr * option addr) :=
  map (fun e => (key e, value e)) (concat (buckets ht)).

(** Calling [cache_iterator_next] until it reports the end (at most
    [fuel] times): the pairs delivered, in order. *)
Fixpoint drain {Mem : Type} (fuel : nat) (iter : cache_iterator Mem)
  : list (addr * option addr) :=
  match fuel with
  | O => []
  | S fuel' =>
      match cache_iterator_next iter with
      | (iter', Some kv) => kv :: drain fuel' iter'
      | (_, None) => []
      end
  end.

(** A table over a memory that is a list of integers: the key pointer
    [k] refers to the [k]-th integer, the hash is the integer itself and
    two keys are equal when their integers are. *)
Definition int_hash (mem : list Z) (k : addr) : option Z := mem !! k.
Definition int_eq (mem : list Z) (a b : addr) : option Z :=
  match mem !! a, mem !! b with
  | Some x, Some y => Some (if x =? y then 1 else 0)
  | _, _ => None
  end.
Definition int_keys : list Z := [42; 100; 42; 1066].
Definition int_table : option (generic_hash_table (list Z)) :=
  match cache_create (Some int_hash) (Some int_eq) with
  | Some ht =>
      match cache_store int_keys (Some ht) (Some 0%nat) (Some 7%nat) with
      | Some (Some ht) =>
          match cache_store int_keys (Some ht) (Some 1%nat) (Some 8%nat) with
          | Some cache => cache
          | None => None
          end
      | _ => None
      end
  | None => None
  end.

(** A table that holds one entry, under the key 3 (the integer 1066,
    bucket 42), with the value pointer 9. *)
Definition int_one : generic_hash_table (list Z) :=
  mk_table (<[42%nat := [mk_entry 3%nat (Some 9%nat)]]> (replicate 1024 []))
           INITIAL_CAPACITY int_hash int_eq.

End CacheSpec2.

(** ** Notions used to state the properties of the search *)

Module MinimaxSpec.
Import Memory Cache Minimax.

Section Game.
Context {S M : Type} (gd : game_descriptor_t S M).

(** The states that the accepted moves of [st] lead to, in move order. *)
Definition children (st : S) : list S := omap (apply_move gd st) (get_moves gd st).

(** A node at which the search evaluates instead of expanding. *)
Definition is_leaf (depth : nat) (st : S) : bool :=
  match depth with
  | O => true
  | Datatypes.S _ =>
      negb (is_terminal gd st =? 0) || (Z.of_nat (length (get_moves gd st)) =? 0)
  end.

(** Plain minimax to a fixed depth: player 1 maximizes, any other player
    minimizes; a node with no accepted move is worth the initial bound. *)
Fixpoint minimax (depth : nat) (st : S) : Z :=
  match depth with
  | O => evaluate gd st
  | Datatypes.S depth' =>
      if is_leaf depth st then evaluate gd st
      else if player_to_move gd st =? 1
           then fold_left Z.max (map (minimax depth') (children st)) INT_MIN
           else fold_left Z.min (map (minimax depth') (children st)) INT_MAX
  end.

(** The move loop of the search on state values: no table, no memory. *)
Fixpoint alphabeta_moves (search : S -> Z -> Z -> Z) (player : Z) (cs : list S)
    (l : loop_state) : loop_state :=
  match cs with
  | [] => l
  | child :: rest =>
      let l := update_best player (search child (loop_alpha l) (loop_beta l)) l in
      if loop_alpha l >=? loop_beta l then l else alphabeta_moves search player rest l
  end.

(** Alpha-beta on state values, as [minimax_ab] computes it without a table. *)
Fixpoint alphabeta (depth : nat) (st : S) (alpha beta : Z) : Z :=
  match depth with
  | O => evaluate gd st
  | Datatypes.S depth' =>
      if is_leaf depth st then evaluate gd st
      else
        let player := player_to_move gd st in
        let best := if player =? 1 then INT_MIN else INT_MAX in
        best_value (alphabeta_moves (alphabeta depth') player (children st)
                                    (mk_loop best alpha beta))
  end.

(** All the states of the game tree below [st], down to [depth]. *)
Fixpoint subtree (depth : nat) (st : S) : list S :=
  st :: match depth with
        | O => []
        | Datatypes.S depth' =>
            if is_leaf depth st then []
            else flat_map (subtree depth') (children st)
        end.

(** What a result [r] of a search with the window [alpha], [beta] says
    about the value [v] of the node: at or below [alpha] it is an upper
    bound, at or above [beta] a lower bound, in between it is the value. *)
Definition bounds_value (alpha beta r v : Z) : Prop :=
  (r <= alpha -> v <= r) /\ (beta <= r -> r <= v) /\ (alpha < r < beta -> r = v).

(** The answer [best] of [get_best_move] is no move, or a move of the
    generated list that [apply_move] accepts. *)
Definition accepted_move (st : S) (best : option M) : Prop :=
  match best with
  | None => True
  | Some m => In m (get_moves gd st) /\ apply_move gd st m <> None
  end.

(** The bucket of a state in a table of the search. *)
Definition bucket_of (st : S) : nat := get_bucket_index (hash_state gd st) INITIAL_CAPACITY.

End Game.

(** A game whose root 0 has the children 1 and 2; state 1 has the child 3;
    states 2 and 3 are final.  State 2 is worth 20 and every other state
    30; the root maximizes and state 1 minimizes; the hash is the number. *)
Definition small_tree : game_descriptor_t Z Z :=
  {| get_moves := fun s => if s =? 0 then [1; 2] else if s =? 1 then [3] else [];
     apply_move := fun _ m => Some m;
     is_terminal := fun s => if (s =? 0) || (s =? 1) then 0 else 1;
     evaluate := fun s => if s =? 2 then 20 else 30;
     player_to_move := fun s => if s =? 0 then 1 else -1;
     hash_state := fun s => s;
     equals_state := fun a b => if a =? b then 1 else 0 |}.

End MinimaxSpec.

(** * Properties of the bit utilities *)

Module BitsFacts.
Import Bits BitsSpec.

Lemma bit_pow2 i : 0 <= i < 64 -> bit i = 2 ^ i.
Proof.
  intros Hi. unfold bit, shl, u64. rewrite Z.shiftl_1_l.
  apply Z.mod_small. split; [apply Z.pow_nonneg; lia |].
  apply Z.pow_lt_mono_r; lia.
Qed.

Lemma land_pow2 x i :
  0 <= i -> Z.land x (2 ^ i) = if Z.testbit x i then 2 ^ i else 0.
Proof.
  intros Hi. apply Z.bits_inj'. intros n Hn.
  rewrite Z.land_spec, Z.pow2_bits_eqb by assumption.
  destruct (Z.eqb_spec i n) as [-> | Hne].
  - destruct (Z.testbit x n) eqn:Hx; simpl.
    + now rewrite Z.pow2_bits_true.
    + now rewrite Z.bits_0.
  - rewrite andb_false_r. destruct (Z.testbit x i).
    + rewrite Z.pow2_bits_false; auto.
    + now rewrite Z.bits_0.
Qed.

Lemma meets_bit x i : 0 <= i < 64 -> meets x (bit i) = Z.testbit x i.
Proof.
  intros Hi. unfold meets. rewrite bit_pow2, land_pow2 by lia.
  destruct (Z.testbit x i); simpl; [| reflexivity].
  apply negb_true_iff, Z.eqb_neq.
  pose proof (Z.pow_pos_nonneg 2 i). lia.
Qed.

(** The scan stops at the first set bit at or above its starting index. *)
Lemma ctz_scan_spec fuel i bb :
  0 <= i -> i + Z.of_nat fuel <= 64 ->
  let r := ctz_scan fuel i bb in
  i <= r <= i + Z.of_nat fuel
  /\ (forall j, i <= j < r -> Z.testbit bb j = false)
  /\ (r < i + Z.of_nat fuel -> Z.testbit bb r = true).
Proof.
  revert i. induction fuel as [| fuel IH]; intros i Hi Hle; cbn [ctz_scan].
  - cbv zeta. repeat split; lia.
  - rewrite meets_bit by lia. destruct (Z.testbit bb i) eqn:Hb.
    + cbv zeta. repeat split; try lia. auto.
    + specialize (IH (i + 1) ltac:(lia) ltac:(lia)). cbv zeta in *.
      destruct IH as (Hr & Hlow & Hset). repeat split; try lia.
      * intros j Hj. destruct (Z.eq_dec j i) as [-> | ?]; [exact Hb | apply Hlow; lia].
      * intros. apply Hset. lia.
Qed.

Lemma nonzero_has_bit bb :
  0 < bb < 2 ^ 64 -> exists j, 0 <= j < 64 /\ Z.testbit bb j = true.
Proof.
  intros Hbb. exists (Z.log2 bb). split.
  - split; [apply Z.log2_nonneg |]. apply Z.log2_lt_pow2; lia.
  - apply Z.bit_log2. lia.
Qed.

(** [ctzll] returns the index of the lowest set bit of a non-zero 64-bit
    word: a square of the board, whose bit is set, with no set bit below. *)
Lemma ctzll_spec (bb : Z) :
  0 < bb < 2 ^ 64 ->
  0 <= ctzll bb < 64
  /\ Z.testbit bb (ctzll bb) = true
  /\ (forall j, 0 <= j < ctzll bb -> Z.testbit bb j = false).
Proof.
  intros Hbb. unfold ctzll.
  destruct (ctz_scan_spec 64 0 bb ltac:(lia) ltac:(simpl; lia)) as (Hr & Hlow & Hset).
  cbv zeta in *. change (0 + Z.of_nat 64) with 64 in *.
  destruct (nonzero_has_bit bb Hbb) as (j & Hj & Hjb).
  assert (Hlt : ctz_scan 64 0 bb < 64).
  { destruct (Z_lt_ge_dec (ctz_scan 64 0 bb) 64) as [? | Hge]; [assumption |].
    rewrite Hlow in Hjb by lia. discriminate. }
  repeat split; try lia; auto.
Qed.

(** *** Clearing the lowest set bit *)

Lemma testbit_div x j : 0 <= j -> Z.testbit x j = Z.odd (x / 2 ^ j).
Proof. intros Hj. now rewrite Z.testbit_odd, Z.shiftr_div_pow2. Qed.

Lemma low_bits_zero x k :
  0 <= k -> (forall j, 0 <= j < k -> Z.testbit x j = false) -> x mod 2 ^ k = 0.
Proof.
  intros Hk Hlow. apply Z.bits_inj_0. intros n.
  destruct (Z_lt_ge_dec n 0) as [? | Hn]; [now apply Z.testbit_neg_r |].
  destruct (Z_lt_ge_dec n k).
  - rewrite Z.mod_pow2_bits_low by lia. apply Hlow. lia.
  - apply Z.mod_pow2_bits_high. lia.
Qed.

Lemma pred_bit_above x k j :
  0 <= k < j -> Z.testbit x k = true -> Z.testbit (x - 1) j = Z.testbit x j.
Proof.
  intros Hkj Hk. rewrite !testbit_div by lia. f_equal.
  pose proof (Z.pow_pos_nonneg 2 j ltac:(lia) ltac:(lia)) as Hpos.
  assert (Hr : x mod 2 ^ j <> 0).
  { intros H0. assert (Hb : Z.testbit (x mod 2 ^ j) k = true)
      by (rewrite Z.mod_pow2_bits_low by lia; exact Hk).
    rewrite H0, Z.bits_0 in Hb. discriminate. }
  pose proof (Z.mod_pos_bound x (2 ^ j) Hpos).
  symmetry. apply (Z.div_unique_pos _ _ _ (x mod 2 ^ j - 1)); [lia |].
  pose proof (Z.div_mod x (2 ^ j)). lia.
Qed.

Lemma pred_bit_at x k :
  0 <= k -> (forall j, 0 <= j < k -> Z.testbit x j = false) -> Z.testbit x k = true ->
  Z.testbit (x - 1) k = false.
Proof.
  intros Hk Hlow Hset. rewrite testbit_div in * by lia.
  pose proof (Z.pow_pos_nonneg 2 k ltac:(lia) ltac:(lia)) as Hpos.
  pose proof (low_bits_zero x k Hk Hlow) as Hmod.
  pose proof (Z.div_mod x (2 ^ k) ltac:(lia)) as Hdm. rewrite Hmod in Hdm.
  assert (Hq : (x - 1) / 2 ^ k = x / 2 ^ k - 1).
  { symmetry. apply (Z.div_unique_pos _ _ _ (2 ^ k - 1)); lia. }
  rewrite Hq, Z.sub_1_r, Z.odd_pred, <- Z.negb_odd, Hset. reflexivity.
Qed.

(** [bb & (bb - 1)] is [bb] without its lowest set bit. *)
Lemma clear_lowest_bits bb k j :
  0 <= k -> (forall i, 0 <= i < k -> Z.testbit bb i = false) -> Z.testbit bb k = true ->
  0 <= j ->
  Z.testbit (Z.land bb (bb - 1)) j = Z.testbit bb j && (k <? j).
Proof.
  intros Hk Hlow Hset Hj. rewrite Z.land_spec.
  destruct (Z.ltb_spec k j).
  - rewrite (pred_bit_above bb k j) by (auto; lia). now rewrite andb_diag, andb_true_r.
  - rewrite andb_false_r. destruct (Z.eq_dec j k) as [-> | ?].
    + rewrite pred_bit_at by auto. apply andb_false_r.
    + rewrite Hlow by lia. reflexivity.
Qed.

Lemma land_le_l a b : 0 <= a -> Z.land a b <= a.
Proof.
  intros Ha. apply Z.ldiff_le; [exact Ha |].
  apply Z.bits_inj_0. intros n. rewrite Z.ldiff_spec, Z.land_spec.
  destruct (Z.testbit a n), (Z.testbit b n); reflexivity.
Qed.

Lemma clear_lowest_range bb : 0 < bb < 2 ^ 64 -> 0 <= Z.land bb (bb - 1) < 2 ^ 64.
Proof.
  intros Hbb. split; [apply Z.land_nonneg; lia |].
  pose proof (land_le_l bb (bb - 1)). lia.
Qed.

(** *** The loop over the set bits *)

Lemma indices_from_empty bb n len :
  (forall j, Z.of_nat n <= j < Z.of_nat (n + len) -> Z.testbit bb j = false) ->
  indices_from bb n len = [].
Proof.
  unfold indices_from. revert n. induction len as [| len IH]; intros n H; [reflexivity |].
  simpl. rewrite filter_cons_False by (rewrite H by lia; discriminate).
  apply IH. intros j Hj. apply H. lia.
Qed.

Lemma indices_from_ext bb bb' n len :
  (forall j, Z.of_nat n <= j < Z.of_nat (n + len) -> Z.testbit bb j = Z.testbit bb' j) ->
  indices_from bb n len = indices_from bb' n len.
Proof.
  unfold indices_from. revert n. induction len as [| len IH]; intros n H; [reflexivity |].
  simpl. rewrite !filter_cons, (H (Z.of_nat n)) by lia.
  rewrite (IH (S n)) by (intros j Hj; apply H; lia). reflexivity.
Qed.

Lemma indices_from_split bb n k len :
  (k < len)%nat ->
  (forall j, Z.of_nat n <= j < Z.of_nat (n + k) -> Z.testbit bb j = false) ->
  Z.testbit bb (Z.of_nat (n + k)) = true ->
  indices_from bb n len = Z.of_nat (n + k) :: indices_from bb (S (n + k)) (len - S k).
Proof.
  intros Hk Hlow Hset. unfold indices_from.
  replace len with (k + S (len - S k))%nat at 1 by lia.
  rewrite seq_app, map_app, filter_app.
  fold (indices_from bb n k). rewrite indices_from_empty by assumption.
  simpl. rewrite filter_cons_True by assumption. reflexivity.
Qed.

Lemma for_each_bit_loop_indices {A : Type} (body : Z -> A -> A) fuel :
  forall (n : nat) bb acc,
    (n <= 64)%nat ->
    (forall j, 0 <= j < Z.of_nat n -> Z.testbit bb j = false) ->
    0 <= bb < 2 ^ 64 ->
    (64 - n <= fuel)%nat ->
    for_each_bit_loop fuel bb body acc
    = fold_left (fun a sq => body sq a) (indices_from bb n (64 - n)) acc.
Proof.
  induction fuel as [| fuel IH]; intros n bb acc Hn Hlow Hbb Hfuel.
  - replace (64 - n)%nat with 0%nat by lia. reflexivity.
  - cbn [for_each_bit_loop]. destruct (Z.eqb_spec bb 0) as [-> | Hne].
    + rewrite indices_from_empty; [reflexivity |]. intros. apply Z.bits_0.
    + destruct (ctzll_spec bb ltac:(lia)) as (Hr & Hset & Hbelow).
      set (sq := ctzll bb) in *.
      assert (Hge : Z.of_nat n <= sq).
      { destruct (Z_lt_ge_dec sq (Z.of_nat n)) as [Hlt | ?]; [| lia].
        rewrite Hlow in Hset by lia. discriminate. }
      set (k := (Z.to_nat sq - n)%nat).
      assert (Hsq : sq = Z.of_nat (n + k)) by lia.
      rewrite (indices_from_split bb n k) by (rewrite <- ?Hsq; auto; try lia;
        intros; apply Hbelow; lia).
      cbn [fold_left]. rewrite <- Hsq.
      rewrite (IH (S (n + k)) (Z.land bb (bb - 1))).
      * replace (64 - S (n + k))%nat with (64 - n - S k)%nat by lia.
        f_equal. apply indices_from_ext. intros j Hj.
        rewrite (clear_lowest_bits bb sq j) by (auto; lia).
        destruct (Z.ltb_spec sq j); [apply andb_true_r | lia].
      * lia.
      * intros j Hj. rewrite (clear_lowest_bits bb sq j) by (auto; lia).
        destruct (Z.ltb_spec sq j); [lia | apply andb_false_r].
      * apply clear_lowest_range. lia.
      * lia.
Qed.

(** The loop [while (bb) { sq = ctzll(bb); bb &= bb - 1; body }] runs its
    body once for each set bit of a 64-bit word, lowest bit first, and is
    over after at most 64 rounds: more fuel changes nothing. *)
Theorem for_each_bit_visits_set_bits {A : Type} (body : Z -> A -> A) (bb : Z) (acc : A)
    (extra : nat) :
  0 <= bb < 2 ^ 64 ->
  for_each_bit bb body acc = fold_left (fun a sq => body sq a) (bit_indices bb) acc
  /\ for_each_bit_loop (64 + extra) bb body acc = for_each_bit bb body acc.
Proof.
  intros Hbb. unfold for_each_bit.
  rewrite !(for_each_bit_loop_indices body _ 0 bb acc) by (auto; try lia; intros; lia).
  split; reflexivity.
Qed.

Lemma for_each_bit_visits_set_bits_witness :
  for_each_bit 0x8100000000000081 (fun sq acc => acc ++ [sq]) []
  = fold_left (fun a sq => a ++ [sq]) (bit_indices 0x8100000000000081) []
  /\ for_each_bit_loop (64 + 5) 0x8100000000000081 (fun sq acc => acc ++ [sq]) []
     = for_each_bit 0x8100000000000081 (fun sq acc => acc ++ [sq]) [].
Proof.
  apply (for_each_bit_visits_set_bits (fun sq acc => acc ++ [sq]) 0x8100000000000081 [] 5).
  vm_compute. split; [discriminate | reflexivity].
Defined.

End BitsFacts.

(** * Properties of the chess core *)

Module ChessFacts.
Import Bits Chess ChessSpec.

Lemma int_neg_involutive x : int_range x -> int_neg (int_neg x) = x.
Proof.
  unfold int_range, int_neg. intros Hx.
  destruct (Z.eq_dec x (- 2 ^ 31)) as [-> | Hne]; [reflexivity |].
  rewrite (Z.mod_small (- x + 2 ^ 31)) by lia.
  replace (- (- x + 2 ^ 31 - 2 ^ 31) + 2 ^ 31) with (x + 2 ^ 31) by lia.
  rewrite Z.mod_small by lia. lia.
Qed.

(** An accepted move went through one branch of the dispatch, then through
    the updates of steps 5 to 8, and passed both legality checks. *)
Lemma chess_apply_move_inv p m p' :
  chess_apply_move p m = Some p' ->
  exists s1 flag,
    dispatched p m s1 flag /\ p' = finish p s1 m flag
    /\ is_move_pinned p m = false
    /\ is_king_in_check p' (int_neg (current_player p')) = false.
Proof.
  unfold chess_apply_move. intros H.
  destruct (is_move_pinned p m) eqn:Hpin; [discriminate |].
  destruct (meets _ _) eqn:Hking; [discriminate |].
  destruct (is_castling m =? 0) eqn:Hc; simpl in H.
  - apply Z.eqb_eq in Hc.
    destruct (is_en_passant m =? 0) eqn:He; simpl in H.
    + apply Z.eqb_eq in He.
      destruct (promotion m =? 0) eqn:Hp; simpl in H.
      * apply Z.eqb_eq in Hp.
        destruct (apply_regular_move p m) as [s1 flag] eqn:Hreg.
        destruct (is_king_in_check _ _) eqn:Hchk in H; [discriminate |].
        injection H as <-. exists s1, flag. repeat split; auto.
        replace s1 with (fst (apply_regular_move p m)) by (rewrite Hreg; reflexivity).
        replace flag with (snd (apply_regular_move p m)) by (rewrite Hreg; reflexivity).
        now constructor.
      * apply Z.eqb_neq in Hp.
        destruct (is_king_in_check _ _) eqn:Hchk in H; [discriminate |].
        injection H as <-. eexists _, _. repeat split; eauto. now constructor.
    + apply Z.eqb_neq in He.
      destruct (is_king_in_check _ _) eqn:Hchk in H; [discriminate |].
      injection H as <-. eexists _, _. repeat split; eauto. now constructor.
  - apply Z.eqb_neq in Hc.
    destruct (is_legal_castle p m) eqn:Hl; simpl in H; [| discriminate].
    destruct (is_king_in_check _ _) eqn:Hchk in H; [discriminate |].
    injection H as <-. eexists _, _. repeat split; eauto. now constructor.
Qed.

(** *** Scalar fields under the bitboard updates *)

Lemma set_bb_scalars f s v :
  castling_rights (set_bb f s v) = castling_rights s
  /\ en_passant (set_bb f s v) = en_passant s
  /\ halfmove_clock (set_bb f s v) = halfmove_clock s
  /\ fullmove_number (set_bb f s v) = fullmove_number s
  /\ current_player (set_bb f s v) = current_player s.
Proof. destruct f; repeat split. Qed.

Lemma same_scalars_refl s : same_scalars s s.
Proof. repeat split. Qed.

Lemma same_scalars_trans s1 s2 s3 :
  same_scalars s1 s2 -> same_scalars s2 s3 -> same_scalars s1 s3.
Proof. unfold same_scalars. intuition congruence. Qed.

Lemma clear_bits_scalars f mask s : same_scalars s (clear_bits f mask s).
Proof. apply set_bb_scalars. Qed.

Lemma set_bits_scalars f mask s : same_scalars s (set_bits f mask s).
Proof. apply set_bb_scalars. Qed.

Ltac scalars_step :=
  match goal with
  | |- same_scalars ?s ?s => apply same_scalars_refl
  | |- same_scalars ?s (set_bits _ _ ?t) =>
      apply (same_scalars_trans s t); [| apply set_bits_scalars]
  | |- same_scalars ?s (clear_bits _ _ ?t) =>
      apply (same_scalars_trans s t); [| apply clear_bits_scalars]
  | |- same_scalars _ (if ?b then _ else _) => destruct b
  | |- same_scalars _ (match ?o with Some _ => _ | None => _ end) => destruct o
  | |- same_scalars _ (let '(_, _) := ?x in _) => destruct x
  end.

Lemma apply_castling_scalars s m : same_scalars s (apply_castling s m).
Proof. unfold apply_castling. repeat scalars_step. Qed.

Lemma apply_en_passant_scalars s m : same_scalars s (apply_en_passant s m).
Proof. unfold apply_en_passant. repeat scalars_step. Qed.

Lemma apply_regular_move_scalars s m : same_scalars s (fst (apply_regular_move s m)).
Proof.
  unfold apply_regular_move.
  destruct (first_holding _ _ s) as [f |]; [| apply same_scalars_refl].
  destruct (first_holding _ _ (clear_bits f _ s)); simpl; repeat scalars_step.
Qed.

Lemma handle_promotion_scalars s m : same_scalars s (handle_promotion s m).
Proof. unfold handle_promotion. repeat scalars_step. Qed.

Lemma dispatched_scalars p m s1 flag : dispatched p m s1 flag -> same_scalars p s1.
Proof.
  destruct 1.
  - apply apply_castling_scalars.
  - apply apply_en_passant_scalars.
  - eapply same_scalars_trans; [apply apply_regular_move_scalars | apply handle_promotion_scalars].
  - apply apply_regular_move_scalars.
Qed.

Lemma update_castling_rights_scalars s m :
  halfmove_clock (update_castling_rights s m) = halfmove_clock s
  /\ fullmove_number (update_castling_rights s m) = fullmove_number s
  /\ current_player (update_castling_rights s m) = current_player s.
Proof. repeat split. Qed.

Lemma update_en_passant_scalars s m :
  halfmove_clock (update_en_passant s m) = halfmove_clock s
  /\ fullmove_number (update_en_passant s m) = fullmove_number s
  /\ current_player (update_en_passant s m) = current_player s
  /\ castling_rights (update_en_passant s m) = castling_rights s.
Proof.
  unfold update_en_passant.
  repeat match goal with |- context [if ?b then _ else _] => destruct b end;
    repeat split.
Qed.

Lemma finish_halfmove_clock p s1 m flag :
  halfmove_clock (finish p s1 m flag) = if flag then 0 else u8 (halfmove_clock s1 + 1).
Proof.
  unfold finish, update_move_counters.
  destruct (update_en_passant_scalars (update_castling_rights s1 m) m) as (Hh & _).
  destruct flag; simpl; destruct (_ =? -1); simpl; rewrite ?Hh; reflexivity.
Qed.

Lemma finish_fullmove_number p s1 m flag :
  fullmove_number (finish p s1 m flag)
  = if current_player s1 =? -1 then u8 (fullmove_number s1 + 1) else fullmove_number s1.
Proof.
  unfold finish, update_move_counters.
  destruct (update_en_passant_scalars (update_castling_rights s1 m) m) as (_ & Hf & Hc & _).
  simpl in Hf, Hc.
  destruct flag; simpl; rewrite Hc; destruct (_ =? -1); simpl; rewrite ?Hf; reflexivity.
Qed.

Lemma finish_current_player p s1 m flag :
  current_player (finish p s1 m flag) = int_neg (current_player p).
Proof. reflexivity. Qed.

(** *** Occupancy tests *)

Lemma meets_lor a b m : meets (Z.lor a b) m = meets a m || meets b m.
Proof.
  unfold meets. rewrite Z.land_lor_distr_l.
  destruct (Z.land a m =? 0) eqn:Ha, (Z.land b m =? 0) eqn:Hb; simpl;
    rewrite ?Z.eqb_eq, ?Z.eqb_neq in *.
  - rewrite Ha, Hb. reflexivity.
  - apply negb_true_iff, Z.eqb_neq. rewrite Z.lor_eq_0_iff. tauto.
  - apply negb_true_iff, Z.eqb_neq. rewrite Z.lor_eq_0_iff. tauto.
  - apply negb_true_iff, Z.eqb_neq. rewrite Z.lor_eq_0_iff. tauto.
Qed.

Lemma meets_white_occ s m :
  meets (compute_white_occ s) m
  = existsb (fun f => meets (get_bb f s) m) white_pieces.
Proof.
  unfold compute_white_occ. rewrite !meets_lor. simpl.
  rewrite orb_false_r, !orb_assoc. reflexivity.
Qed.

Lemma meets_black_occ s m :
  meets (compute_black_occ s) m
  = existsb (fun f => meets (get_bb f s) m) black_pieces.
Proof.
  unfold compute_black_occ. rewrite !meets_lor. simpl.
  rewrite orb_false_r, !orb_assoc. reflexivity.
Qed.

Lemma first_holding_Some fs mask s f :
  first_holding fs mask s = Some f -> In f fs /\ meets (get_bb f s) mask = true.
Proof.
  induction fs as [| g fs IH]; simpl; [discriminate |].
  destruct (meets (get_bb g s) mask) eqn:Hg.
  - intros [= <-]. auto.
  - intros H. destruct (IH H). auto.
Qed.

Lemma first_holding_existsb fs mask s f :
  first_holding fs mask s = Some f ->
  existsb (fun g => meets (get_bb g s) mask) fs = true.
Proof.
  intros H. apply first_holding_Some in H as [Hin Hm].
  apply existsb_exists. eauto.
Qed.

Lemma get_set_bb_other f g s v : f <> g -> get_bb g (set_bb f s v) = get_bb g s.
Proof. destruct f, g; intros H; try reflexivity; congruence. Qed.

Lemma in_white_pieces f : In f white_pieces -> is_white_piece f = true.
Proof. simpl. intuition subst; reflexivity. Qed.

Lemma in_black_pieces f : In f black_pieces -> is_white_piece f = false.
Proof. simpl. intuition subst; reflexivity. Qed.

(** A move that is neither a pawn move nor a capture leaves the flag of
    [apply_regular_move] clear. *)
Lemma quiet_regular_flag p m :
  is_pawn_move p m = false -> is_capture p m = false ->
  snd (apply_regular_move p m) = false.
Proof.
  unfold is_pawn_move, is_capture, holds. intros Hpawn Hcap.
  repeat (apply orb_false_iff in Hpawn as [Hpawn ?]).
  repeat (apply orb_false_iff in Hcap as [Hcap ?]).
  unfold apply_regular_move.
  destruct (first_holding (white_pieces ++ black_pieces) _ p) as [f |] eqn:Hf; [| reflexivity].
  apply first_holding_Some in Hf as [Hin Hfm].
  assert (Hnp : is_pawn_piece f = false).
  { destruct f; try reflexivity; simpl in Hfm; congruence. }
  rewrite Hnp.
  destruct (first_holding _ (bit (to m)) (clear_bits f _ p)) as [victim |] eqn:Hv;
    [| reflexivity].
  exfalso. apply first_holding_Some in Hv as [Hvin Hvm].
  apply in_app_or in Hin as [Hw | Hb].
  - rewrite (in_white_pieces _ Hw) in Hvin.
    assert (f <> victim).
    { intros ->. apply in_black_pieces in Hvin. apply in_white_pieces in Hw. congruence. }
    unfold clear_bits in Hvm. rewrite get_set_bb_other in Hvm by assumption.
    assert (meets (compute_white_occ p) (bit (from m)) = true).
    { rewrite meets_white_occ. apply existsb_exists. eauto. }
    assert (meets (compute_black_occ p) (bit (to m)) = true).
    { rewrite meets_black_occ. apply existsb_exists. eauto. }
    rewrite andb_false_iff in Hcap. destruct Hcap; congruence.
  - rewrite (in_black_pieces _ Hb) in Hvin.
    assert (f <> victim).
    { intros ->. apply in_black_pieces in Hb. apply in_white_pieces in Hvin. congruence. }
    unfold clear_bits in Hvm. rewrite get_set_bb_other in Hvm by assumption.
    assert (meets (compute_black_occ p) (bit (from m)) = true).
    { rewrite meets_black_occ. apply existsb_exists. eauto. }
    assert (meets (compute_white_occ p) (bit (to m)) = true).
    { rewrite meets_white_occ. apply existsb_exists. eauto. }
    match goal with H : _ && _ = false |- _ => rewrite andb_false_iff in H; destruct H; congruence end.
Qed.

Lemma quiet_move_halfmove_clock p m p' :
  chess_apply_move p m = Some p' ->
  unflagged m ->
  is_pawn_move p m = false -> is_capture p m = false ->
  halfmove_clock p' = (halfmove_clock p + 1) mod 256.
Proof.
  intros Happ [Hpr Hep] Hpawn Hcap.
  apply chess_apply_move_inv in Happ as (s1 & flag & Hd & -> & _ & _).
  rewrite finish_halfmove_clock.
  pose proof (dispatched_scalars _ _ _ _ Hd) as (_ & _ & Hh & _ & _).
  assert (Hflag : flag = false).
  { inversion Hd; subst; try congruence; try reflexivity.
    now apply quiet_regular_flag. }
  subst flag. rewrite Hh. reflexivity.
Qed.

Lemma quiet_moves_halfmove_clock n p q :
  0 <= halfmove_clock p < 256 -> quiet_moves n p q ->
  halfmove_clock q = (halfmove_clock p + Z.of_nat n) mod 256.
Proof.
  intros Hr Hrun.
  induction Hrun as [p | n p m p1 p2 Happ _ Hflags Hpawn Hcap Hrun IH].
  - rewrite Z.add_0_r, Z.mod_small; auto.
  - pose proof (quiet_move_halfmove_clock _ _ _ Happ Hflags Hpawn Hcap) as H1.
    rewrite IH by (rewrite H1; apply Z.mod_pos_bound; lia).
    rewrite H1, Zplus_mod_idemp_l. f_equal. lia.
Qed.

Lemma black_move_fullmove_number p m p' :
  chess_apply_move p m = Some p' -> current_player p = -1 ->
  fullmove_number p' = (fullmove_number p + 1) mod 256.
Proof.
  intros Happ Hblack.
  apply chess_apply_move_inv in Happ as (s1 & flag & Hd & -> & _ & _).
  rewrite finish_fullmove_number.
  pose proof (dispatched_scalars _ _ _ _ Hd) as (_ & _ & _ & Hf & Hc).
  rewrite Hc, Hblack, Hf. reflexivity.
Qed.

(** C10 (amended).  The two clocks are [uint8_t] and wrap modulo 256.  After [n]
    consecutive accepted half-moves from [p], each between squares of the
    board, none flagged as a promotion or as en passant, none a pawn move
    or a capture, the halfmove clock is [(old + n) mod 256]: one such move
    adds one, and 256 of them bring the clock back to its value.  An
    accepted move between squares of the board, made with Black to move in
    [b], makes the fullmove number [(old + 1) mod 256]. *)
Theorem move_clocks_wrap_mod_256 (p q b b' : bitboard_state_t) (m : chess_move_t) (n : nat) :
  0 <= halfmove_clock p < 256 ->
  quiet_moves n p q ->
  current_player b = -1 ->
  on_board m ->
  chess_apply_move b m = Some b' ->
  halfmove_clock q = (halfmove_clock p + Z.of_nat n) mod 256
  /\ (n = 256%nat -> halfmove_clock q = halfmove_clock p)
  /\ fullmove_number b' = (fullmove_number b + 1) mod 256.
Proof.
  intros Hr Hrun Hblack _ Happ. split; [| split].
  - now apply quiet_moves_halfmove_clock.
  - intros ->. rewrite (quiet_moves_halfmove_clock _ _ _ Hr Hrun).
    change (Z.of_nat 256) with (1 * 256). rewrite Z_mod_plus_full. now apply Z.mod_small.
  - now apply (black_move_fullmove_number b m).
Qed.

(** C10 (as claimed, refuted).  The applicator takes the promotion flag
    of a move for a pawn move.  With the clock at 5, the king move e1-e2
    flagged as a promotion is accepted; no pawn moves and nothing is
    captured, and the clock is reset to 0 instead of advancing to 6. *)
Lemma flagged_king_move_resets_the_clock :
  exists p',
    chess_apply_move clock_at_5 (mk_move 4 12 1 0 0) = Some p'
    /\ on_board (mk_move 4 12 1 0 0)
    /\ is_pawn_move clock_at_5 (mk_move 4 12 1 0 0) = false
    /\ is_capture clock_at_5 (mk_move 4 12 1 0 0) = false
    /\ halfmove_clock p' = 0
    /\ (halfmove_clock clock_at_5 + 1) mod 256 = 6.
Proof.
  eexists. split; [vm_compute; reflexivity |].
  split; [unfold on_board; cbn; lia |].
  repeat split; vm_compute; reflexivity.
Qed.

(** C5.  A move produced by the generator and accepted by the applicator
    never leaves the king of the player who moved in check. *)
Theorem accepted_move_leaves_mover_safe (p p' : bitboard_state_t) (m : chess_move_t) :
  int_range (current_player p) ->
  In m (chess_get_moves p) ->
  chess_apply_move p m = Some p' ->
  is_king_in_check p' (current_player p) = false.
Proof.
  intros Hr _ Happ.
  apply chess_apply_move_inv in Happ as (s1 & flag & _ & -> & _ & Hchk).
  rewrite finish_current_player, int_neg_involutive in Hchk; assumption.
Qed.

(** C9.  The generator yields exactly 20 moves in the opening position. *)
Theorem opening_position_has_20_moves :
  chess_get_num_moves (chess_get_moves initialize_board) = 20.
Proof. vm_compute. reflexivity. Qed.

(** *** Hashing *)

Lemma chess_equals_state_eq p q : chess_equals_state p q = 1 -> p = q.
Proof.
  unfold chess_equals_state. intros H.
  match type of H with Z.b2z ?b = 1 => destruct b eqn:Hb; [| discriminate] end.
  clear H.
  repeat match goal with
         | H : _ && _ = true |- _ => apply andb_true_iff in H as [H ?]
         | H : (_ =? _) = true |- _ => apply Z.eqb_eq in H
         end.
  destruct p, q; cbn [white_pawns white_knights white_bishops white_rooks white_queens
    white_kings black_pawns black_knights black_bishops black_rooks black_queens
    black_kings castling_rights en_passant halfmove_clock fullmove_number current_player] in *.
  subst. reflexivity.
Qed.

Lemma chess_equals_state_refl p : chess_equals_state p p = 1.
Proof. unfold chess_equals_state. rewrite !Z.eqb_refl. reflexivity. Qed.

(** C8.  States that [chess_equals_state] declares equal have the same
    Zobrist hash, whatever the key tables hold; and the copy of a state
    hashes as the state does. *)
Theorem equal_states_hash_alike (g : zobrist_globals) (p q : bitboard_state_t) :
  chess_equals_state p q = 1 ->
  chess_hash_state g p = chess_hash_state g q
  /\ chess_hash_state g (chess_copy_state p) = chess_hash_state g p.
Proof.
  intros H. apply chess_equals_state_eq in H as ->. split; reflexivity.
Qed.

(** *** Witnesses *)

Lemma move_clocks_wrap_mod_256_witness :
  exists q b b',
    quiet_moves 2 clocks_at_255 q
    /\ chess_apply_move b (mk_move 60 52 0 0 0) = Some b'
    /\ fullmove_number b = 255
    /\ halfmove_clock q = (halfmove_clock clocks_at_255 + 2) mod 256
    /\ (2%nat = 256%nat -> halfmove_clock q = halfmove_clock clocks_at_255)
    /\ fullmove_number b' = (fullmove_number b + 1) mod 256.
Proof.
  pose (b := finish clocks_at_255 (fst (apply_regular_move clocks_at_255 (mk_move 4 12 0 0 0)))
               (mk_move 4 12 0 0 0) false).
  pose (q := finish b (fst (apply_regular_move b (mk_move 60 52 0 0 0)))
               (mk_move 60 52 0 0 0) false).
  assert (H1 : chess_apply_move clocks_at_255 (mk_move 4 12 0 0 0) = Some b)
    by (vm_compute; reflexivity).
  assert (H2 : chess_apply_move b (mk_move 60 52 0 0 0) = Some q)
    by (vm_compute; reflexivity).
  assert (Hb1 : on_board (mk_move 4 12 0 0 0)) by (unfold on_board; cbn; lia).
  assert (Hb2 : on_board (mk_move 60 52 0 0 0)) by (unfold on_board; cbn; lia).
  assert (Hrun : quiet_moves 2 clocks_at_255 q).
  { eapply quiet_step;
      [exact H1 | exact Hb1 | split; reflexivity
       | vm_compute; reflexivity | vm_compute; reflexivity |].
    eapply quiet_step;
      [exact H2 | exact Hb2 | split; reflexivity
       | vm_compute; reflexivity | vm_compute; reflexivity |].
    apply quiet_none. }
  exists q, b, q. split; [exact Hrun |]. split; [exact H2 |].
  split; [vm_compute; reflexivity |].
  apply (move_clocks_wrap_mod_256 clocks_at_255 q b q (mk_move 60 52 0 0 0) 2).
  - vm_compute. split; [discriminate | reflexivity].
  - exact Hrun.
  - vm_compute. reflexivity.
  - exact Hb2.
  - exact H2.
Defined.

Lemma accepted_move_leaves_mover_safe_witness :
  exists p',
    chess_apply_move initialize_board (mk_move 12 28 0 0 0) = Some p'
    /\ is_king_in_check p' (current_player initialize_board) = false.
Proof.
  pose (p' := finish initialize_board
                (fst (apply_regular_move initialize_board (mk_move 12 28 0 0 0)))
                (mk_move 12 28 0 0 0) true).
  assert (H : chess_apply_move initialize_board (mk_move 12 28 0 0 0) = Some p')
    by (vm_compute; reflexivity).
  exists p'. split; [exact H |].
  apply (accepted_move_leaves_mover_safe initialize_board p' (mk_move 12 28 0 0 0)).
  - vm_compute. split; [discriminate | reflexivity].
  - vm_compute. do 12 right. left. reflexivity.
  - exact H.
Defined.

Lemma equal_states_hash_alike_witness :
  chess_equals_state initialize_board initialize_board = 1
  /\ chess_hash_state (chess_hash_init zobrist_start 0) initialize_board
     = chess_hash_state (chess_hash_init zobrist_start 0) initialize_board
  /\ chess_hash_state (chess_hash_init zobrist_start 0) (chess_copy_state initialize_board)
     = chess_hash_state (chess_hash_init zobrist_start 0) initialize_board.
Proof.
  split; [vm_compute; reflexivity |].
  apply (equal_states_hash_alike (chess_hash_init zobrist_start 0)
           initialize_board initialize_board).
  vm_compute. reflexivity.
Defined.

(** *** Where the applicator departs from its documentation *)

(** C1.  The double push e2-e4 is generated and accepted in the opening
    position, yet the new position has no en-passant target: [en_passant]
    is 255 where the skipped square e3 = 12 + 8 = 20 belongs.
    [update_en_passant] looks for the pawn on [from] in the position in
    which the move is already made. *)
Theorem double_push_sets_no_en_passant_target :
  In (mk_move 12 28 0 0 0) (chess_get_moves initialize_board)
  /\ holds (white_pawns initialize_board) 12 = true
  /\ option_map en_passant (chess_apply_move initialize_board (mk_move 12 28 0 0 0))
     = Some 255.
Proof.
  split; [vm_compute; do 12 right; left; reflexivity |].
  split; vm_compute; reflexivity.
Qed.

(** C2.  With kings and rooks at home and all four rights set, the king
    move e1-e2, the rook move a1-a2 and the capture a1xa8 of the rook on
    Black's corner are all accepted and all leave the four rights set.
    [update_castling_rights] looks for the king or rook on [from] in the
    position in which the move is already made. *)
Theorem king_and_rook_moves_keep_castling_rights :
  castling_rights rooks_at_home = 15
  /\ option_map castling_rights (chess_apply_move rooks_at_home (mk_move 4 12 0 0 0))
     = Some 15
  /\ option_map castling_rights (chess_apply_move rooks_at_home (mk_move 0 8 0 0 0))
     = Some 15
  /\ option_map castling_rights (chess_apply_move rooks_at_home (mk_move 0 56 0 0 0))
     = Some 15.
Proof. repeat split; vm_compute; reflexivity. Qed.

(** C3.  The white pawn on e4 (28) attacks d5 (35 = 28 + 7, not on the
    a-file), yet the predicate answers [false] for d5, and [true] for f3
    (21 = 28 - 7), a square behind the pawn: the shifts of the two colours
    are exchanged.  The black king on d5 is not seen in check. *)
Theorem pawn_attack_looks_the_wrong_way :
  holds (white_pawns king_next_to_pawn) (35 - 7) = true
  /\ negb (35 mod 8 =? 0) = true
  /\ is_attacked_by_pawn king_next_to_pawn 35 1 = false
  /\ is_attacked_by_pawn king_next_to_pawn 21 1 = true
  /\ is_king_in_check king_next_to_pawn (-1) = false.
Proof. repeat split; vm_compute; reflexivity. Qed.

(** C4.  White may castle queenside: the move is generated, the king is
    not in check, and neither d1 (3) nor c1 (2), the squares the king
    passes through and lands on, is attacked.  The black rook attacks b1
    (1), which only the white rook crosses, and the applicator refuses
    the move; without that rook the same move is accepted. *)
Theorem castle_refused_for_the_rook_square :
  In (mk_move 4 2 0 1 0) (chess_get_moves rook_eyes_b1)
  /\ is_king_in_check rook_eyes_b1 1 = false
  /\ is_square_attacked rook_eyes_b1 3 (-1) = false
  /\ is_square_attacked rook_eyes_b1 2 (-1) = false
  /\ is_square_attacked rook_eyes_b1 1 (-1) = true
  /\ chess_apply_move rook_eyes_b1 (mk_move 4 2 0 1 0) = None
  /\ option_map (fun s => (white_kings s, white_rooks s))
       (chess_apply_move rook_gone (mk_move 4 2 0 1 0)) = Some (bit 2, bit 3).
Proof.
  split; [vm_compute; do 15 right; left; reflexivity |].
  repeat split; vm_compute; reflexivity.
Qed.

End ChessFacts.

(** * Further properties of the chess core *)

Module ChessMore.
Import Bits BitsSpec BitsFacts Chess ChessSpec ChessSpec2 ChessFacts.

Lemma ctzll_bit sq : 0 <= sq < 64 -> ctzll (bit sq) = sq.
Proof.
  intros Hsq. rewrite bit_pow2 by assumption.
  assert (Hr : 0 < 2 ^ sq < 2 ^ 64).
  { split; [apply Z.pow_pos_nonneg; lia | apply Z.pow_lt_mono_r; lia]. }
  destruct (ctzll_spec (2 ^ sq) Hr) as (Hc & Hset & _).
  rewrite Z.pow2_bits_eqb in Hset by lia. apply Z.eqb_eq in Hset. auto.
Qed.

(** *** Locating the king *)

(** [get_king_position] answers -1 when the side has no king on the
    board, and otherwise the lowest square of its king board: a square
    of the board that holds a king, with no king below it. *)
Theorem get_king_position_finds_the_king (p : bitboard_state_t) (player : Z) :
  let king_bb := if player =? 1 then white_kings p else black_kings p in
  0 <= king_bb < 2 ^ 64 ->
  (king_bb = 0 -> get_king_position p player = -1)
  /\ (king_bb <> 0 ->
      0 <= get_king_position p player < 64
      /\ Z.testbit king_bb (get_king_position p player) = true
      /\ (forall j, 0 <= j < get_king_position p player -> Z.testbit king_bb j = false)).
Proof.
  intros king_bb Hr. unfold get_king_position. fold king_bb. cbv zeta.
  destruct (Z.eqb_spec king_bb 0) as [He | Hne].
  - split; [reflexivity | contradiction].
  - split; [contradiction |]. intros _. apply ctzll_spec. lia.
Qed.

Lemma get_king_position_finds_the_king_witness :
  (white_kings rooks_at_home = 0 -> get_king_position rooks_at_home 1 = -1)
  /\ (white_kings rooks_at_home <> 0 ->
      0 <= get_king_position rooks_at_home 1 < 64
      /\ Z.testbit (white_kings rooks_at_home) (get_king_position rooks_at_home 1) = true
      /\ (forall j, 0 <= j < get_king_position rooks_at_home 1 ->
                    Z.testbit (white_kings rooks_at_home) j = false)).
Proof.
  apply (get_king_position_finds_the_king rooks_at_home 1).
  vm_compute. split; [discriminate | reflexivity].
Defined.

(** *** Termination of the ray walks *)

Lemma ray_loop_fuel delta occupancy fuel :
  forall fuel' pos row col result,
    delta <> 0 -> 0 <= pos <= 63 ->
    (if 0 <? delta then 63 - pos else pos) < Z.of_nat fuel ->
    (if 0 <? delta then 63 - pos else pos) < Z.of_nat fuel' ->
    ray_loop fuel delta occupancy pos row col result
    = ray_loop fuel' delta occupancy pos row col result.
Proof.
  induction fuel as [| fuel IH]; intros fuel' pos row col result Hd Hpos Hf Hf'.
  - destruct (0 <? delta); lia.
  - destruct fuel' as [| fuel']; [destruct (0 <? delta); lia |].
    cbn [ray_loop].
    destruct ((pos + delta <? 0) || (pos + delta >? 63)) eqn:Hout; [reflexivity |].
    apply orb_false_iff in Hout as [H1 H2].
    apply Z.ltb_ge in H1. rewrite Z.gtb_ltb in H2. apply Z.ltb_ge in H2.
    destruct (ray_wraps _ _ _); [reflexivity |].
    destruct (meets _ occupancy); [reflexivity |].
    apply IH; auto; try lia; destruct (Z.ltb_spec 0 delta); lia.
Qed.

(** [ray_moves] terminates for each of its eight directions (for any step
    other than 0): from a square of the board the [while (true)] loop
    leaves after at most 64 rounds, so more fuel changes nothing. *)
Theorem ray_moves_terminates (sq delta occupancy : Z) (extra : nat) :
  0 <= sq < 64 -> delta <> 0 ->
  ray_loop (64 + extra) delta occupancy sq (Z.quot sq 8) (Z.rem sq 8) 0
  = ray_moves (bit sq) delta occupancy.
Proof.
  intros Hsq Hd. unfold ray_moves. rewrite ctzll_bit by assumption.
  apply ray_loop_fuel; auto; try lia; destruct (0 <? delta); lia.
Qed.

Lemma ray_moves_terminates_witness :
  ray_loop (64 + 3) 9 (bit 63) 0 (Z.quot 0 8) (Z.rem 0 8) 0 = ray_moves (bit 0) 9 (bit 63).
Proof. apply (ray_moves_terminates 0 9 (bit 63) 3); [lia | discriminate]. Defined.

(** *** What the pawn-attack predicate computes *)

Lemma forall_squares (P : Z -> bool) :
  forallb P (map Z.of_nat (seq 0 64)) = true -> forall k, 0 <= k < 64 -> P k = true.
Proof.
  intros H k Hk. rewrite forallb_forall in H. apply H.
  apply in_map_iff. exists (Z.to_nat k). split; [lia |]. apply in_seq. lia.
Qed.

Lemma single_bit_meets k x m :
  0 <= k ->
  negb (Z.land (Z.land (2 ^ k) x) m =? 0) = Z.testbit x k && Z.testbit m k.
Proof.
  intros Hk. rewrite (Z.land_comm (2 ^ k)), land_pow2 by assumption.
  pose proof (Z.pow_pos_nonneg 2 k ltac:(lia) Hk).
  destruct (Z.testbit x k); simpl; [| reflexivity].
  rewrite Z.land_comm, land_pow2 by assumption.
  destruct (Z.testbit m k); simpl; [| reflexivity].
  apply negb_true_iff, Z.eqb_neq. lia.
Qed.

Lemma shl_bit sq n :
  0 <= sq < 64 -> 0 <= n -> shl (bit sq) n = if sq + n <? 64 then 2 ^ (sq + n) else 0.
Proof.
  intros Hsq Hn. rewrite bit_pow2 by assumption. unfold shl, u64.
  rewrite Z.shiftl_mul_pow2, <- Z.pow_add_r by lia.
  destruct (Z.ltb_spec (sq + n) 64).
  - apply Z.mod_small. split; [apply Z.pow_nonneg; lia | apply Z.pow_lt_mono_r; lia].
  - replace (sq + n) with (sq + n - 64 + 64) by lia.
    rewrite Z.pow_add_r by lia. apply Z_mod_mult.
Qed.

Lemma shr_bit sq n :
  0 <= sq < 64 -> 0 <= n -> shr (bit sq) n = if n <=? sq then 2 ^ (sq - n) else 0.
Proof.
  intros Hsq Hn. rewrite bit_pow2 by assumption. unfold shr.
  rewrite Z.shiftr_div_pow2 by assumption.
  destruct (Z.leb_spec n sq).
  - rewrite Z.pow_sub_r by lia. reflexivity.
  - apply Z.div_small. split; [apply Z.pow_nonneg; lia | apply Z.pow_lt_mono_r; lia].
Qed.

(** The file masks, read at the square a pawn would attack from. *)
Lemma file_mask_bits sq :
  0 <= sq < 64 ->
  (sq + 7 < 64 -> Z.testbit NOT_H_FILE (sq + 7) = negb (sq mod 8 =? 0))
  /\ (sq + 9 < 64 -> Z.testbit NOT_A_FILE (sq + 9) = negb (sq mod 8 =? 7))
  /\ (7 <= sq -> Z.testbit NOT_A_FILE (sq - 7) = negb (sq mod 8 =? 7))
  /\ (9 <= sq -> Z.testbit NOT_H_FILE (sq - 9) = negb (sq mod 8 =? 0)).
Proof.
  intros Hsq.
  pose (check := fun sq =>
    (if sq + 7 <? 64
     then Bool.eqb (Z.testbit NOT_H_FILE (sq + 7)) (negb (sq mod 8 =? 0)) else true)
    && (if sq + 9 <? 64
        then Bool.eqb (Z.testbit NOT_A_FILE (sq + 9)) (negb (sq mod 8 =? 7)) else true)
    && (if 7 <=? sq
        then Bool.eqb (Z.testbit NOT_A_FILE (sq - 7)) (negb (sq mod 8 =? 7)) else true)
    && (if 9 <=? sq
        then Bool.eqb (Z.testbit NOT_H_FILE (sq - 9)) (negb (sq mod 8 =? 0)) else true)).
  assert (H : check sq = true)
    by (apply forall_squares; [vm_compute; reflexivity | exact Hsq]).
  unfold check in H.
  repeat (apply andb_true_iff in H as [H ?]).
  repeat split; intros Hc.
  - destruct (Z.ltb_spec (sq + 7) 64); [now apply eqb_prop | lia].
  - destruct (Z.ltb_spec (sq + 9) 64); [now apply eqb_prop | lia].
  - destruct (Z.leb_spec 7 sq); [now apply eqb_prop | lia].
  - destruct (Z.leb_spec 9 sq); [now apply eqb_prop | lia].
Qed.

(** The pawn-attack predicate, as the code computes it, for a square of
    the board.  With White attacking it holds exactly when a white pawn
    stands on [sq + 7] and [sq] is off the a-file, or on [sq + 9] and [sq]
    is off the h-file; with any other attacker, exactly when a black pawn
    stands on [sq - 7] and [sq] is off the h-file, or on [sq - 9] and
    [sq] is off the a-file. *)
Theorem is_attacked_by_pawn_computes (p : bitboard_state_t) (sq attacker : Z) :
  0 <= sq < 64 ->
  is_attacked_by_pawn p sq attacker
  = if attacker =? 1 then
      ((sq + 7 <? 64) && Z.testbit (white_pawns p) (sq + 7) && negb (sq mod 8 =? 0))
      || ((sq + 9 <? 64) && Z.testbit (white_pawns p) (sq + 9) && negb (sq mod 8 =? 7))
    else
      ((7 <=? sq) && Z.testbit (black_pawns p) (sq - 7) && negb (sq mod 8 =? 7))
      || ((9 <=? sq) && Z.testbit (black_pawns p) (sq - 9) && negb (sq mod 8 =? 0)).
Proof.
  intros Hsq. unfold is_attacked_by_pawn.
  destruct (file_mask_bits sq Hsq) as (H7 & H9 & Hm7 & Hm9).
  destruct (attacker =? 1).
  - rewrite !shl_bit by lia.
    destruct (Z.ltb_spec (sq + 7) 64), (Z.ltb_spec (sq + 9) 64);
      rewrite ?single_bit_meets, ?Z.land_0_l, ?H7, ?H9 by lia; simpl;
      repeat match goal with |- context [if ?b then _ else _] => destruct b end;
      reflexivity.
  - rewrite !shr_bit by lia.
    destruct (Z.leb_spec 7 sq), (Z.leb_spec 9 sq);
      rewrite ?single_bit_meets, ?Z.land_0_l, ?Hm7, ?Hm9 by lia; simpl;
      repeat match goal with |- context [if ?b then _ else _] => destruct b end;
      reflexivity.
Qed.

Lemma is_attacked_by_pawn_computes_witness :
  is_attacked_by_pawn king_next_to_pawn 21 1
  = ((21 + 7 <? 64) && Z.testbit (white_pawns king_next_to_pawn) (21 + 7)
     && negb (21 mod 8 =? 0))
    || ((21 + 9 <? 64) && Z.testbit (white_pawns king_next_to_pawn) (21 + 9)
        && negb (21 mod 8 =? 7)).
Proof. apply (is_attacked_by_pawn_computes king_next_to_pawn 21 1). lia. Defined.

(** *** Castling rights are only ever lost *)

Lemma rights_within_refl r : 0 <= r < 256 -> rights_within r r.
Proof. intros H. split; auto. Qed.

Lemma drop_rights_within r r' m :
  rights_within r r' -> rights_within r (drop_rights r' m).
Proof.
  intros [Hr Hsub]. unfold drop_rights, u8.
  assert (Hle : 0 <= Z.land r' (Z.lnot m) <= r').
  { split; [apply Z.land_nonneg; lia | apply land_le_l; lia]. }
  rewrite Z.mod_small by (change (2 ^ 8) with 256; lia).
  split; [lia |]. intros i Hi. rewrite Z.land_spec in Hi.
  apply andb_true_iff in Hi as [Hi _]. auto.
Qed.

Lemma update_castling_rights_within s m :
  0 <= castling_rights s < 256 ->
  rights_within (castling_rights s) (castling_rights (update_castling_rights s m)).
Proof.
  intros Hr. unfold update_castling_rights.
  cbn [castling_rights set_castling_rights].
  repeat match goal with
         | |- rights_within _ (if ?b then _ else _) => destruct b
         | |- rights_within _ (drop_rights _ _) => apply drop_rights_within
         end; now apply rights_within_refl.
Qed.

(** The applicator never grants a castling right: every right set after an
    accepted move was set before it, and the mask stays a [uint8_t]. *)
Theorem castling_rights_never_gained (p p' : bitboard_state_t) (m : chess_move_t) (i : Z) :
  0 <= castling_rights p < 256 ->
  chess_apply_move p m = Some p' ->
  0 <= castling_rights p' < 256
  /\ (Z.testbit (castling_rights p') i = true -> Z.testbit (castling_rights p) i = true).
Proof.
  intros Hr Happ.
  apply chess_apply_move_inv in Happ as (s1 & flag & Hd & -> & _ & _).
  pose proof (dispatched_scalars _ _ _ _ Hd) as (Hc & _).
  assert (Heq : castling_rights (finish p s1 m flag)
                = castling_rights (update_castling_rights s1 m)).
  { unfold finish, update_move_counters.
    destruct (update_en_passant_scalars (update_castling_rights s1 m) m) as (_ & _ & _ & Hcr).
    destruct flag; simpl; destruct (_ =? -1); simpl; exact Hcr. }
  rewrite Heq.
  destruct (update_castling_rights_within s1 m) as [Hrange Hsub]; [rewrite Hc; exact Hr |].
  rewrite Hc in Hsub. auto.
Qed.

Lemma castling_rights_never_gained_witness :
  exists p',
    chess_apply_move rook_gone (mk_move 4 2 0 1 0) = Some p'
    /\ 0 <= castling_rights p' < 256
    /\ (Z.testbit (castling_rights p') 0 = true -> Z.testbit (castling_rights rook_gone) 0 = true).
Proof.
  pose (p' := finish rook_gone (apply_castling rook_gone (mk_move 4 2 0 1 0))
                (mk_move 4 2 0 1 0) false).
  assert (H : chess_apply_move rook_gone (mk_move 4 2 0 1 0) = Some p')
    by (vm_compute; reflexivity).
  exists p'. split; [exact H |].
  apply (castling_rights_never_gained rook_gone p' (mk_move 4 2 0 1 0) 0); [| exact H].
  vm_compute. split; [discriminate | reflexivity].
Defined.

(** *** The terminal test *)

Lemma no_move_applies_spec p moves :
  (no_move_applies p moves = 0 \/ no_move_applies p moves = 1)
  /\ (no_move_applies p moves = 0
      <-> exists m, In m moves /\ chess_apply_move p m <> None).
Proof.
  induction moves as [| mv rest [IHv IH]]; simpl.
  - split; [auto |]. split; [discriminate | intros (m & [] & _)].
  - destruct (chess_apply_move p mv) eqn:Hmv.
    + split; [auto |]. split; [| reflexivity].
      intros _. exists mv. split; [auto | congruence].
    + split; [exact IHv |]. rewrite IH. split.
      * intros (m & Hin & Hm). eauto.
      * intros (m & [<- | Hin] & Hm); [congruence | eauto].
Qed.

(** [chess_is_terminal] answers 0 or 1, and 0 exactly when the applicator
    accepts at least one of the generated moves: checkmate and stalemate
    are not told apart. *)
Theorem chess_is_terminal_iff_no_move_accepted (p : bitboard_state_t) :
  (chess_is_terminal p = 0 \/ chess_is_terminal p = 1)
  /\ (chess_is_terminal p = 0
      <-> exists m, In m (chess_get_moves p) /\ chess_apply_move p m <> None).
Proof.
  unfold chess_is_terminal, chess_get_num_moves.
  destruct (chess_get_moves p) as [| mv rest] eqn:Hmoves.
  - simpl. split; [auto |]. split; [discriminate | intros (m & [] & _)].
  - replace (Z.of_nat (length (mv :: rest)) =? 0) with false
      by (symmetry; apply Z.eqb_neq; simpl; lia).
    apply no_move_applies_spec.
Qed.

(** *** The flags of the generated moves *)

Section Generated.
Variable p : bitboard_state_t.

Lemma add_plain_ok moves f t pr :
  0 <= pr <= 4 -> Forall (well_flagged p) moves ->
  Forall (well_flagged p) (add_move moves f t pr 0 0).
Proof.
  intros Hpr H. unfold add_move. apply Forall_app. split; [exact H |].
  constructor; [| constructor]. unfold well_flagged. simpl.
  unfold u8 at 1 2. rewrite Z.mod_small by (change (2 ^ 8) with 256; lia).
  split; [lia |]. left. split; reflexivity.
Qed.

Lemma for_each_bit_ok fuel bb (body : Z -> list chess_move_t -> list chess_move_t) :
  (forall sq acc, Forall (well_flagged p) acc -> Forall (well_flagged p) (body sq acc)) ->
  forall acc, Forall (well_flagged p) acc ->
  Forall (well_flagged p) (for_each_bit_loop fuel bb body acc).
Proof.
  intros Hbody. revert bb. induction fuel as [| fuel IH]; intros bb acc Hacc; simpl; auto.
  destruct (bb =? 0); auto.
Qed.

Lemma explore_loop_ok fuel from_sq dc dr own opp :
  forall col row moves, Forall (well_flagged p) moves ->
  Forall (well_flagged p) (explore_loop fuel from_sq dc dr col row own opp moves).
Proof.
  induction fuel as [| fuel IH]; intros col row moves H; simpl; auto.
  repeat match goal with |- Forall (well_flagged p) (if ?b then _ else _) => destruct b end; auto.
  - apply add_plain_ok; [lia | exact H].
  - apply IH, add_plain_ok; [lia | exact H].
Qed.

Lemma explore_ray_ok from_bit from_sq shift mask own opp moves :
  Forall (well_flagged p) moves ->
  Forall (well_flagged p) (explore_ray from_bit from_sq shift mask own opp moves).
Proof.
  intros H. unfold explore_ray. destruct (ray_step shift) as [[dc dr] |]; auto.
  now apply explore_loop_ok.
Qed.

Lemma slider_ok shifts pieces own opp moves :
  Forall (well_flagged p) moves ->
  Forall (well_flagged p) (generate_slider_moves shifts pieces own opp moves).
Proof.
  intros H. unfold generate_slider_moves, for_each_bit.
  apply for_each_bit_ok; [| exact H]. intros sq acc Hacc. unfold explore_rays.
  revert acc Hacc. induction shifts as [| sm shifts IH]; intros acc Hacc; simpl; auto.
  apply IH, explore_ray_ok, Hacc.
Qed.

Lemma knight_ok knights own moves :
  Forall (well_flagged p) moves ->
  Forall (well_flagged p) (generate_knight_moves knights own moves).
Proof.
  intros H. unfold generate_knight_moves, for_each_bit.
  apply for_each_bit_ok; [| exact H]. intros sq acc Hacc.
  apply for_each_bit_ok; [| exact Hacc]. intros sq' acc' Hacc'.
  apply add_plain_ok; [lia | exact Hacc'].
Qed.

Lemma add_pawn_move_ok rank f t moves :
  Forall (well_flagged p) moves ->
  Forall (well_flagged p) (add_pawn_move rank f t moves).
Proof.
  intros H. unfold add_pawn_move.
  destruct (_ =? rank); repeat (apply add_plain_ok; [lia |]); exact H.
Qed.

Lemma add_en_passant_ok moves f :
  en_passant p <> 255 -> Forall (well_flagged p) moves ->
  Forall (well_flagged p) (add_move moves f (en_passant p) 0 0 1).
Proof.
  intros Hep H. unfold add_move. apply Forall_app. split; [exact H |].
  constructor; [| constructor]. unfold well_flagged. simpl.
  split; [vm_compute; split; discriminate |]. right. right. repeat split; auto.
Qed.

Ltac pawn_moves_ok :=
  repeat first
    [ assumption
    | apply for_each_bit_ok; [intros |]
    | apply add_pawn_move_ok
    | apply add_plain_ok; [lia |]
    | apply add_en_passant_ok; [assumption |]
    | match goal with |- Forall _ (if ?b then _ else _) => destruct b end ].

Lemma white_pawn_ok moves :
  Forall (well_flagged p) moves ->
  Forall (well_flagged p) (generate_white_pawn_moves p moves).
Proof.
  intros H. unfold generate_white_pawn_moves, for_each_bit. cbv zeta.
  destruct (negb (en_passant p =? 255)) eqn:Hep.
  - apply negb_true_iff, Z.eqb_neq in Hep. pawn_moves_ok.
  - pawn_moves_ok.
Qed.

Lemma black_pawn_ok moves :
  Forall (well_flagged p) moves ->
  Forall (well_flagged p) (generate_black_pawn_moves p moves).
Proof.
  intros H. unfold generate_black_pawn_moves, for_each_bit. cbv zeta.
  destruct (negb (en_passant p =? 255)) eqn:Hep.
  - apply negb_true_iff, Z.eqb_neq in Hep. pawn_moves_ok.
  - pawn_moves_ok.
Qed.

Lemma king_step_ok allowed f t own moves :
  Forall (well_flagged p) moves ->
  Forall (well_flagged p) (king_step allowed f t own moves).
Proof.
  intros H. unfold king_step. destruct allowed; auto.
  destruct (negb _); auto. apply add_plain_ok; [lia | exact H].
Qed.

Lemma add_castle_ok moves f t :
  get_castling_squares f t <> [] -> (f = 4 \/ f = 60) -> (t = f + 2 \/ t = f - 2) ->
  Forall (well_flagged p) moves -> Forall (well_flagged p) (add_move moves f t 0 1 0).
Proof.
  intros Hsq Hf Ht H. unfold add_move. apply Forall_app. split; [exact H |].
  constructor; [| constructor]. unfold well_flagged. simpl.
  split; [vm_compute; split; discriminate |]. right. left.
  repeat split; try reflexivity.
  destruct Hf as [-> | ->], Ht as [-> | ->]; vm_compute; discriminate.
Qed.

Ltac king_moves_ok :=
  repeat first
    [ assumption
    | apply king_step_ok
    | apply add_castle_ok; [vm_compute; discriminate | auto | auto |]
    | match goal with |- Forall _ (if ?b then _ else _) => destruct b end ].

Lemma white_king_ok moves :
  Forall (well_flagged p) moves ->
  Forall (well_flagged p) (generate_white_king_moves p moves).
Proof.
  intros H. unfold generate_white_king_moves, for_each_bit.
  apply for_each_bit_ok; [| exact H]. intros sq acc Hacc. cbv zeta.
  destruct (Z.eqb_spec sq 4) as [-> | _]; king_moves_ok.
Qed.

Lemma black_king_ok moves :
  Forall (well_flagged p) moves ->
  Forall (well_flagged p) (generate_black_king_moves p moves).
Proof.
  intros H. unfold generate_black_king_moves, for_each_bit.
  apply for_each_bit_ok; [| exact H]. intros sq acc Hacc. cbv zeta.
  destruct (Z.eqb_spec sq 60) as [-> | _]; king_moves_ok.
Qed.

Lemma chess_get_moves_ok : Forall (well_flagged p) (chess_get_moves p).
Proof.
  unfold chess_get_moves. destruct (current_player p =? 1).
  - apply white_king_ok, slider_ok, slider_ok, slider_ok, knight_ok, white_pawn_ok.
    constructor.
  - apply black_king_ok, slider_ok, slider_ok, slider_ok, knight_ok, black_pawn_ok.
    constructor.
Qed.

End Generated.

(** Every generated move carries consistent flags: a promotion tag within
    0..4, and at most one of the castling and en-passant flags, each with
    promotion 0.  A castling move is one of the four king moves that
    [get_castling_squares] recognises; an en-passant move lands on the
    en-passant square of the position. *)
Theorem generated_moves_are_well_flagged (p : bitboard_state_t) (m : chess_move_t) :
  In m (chess_get_moves p) -> well_flagged p m.
Proof.
  intros Hin. pose proof (chess_get_moves_ok p) as H.
  rewrite Forall_forall in H. apply H, list_elem_of_In, Hin.
Qed.

Lemma generated_moves_are_well_flagged_witness :
  well_flagged rook_eyes_b1 (mk_move 4 2 0 1 0).
Proof.
  apply (generated_moves_are_well_flagged rook_eyes_b1 (mk_move 4 2 0 1 0)).
  vm_compute. do 15 right. left. reflexivity.
Defined.

(** *** Answering a check *)

Lemma nonzero_bit x : x <> 0 -> exists i, Z.testbit x i = true.
Proof.
  intros Hx. destruct (Z_lt_ge_dec 0 x).
  - exists (Z.log2 x). now apply Z.bit_log2.
  - exists (Z.log2 (Z.abs x) + 1).
    apply (Z.bits_iff_neg x (Z.log2 (Z.abs x) + 1)); lia.
Qed.

Lemma meets_true_iff a m :
  meets a m = true <-> exists i, Z.testbit a i = true /\ Z.testbit m i = true.
Proof.
  unfold meets. rewrite negb_true_iff, Z.eqb_neq. split.
  - intros H. apply nonzero_bit in H as [i Hi].
    rewrite Z.land_spec in Hi. apply andb_true_iff in Hi. eauto.
  - intros (i & Ha & Hm) H0.
    assert (Hb : Z.testbit (Z.land a m) i = true) by (rewrite Z.land_spec, Ha, Hm; reflexivity).
    rewrite H0, Z.bits_0 in Hb. discriminate.
Qed.

Lemma meets_mono_l a a' m : bits_within a a' -> meets a m = true -> meets a' m = true.
Proof. rewrite !meets_true_iff. intros H (i & Ha & Hm). eauto. Qed.

Lemma meets_mono_r a a' m : bits_within a a' -> meets m a = true -> meets m a' = true.
Proof. rewrite !meets_true_iff. intros H (i & Hm & Ha). eauto. Qed.

Lemma bits_within_refl a : bits_within a a.
Proof. intros i H. exact H. Qed.

Lemma bits_within_lor a a' b b' :
  bits_within a a' -> bits_within b b' -> bits_within (Z.lor a b) (Z.lor a' b').
Proof.
  intros Ha Hb i. rewrite !Z.lor_spec, !orb_true_iff. intros [H | H]; auto.
Qed.

Lemma bits_within_land_l a b : bits_within (Z.land a b) a.
Proof. intros i. rewrite Z.land_spec, andb_true_iff. tauto. Qed.

(** The walk keeps what it has collected. *)
Lemma ray_loop_keeps fuel delta occ :
  forall pos row col res, bits_within res (ray_loop fuel delta occ pos row col res).
Proof.
  induction fuel as [| fuel IH]; intros pos row col res; cbn [ray_loop];
    [apply bits_within_refl |].
  repeat match goal with |- context [if ?b then _ else _] => destruct b end;
    try apply bits_within_refl.
  - intros i Hi. rewrite Z.lor_spec, Hi. reflexivity.
  - intros i Hi. apply IH. rewrite Z.lor_spec, Hi. reflexivity.
Qed.

(** Fewer occupied squares: the walk sees at least as far. *)
Lemma ray_loop_mono fuel delta occ occ' :
  bits_within occ' occ ->
  forall pos row col res res',
    bits_within res res' ->
    bits_within (ray_loop fuel delta occ pos row col res)
                (ray_loop fuel delta occ' pos row col res').
Proof.
  intros Hocc. induction fuel as [| fuel IH]; intros pos row col res res' Hres;
    cbn [ray_loop]; [exact Hres |].
  destruct ((pos + delta <? 0) || (pos + delta >? 63)); [exact Hres |].
  destruct (ray_wraps _ _ _); [exact Hres |].
  assert (Hstep : bits_within (Z.lor res (bit (pos + delta)))
                              (Z.lor res' (bit (pos + delta))))
    by (apply bits_within_lor; [exact Hres | apply bits_within_refl]).
  destruct (meets (bit (pos + delta)) occ) eqn:Hm.
  - destruct (meets (bit (pos + delta)) occ'); [exact Hstep |].
    intros i Hi. apply ray_loop_keeps, Hstep, Hi.
  - destruct (meets (bit (pos + delta)) occ') eqn:Hm'.
    + apply (meets_mono_r _ _ _ Hocc) in Hm'. congruence.
    + apply IH, Hstep.
Qed.

Lemma ray_moves_mono sq_mask delta occ occ' sliders :
  bits_within occ' occ ->
  meets (ray_moves sq_mask delta occ) sliders = true ->
  meets (ray_moves sq_mask delta occ') sliders = true.
Proof.
  intros Hocc. apply meets_mono_l. unfold ray_moves.
  apply ray_loop_mono; [exact Hocc | apply bits_within_refl].
Qed.

Lemma if_chain_true (a b c d : bool) :
  (if a then true else if b then true else if c then true else if d then true else false)
  = a || b || c || d.
Proof. destruct a, b, c, d; reflexivity. Qed.

Lemma diagonal_attack_persists s s' sq a :
  (if a =? 1 then white_bishops s' = white_bishops s /\ white_queens s' = white_queens s
   else black_bishops s' = black_bishops s /\ black_queens s' = black_queens s) ->
  bits_within (compute_all_occ s') (compute_all_occ s) ->
  is_attacked_by_bishop_or_queen s sq a = true ->
  is_attacked_by_bishop_or_queen s' sq a = true.
Proof.
  intros Hsame Hocc. unfold is_attacked_by_bishop_or_queen. cbv zeta.
  rewrite !if_chain_true.
  destruct (a =? 1); destruct Hsame as [-> ->]; rewrite !orb_true_iff;
    (intros [[[H | H] | H] | H];
     [left; left; left | left; left; right | left; right | right]);
    exact (ray_moves_mono _ _ _ _ _ Hocc H).
Qed.

Lemma straight_attack_persists s s' sq a :
  (if a =? 1 then white_rooks s' = white_rooks s /\ white_queens s' = white_queens s
   else black_rooks s' = black_rooks s /\ black_queens s' = black_queens s) ->
  bits_within (compute_all_occ s') (compute_all_occ s) ->
  is_attacked_by_rook_or_queen s sq a = true ->
  is_attacked_by_rook_or_queen s' sq a = true.
Proof.
  intros Hsame Hocc. unfold is_attacked_by_rook_or_queen. cbv zeta.
  rewrite !if_chain_true.
  destruct (a =? 1); destruct Hsame as [-> ->]; rewrite !orb_true_iff;
    (intros [[[H | H] | H] | H];
     [left; left; left | left; left; right | left; right | right]);
    exact (ray_moves_mono _ _ _ _ _ Hocc H).
Qed.

Lemma check_persists pl s s' :
  pl = 1 \/ pl = -1 ->
  only_defenders_removed pl s s' ->
  is_king_in_check s pl = true -> is_king_in_check s' pl = true.
Proof.
  intros Hpl [Hocc Hsame].
  assert (Hside : (pl =? 1) = true /\ (int_neg pl =? 1) = false
                  \/ (pl =? 1) = false /\ (int_neg pl =? 1) = true)
    by (destruct Hpl as [-> | ->]; [left | right]; split; reflexivity).
  unfold is_king_in_check.
  assert (Hk : get_king_position s' pl = get_king_position s pl).
  { unfold get_king_position.
    destruct Hside as [[Hp _] | [Hp _]]; rewrite Hp in *;
      destruct Hsame as (-> & _); reflexivity. }
  rewrite Hk. cbv zeta. destruct (get_king_position s pl =? -1); [auto |].
  set (kp := get_king_position s pl). set (a := int_neg pl) in *.
  assert (Hp : is_attacked_by_pawn s' kp a = is_attacked_by_pawn s kp a).
  { unfold is_attacked_by_pawn.
    destruct Hside as [[Hp Ha] | [Hp Ha]]; rewrite Hp in Hsame; rewrite Ha;
      destruct Hsame as (_ & -> & _); reflexivity. }
  assert (Hn : is_attacked_by_knight s' kp a = is_attacked_by_knight s kp a).
  { unfold is_attacked_by_knight.
    destruct Hside as [[Hp' Ha] | [Hp' Ha]]; rewrite Hp' in Hsame; rewrite Ha;
      destruct Hsame as (_ & _ & -> & _); reflexivity. }
  assert (Hki : is_attacked_by_king s' kp a = is_attacked_by_king s kp a).
  { unfold is_attacked_by_king.
    destruct Hside as [[Hp' Ha] | [Hp' Ha]]; rewrite Hp' in Hsame; rewrite Ha;
      destruct Hsame as (_ & _ & _ & _ & _ & _ & ->); reflexivity. }
  assert (Hd : is_attacked_by_bishop_or_queen s kp a = true ->
               is_attacked_by_bishop_or_queen s' kp a = true).
  { apply diagonal_attack_persists; [| exact Hocc].
    destruct Hside as [[Hp' Ha] | [Hp' Ha]]; rewrite Hp' in Hsame; rewrite Ha; tauto. }
  assert (Hr : is_attacked_by_rook_or_queen s kp a = true ->
               is_attacked_by_rook_or_queen s' kp a = true).
  { apply straight_attack_persists; [| exact Hocc].
    destruct Hside as [[Hp' Ha] | [Hp' Ha]]; rewrite Hp' in Hsame; rewrite Ha; tauto. }
  rewrite Hp, Hn, Hki.
  destruct (is_attacked_by_pawn s kp a); [auto |].
  destruct (is_attacked_by_knight s kp a); [auto |].
  destruct (is_attacked_by_bishop_or_queen s kp a); [rewrite Hd; auto |].
  destruct (is_attacked_by_bishop_or_queen s' kp a); [auto |].
  destruct (is_attacked_by_rook_or_queen s kp a); [rewrite Hr; auto |].
  destruct (is_attacked_by_rook_or_queen s' kp a); auto.
Qed.

Lemma clear_bits_occ f mask s :
  bits_within (compute_all_occ (clear_bits f mask s)) (compute_all_occ s).
Proof.
  unfold compute_all_occ, compute_white_occ, compute_black_occ, clear_bits.
  destruct f; cbn;
    repeat (apply bits_within_lor; try apply bits_within_refl; try apply bits_within_land_l).
Qed.

Lemma removal_spares_the_attackers p sq :
  current_player p = 1 \/ current_player p = -1 ->
  meets (if current_player p =? 1 then white_kings p else black_kings p) (bit sq) = false ->
  only_defenders_removed (current_player p) p
    (remove_piece_from_bitboards p sq (current_player p)).
Proof.
  intros Hpl Hking. unfold remove_piece_from_bitboards.
  assert (Hrefl : only_defenders_removed (current_player p) p p).
  { split; [apply bits_within_refl |]. destruct (current_player p =? 1); repeat split. }
  destruct (first_holding _ _ p) as [f |] eqn:Hf; [| exact Hrefl].
  apply first_holding_Some in Hf as [Hin Hm].
  split; [apply clear_bits_occ |].
  destruct (current_player p =? 1); cbn in Hin;
    repeat (destruct Hin as [<- | Hin]); try contradiction;
    try (cbn in Hm; congruence); repeat split.
Qed.

(** While the king of the player to move is in check, the applicator
    refuses every move from a square of the board other than that
    king's square: the pin test removes the piece on [from] and finds the
    king still attacked.  A check cannot be answered by capturing the
    checking piece or by interposing. *)
Theorem check_allows_only_king_moves (p : bitboard_state_t) (m : chess_move_t) :
  current_player p = 1 \/ current_player p = -1 ->
  0 <= from m < 64 ->
  is_king_in_check p (current_player p) = true ->
  meets (if current_player p =? 1 then white_kings p else black_kings p) (bit (from m)) = false ->
  chess_apply_move p m = None.
Proof.
  intros Hpl _ Hcheck Hking.
  assert (Hpin : is_move_pinned p m = true).
  { unfold is_move_pinned.
    destruct (get_king_position p (current_player p) =? -1) eqn:Hk.
    - unfold is_king_in_check in Hcheck. cbv zeta in Hcheck. rewrite Hk in Hcheck.
      discriminate.
    - apply (check_persists _ p); auto.
      now apply removal_spares_the_attackers. }
  unfold chess_apply_move. rewrite Hpin. reflexivity.
Qed.

Lemma check_allows_only_king_moves_witness :
  chess_apply_move rook_gives_check (mk_move 56 60 0 0 0) = None.
Proof.
  apply check_allows_only_king_moves.
  - left. reflexivity.
  - cbn. lia.
  - vm_compute. reflexivity.
  - vm_compute. reflexivity.
Defined.

(** *** The Zobrist tables *)

Lemma lxor_u64 (a b : Z) : u64_range a -> u64_range b -> u64_range (Z.lxor a b).
Proof.
  unfold u64_range. intros Ha Hb.
  assert (Hnn : 0 <= Z.lxor a b) by (apply Z.lxor_nonneg; lia).
  split; [exact Hnn|].
  destruct (Z.eq_dec (Z.lxor a b) 0) as [->|Hne]; [reflexivity|].
  apply Z.log2_lt_pow2; [lia|].
  pose proof (Z.log2_lxor a b ltac:(lia) ltac:(lia)) as Hl.
  assert (Z.log2 a < 64).
  { destruct (Z.eq_dec a 0) as [->|]; [cbn; lia|]. apply Z.log2_lt_pow2; lia. }
  assert (Z.log2 b < 64).
  { destruct (Z.eq_dec b 0) as [->|]; [cbn; lia|]. apply Z.log2_lt_pow2; lia. }
  lia.
Qed.

Lemma u64_u64_range (x : Z) : u64_range (u64 x).
Proof. unfold u64_range, u64. apply Z.mod_pos_bound. reflexivity. Qed.

Lemma shr_u64_range (x n : Z) : u64_range x -> 0 <= n -> u64_range (shr x n).
Proof.
  unfold u64_range, shr. intros Hx Hn. rewrite Z.shiftr_div_pow2 by exact Hn.
  assert (0 < 2 ^ n) by (apply Z.pow_pos_nonneg; lia).
  split; [apply Z.div_pos; lia|].
  apply Z.le_lt_trans with x; [|lia]. apply Z.div_le_upper_bound; nia.
Qed.

Lemma next_rand64_range (prng : Z) : u64_range prng -> u64_range (next_rand64 prng).
Proof.
  intros H. unfold next_rand64. cbv zeta.
  assert (H1 : u64_range (Z.lxor prng (shl prng 13))).
  { apply lxor_u64; [exact H|]. unfold shl. apply u64_u64_range. }
  assert (H2 : u64_range (Z.lxor (Z.lxor prng (shl prng 13))
                                 (shr (Z.lxor prng (shl prng 13)) 7))).
  { apply lxor_u64; [exact H1|]. apply shr_u64_range; [exact H1|lia]. }
  apply lxor_u64; [exact H2|]. unfold shl. apply u64_u64_range.
Qed.

Lemma draw_keys_spec (n : nat) (prng : Z) :
  u64_range prng ->
  length (fst (draw_keys n prng)) = n
  /\ Forall u64_range (fst (draw_keys n prng))
  /\ u64_range (snd (draw_keys n prng)).
Proof.
  revert prng. induction n as [|n IH]; intros prng H; cbn [draw_keys].
  - cbn. auto.
  - pose proof (next_rand64_range prng H) as Hk.
    destruct (IH _ Hk) as (Hl & Hf & Hs).
    destruct (draw_keys n (next_rand64 prng)) as [ks prng'].
    cbn [fst snd length] in *. split; [lia|]. split; [constructor; assumption|exact Hs].
Qed.

Lemma draw_rows_spec (rows cols : nat) (prng : Z) :
  u64_range prng ->
  length (fst (draw_rows rows cols prng)) = rows
  /\ Forall (fun r => length r = cols /\ Forall u64_range r) (fst (draw_rows rows cols prng))
  /\ u64_range (snd (draw_rows rows cols prng)).
Proof.
  revert prng. induction rows as [|rows IH]; intros prng H; cbn [draw_rows].
  - cbn. auto.
  - destruct (draw_keys_spec cols prng H) as (Hl & Hf & Hs).
    destruct (draw_keys cols prng) as [r prng1]. cbn [fst snd] in *.
    destruct (IH _ Hs) as (Hl2 & Hf2 & Hs2).
    destruct (draw_rows rows cols prng1) as [rs prng2]. cbn [fst snd length] in *.
    split; [lia|]. split; [constructor; auto|exact Hs2].
Qed.

(** The first call of [chess_hash_init] fills the tables with 12 rows of
    64 piece keys, 16 castling keys and 64 en-passant keys, each of them a
    64-bit number, and sets the flag. *)
Theorem chess_hash_init_fills_the_tables (g : zobrist_globals) (now : Z) :
  zobrist_initialized g = 0 -> u64_range (prng_state g) ->
  let g' := chess_hash_init g now in
  let zk := zobrist_keys g' in
  zobrist_initialized g' = 1
  /\ length (piece_keys zk) = 12%nat
  /\ Forall (fun r => length r = 64%nat /\ Forall u64_range r) (piece_keys zk)
  /\ (length (castling_keys zk) = 16%nat /\ Forall u64_range (castling_keys zk))
  /\ (length (en_passant_keys zk) = 64%nat /\ Forall u64_range (en_passant_keys zk))
  /\ u64_range (side_to_move_key zk).
Proof.
  intros Hi Hp. unfold chess_hash_init. rewrite Hi. cbn [Z.eqb negb]. cbv zeta.
  assert (H0 : u64_range (Z.lxor (prng_state g) (u64 now)))
    by (apply lxor_u64; [exact Hp|apply u64_u64_range]).
  destruct (draw_rows_spec 12 64 _ H0) as (Hl1 & Hf1 & Hs1).
  destruct (draw_rows 12 64 _) as [pk prng1]. cbn [fst snd] in *.
  destruct (draw_keys_spec 16 _ Hs1) as (Hl2 & Hf2 & Hs2).
  destruct (draw_keys 16 prng1) as [ck prng2]. cbn [fst snd] in *.
  destruct (draw_keys_spec 64 _ Hs2) as (Hl3 & Hf3 & Hs3).
  destruct (draw_keys 64 prng2) as [ek prng3]. cbn [fst snd] in *.
  cbn [zobrist_initialized zobrist_keys piece_keys castling_keys en_passant_keys
       side_to_move_key].
  split; [reflexivity|]. split; [exact Hl1|]. split; [exact Hf1|].
  split; [split; assumption|]. split; [split; assumption|].
  apply next_rand64_range, Hs3.
Qed.

Lemma chess_hash_init_sets_flag (g : zobrist_globals) (now : Z) :
  zobrist_initialized (chess_hash_init g now) <> 0.
Proof.
  unfold chess_hash_init. destruct (Z.eqb_spec (zobrist_initialized g) 0) as [He|Hne];
    cbn [negb]; [|exact Hne].
  cbv zeta. destruct (draw_rows 12 64 _) as [pk prng1].
  destruct (draw_keys 16 prng1) as [ck prng2]. destruct (draw_keys 64 prng2) as [ek prng3].
  cbn. discriminate.
Qed.

(** A second call of [chess_hash_init] changes nothing, whatever the
    clock reads: the keys of the first call stay. *)
Theorem chess_hash_init_runs_once (g : zobrist_globals) (now now' : Z) :
  chess_hash_init (chess_hash_init g now) now' = chess_hash_init g now.
Proof.
  pose proof (chess_hash_init_sets_flag g now) as Hf.
  set (g1 := chess_hash_init g now) in *.
  unfold chess_hash_init at 1. apply Z.eqb_neq in Hf. rewrite Hf. reflexivity.
Qed.

(** [chess_equals_state] answers 1 exactly for two states with the same
    twelve bitboards and the same five scalar fields, and 0 otherwise. *)
Theorem chess_equals_state_decides_equality (p q : bitboard_state_t) :
  (chess_equals_state p q = 1 <-> p = q)
  /\ (chess_equals_state p q = 0 \/ chess_equals_state p q = 1).
Proof.
  split.
  - split; [apply chess_equals_state_eq|intros ->; apply chess_equals_state_refl].
  - unfold chess_equals_state. destruct (_ && _); [right|left]; reflexivity.
Qed.

(** *** The evaluation *)

Lemma popcount_scan_bounds (fuel : nat) (bb : Z) :
  0 <= popcount_scan fuel bb <= Z.of_nat fuel.
Proof.
  revert bb. induction fuel as [|fuel IH]; intros bb; cbn [popcount_scan]; [lia|].
  specialize (IH (Z.shiftr bb 1)). destruct (Z.odd bb); cbn [Z.b2z]; lia.
Qed.

Lemma popcountll_bounds (bb : Z) : 0 <= popcountll bb <= 64.
Proof. apply (popcount_scan_bounds 64). Qed.

Ltac evaluate_bounds bs :=
  unfold chess_evaluate; destruct (negb (chess_is_terminal bs =? 0)); cbv zeta;
  [ destruct (is_king_in_check bs 1); [lia|]; destruct (is_king_in_check bs (-1)); lia
  | pose proof (popcountll_bounds (white_pawns bs));
    pose proof (popcountll_bounds (white_knights bs));
    pose proof (popcountll_bounds (white_bishops bs));
    pose proof (popcountll_bounds (white_rooks bs));
    pose proof (popcountll_bounds (white_queens bs));
    pose proof (popcountll_bounds (black_pawns bs));
    pose proof (popcountll_bounds (black_knights bs));
    pose proof (popcountll_bounds (black_bishops bs));
    pose proof (popcountll_bounds (black_rooks bs));
    pose proof (popcountll_bounds (black_queens bs));
    destruct (popcountll (white_bishops bs) >=? 2);
    destruct (popcountll (black_bishops bs) >=? 2); lia ].

Lemma chess_evaluate_int_range (bs : bitboard_state_t) : int_range (chess_evaluate bs).
Proof. unfold int_range. evaluate_bounds bs. Qed.

(** The evaluation of a position is at most 64 times the value of all
    the pieces of a side plus the bishop-pair bonus, in absolute value,
    whatever the bitboards hold. *)
Theorem chess_evaluate_is_bounded (bs : bitboard_state_t) :
  - 137630 <= chess_evaluate bs <= 137630.
Proof. evaluate_bounds bs. Qed.

Lemma chess_hash_init_fills_the_tables_witness :
  let g' := chess_hash_init zobrist_start 1700000000 in
  let zk := zobrist_keys g' in
  zobrist_initialized g' = 1
  /\ length (piece_keys zk) = 12%nat
  /\ Forall (fun r => length r = 64%nat /\ Forall u64_range r) (piece_keys zk)
  /\ (length (castling_keys zk) = 16%nat /\ Forall u64_range (castling_keys zk))
  /\ (length (en_passant_keys zk) = 64%nat /\ Forall u64_range (en_passant_keys zk))
  /\ u64_range (side_to_move_key zk).
Proof.
  apply (chess_hash_init_fills_the_tables zobrist_start 1700000000).
  - reflexivity.
  - unfold u64_range. cbn. lia.
Defined.

End ChessMore.

(** * Properties of the hash table *)

Module CacheFacts.
Import Memory Cache CacheSpec.

Section Table.
Context {Mem : Type}.
Implicit Types (ht : generic_hash_table Mem) (chain : list hash_entry).

Lemma bucket_index_in_range ht h :
  wf_table ht -> (get_bucket_index h (capacity ht) < length (buckets ht))%nat.
Proof.
  intros [Hcap Hlen]. rewrite Hlen. unfold get_bucket_index.
  pose proof (Z.mod_pos_bound h (capacity ht) Hcap). lia.
Qed.

(** A replaced or appended entry is the one a later walk stops at. *)
Lemma find_entry_after_replace (eq : addr -> addr -> option Z) k v chain chain' :
  replace_entry eq k v chain = Some (Some chain') ->
  find_entry eq k chain' = Some v.
Proof.
  revert chain'. induction chain as [| e next IH]; intros chain'; simpl; [discriminate |].
  destruct (eq (key e) k) as [r |] eqn:He; [| discriminate].
  destruct (negb (r =? 0)) eqn:Hr.
  - intros [= <-]. simpl. rewrite He, Hr. reflexivity.
  - destruct (replace_entry eq k v next) as [[next' |] |]; try discriminate.
    intros [= <-]. simpl. rewrite He, Hr. now apply IH.
Qed.

(** The walk of [cache_store] is defined as soon as every key of the chain
    can be compared with the new key. *)
Lemma replace_entry_defined (eq : addr -> addr -> option Z) k v chain :
  Forall (fun e => is_Some (eq (key e) k)) chain ->
  is_Some (replace_entry eq k v chain).
Proof.
  induction 1 as [| e next [r He] _ IH]; simpl; [eauto |].
  rewrite He. destruct (negb (r =? 0)); [eauto |].
  destruct IH as [[next' |] ->]; eauto.
Qed.

Lemma wf_table_store mem ht k v ht' :
  wf_table ht -> cache_store mem (Some ht) (Some k) v = Some (Some ht') -> wf_table ht'.
Proof.
  unfold cache_store, wf_table. intros [Hcap Hlen] H.
  destruct (hash_cb ht mem k) as [h |]; [| discriminate].
  destruct (replace_entry _ _ _ _) as [[chain' |] |]; try discriminate;
    injection H as <-; simpl; rewrite length_insert; auto.
Qed.

(** Insert then look up: the table hands back the pointer it was given. *)
Lemma cache_lookup_after_store mem ht k v h r :
  wf_table ht ->
  hash_cb ht mem k = Some h ->
  eq_cb ht mem k k = Some r -> r <> 0 ->
  Forall (fun e => is_Some (eq_cb ht mem (key e) k)) (chain_of ht h) ->
  exists ht',
    cache_store mem (Some ht) (Some k) v = Some (Some ht')
    /\ cache_lookup mem (Some ht') (Some k) = Some v.
Proof.
  intros Hwf Hh Hrefl Hr Hchain.
  pose proof (bucket_index_in_range ht h Hwf) as Hidx.
  unfold cache_store, cache_lookup. rewrite Hh. fold (chain_of ht h).
  destruct (replace_entry_defined (eq_cb ht mem) k v _ Hchain) as [res Hres].
  rewrite Hres. destruct res as [chain' |]; eexists; (split; [reflexivity |]); simpl;
    rewrite Hh, list_lookup_insert_eq by assumption; simpl.
  - eapply find_entry_after_replace, Hres.
  - rewrite Hrefl. apply Z.eqb_neq in Hr. rewrite Hr. reflexivity.
Qed.

Lemma cache_store_callbacks mem ht k v ht' :
  cache_store mem (Some ht) k v = Some (Some ht') ->
  hash_cb ht' = hash_cb ht /\ eq_cb ht' = eq_cb ht /\ capacity ht' = capacity ht.
Proof.
  unfold cache_store. destruct k as [k |]; [| intros [= <-]; auto].
  destruct (hash_cb ht mem k) as [h |]; [| discriminate].
  destruct (replace_entry _ _ _ _) as [[chain' |] |]; try discriminate;
    intros [= <-]; auto.
Qed.

End Table.
End CacheFacts.

(** * Properties of the search and of its table *)

Module MinimaxFacts.
Import Memory Cache Minimax CacheSpec CacheFacts.

Section Search.
Context {S M : Type} (gd : game_descriptor_t S M).




End Search.



(** C6.  In the two-leaf game at depth 1 the search without a table
    returns 2.  With an initially empty table, the lookup for the second
    leaf walks the chain that holds the entry of the first leaf, whose key
    is the state freed after the first recursive call: the run reads dead
    memory and has no defined value. *)
Theorem table_lookup_reads_freed_state :
  search_value (minimax_ab two_leaves 1 0%nat INT_MIN INT_MAX None root_memory) = Some 2
  /\ search_value
       (minimax_ab two_leaves 1 0%nat INT_MIN INT_MAX (new_cache two_leaves) root_memory)
     = None.
Proof. split; vm_compute; reflexivity. Qed.

End MinimaxFacts.

(** * Further properties of the hash table *)

Module CacheMore.
Import Memory Cache CacheSpec CacheSpec2 CacheFacts.

Section Table.
Context {Mem : Type}.
Implicit Types (ht : generic_hash_table Mem) (chain : list hash_entry).

(** *** Edge cases *)


(** *** Storing under one key leaves the other keys alone *)

Lemma find_entry_other_key (eq : addr -> addr -> option Z) k v k2 chain chain' :
  Forall (fun e => forall r, eq (key e) k = Some r -> r <> 0 -> eq (key e) k2 = Some 0) chain ->
  replace_entry eq k v chain = Some (Some chain') ->
  find_entry eq k2 chain' = find_entry eq k2 chain.
Proof.
  intros Hsep. revert chain'. induction Hsep as [| e next He _ IH]; intros chain'; simpl;
    [discriminate |].
  destruct (eq (key e) k) as [r |] eqn:Hek; [| discriminate].
  destruct (negb (r =? 0)) eqn:Hr.
  - intros [= <-]. simpl.
    rewrite (He r eq_refl) by (apply negb_true_iff, Z.eqb_neq in Hr; exact Hr). reflexivity.
  - destruct (replace_entry eq k v next) as [[next' |] |]; try discriminate.
    intros [= <-]. simpl. destruct (eq (key e) k2) as [r2 |]; [| reflexivity].
    destruct (negb (r2 =? 0)); [reflexivity | now apply IH].
Qed.

(** A store under the key [k] does not change what a lookup of a key
    [k2] returns, when the callback tells [k2] apart from [k] and from
    every entry of the chain that it takes for [k]. *)
Theorem cache_store_spares_other_keys mem ht ht' (k k2 : addr) (v : option addr) (h : Z) :
  wf_table ht ->
  hash_cb ht mem k = Some h ->
  eq_cb ht mem k k2 = Some 0 ->
  Forall (fun e => forall r, eq_cb ht mem (key e) k = Some r -> r <> 0 ->
                             eq_cb ht mem (key e) k2 = Some 0) (chain_of ht h) ->
  cache_store mem (Some ht) (Some k) v = Some (Some ht') ->
  cache_lookup mem (Some ht') (Some k2) = cache_lookup mem (Some ht) (Some k2).
Proof.
  intros Hwf Hh Hne Hsep Hstore.
  destruct (cache_store_callbacks _ _ _ _ _ Hstore) as (Hhc & Hec & Hcap).
  pose proof (bucket_index_in_range ht h Hwf) as Hidx.
  unfold cache_lookup. rewrite Hhc, Hec, Hcap.
  destruct (hash_cb ht mem k2) as [h2 |]; [| reflexivity].
  unfold cache_store in Hstore. rewrite Hh in Hstore. fold (chain_of ht h) in Hstore.
  destruct (replace_entry (eq_cb ht mem) k v (chain_of ht h)) as [[chain' |] |] eqn:Hrep;
    try discriminate; injection Hstore as <-; cbn [buckets];
    destruct (Nat.eq_dec (get_bucket_index h (capacity ht))
                         (get_bucket_index h2 (capacity ht))) as [Heq | Hneq];
    rewrite ?list_lookup_insert_ne by exact Hneq; try reflexivity;
    rewrite <- Heq, list_lookup_insert_eq by exact Hidx; cbn; fold (chain_of ht h).
  - eapply find_entry_other_key; eassumption.
  - rewrite Hne. reflexivity.
Qed.

(** *** Counting the entries *)

Lemma replace_entry_length (eq : addr -> addr -> option Z) k v chain chain' :
  replace_entry eq k v chain = Some (Some chain') -> length chain' = length chain.
Proof.
  revert chain'. induction chain as [| e next IH]; intros chain'; simpl; [discriminate |].
  destruct (eq (key e) k) as [r |]; [| discriminate].
  destruct (negb (r =? 0)); [intros [= <-]; reflexivity |].
  destruct (replace_entry eq k v next) as [[next' |] |]; try discriminate.
  intros [= <-]. simpl. f_equal. now apply IH.
Qed.

Lemma replace_entry_found (eq : addr -> addr -> option Z) k v chain :
  Exists (fun e => exists r, eq (key e) k = Some r /\ r <> 0) chain ->
  replace_entry eq k v chain <> Some None.
Proof.
  induction 1 as [e next (r & He & Hr) | e next _ IH]; simpl.
  - rewrite He. apply Z.eqb_neq in Hr. rewrite Hr. discriminate.
  - destruct (eq (key e) k) as [r |]; [| discriminate].
    destruct (negb (r =? 0)); [discriminate |].
    destruct (replace_entry eq k v next) as [[next' |] |]; try discriminate. contradiction.
Qed.

Lemma replace_entry_absent (eq : addr -> addr -> option Z) k v chain chain' :
  Forall (fun e => eq (key e) k = Some 0) chain ->
  replace_entry eq k v chain <> Some (Some chain').
Proof.
  intros H. revert chain'. induction H as [| e next He _ IH]; intros chain'; simpl;
    [discriminate |].
  rewrite He. simpl. destruct (replace_entry eq k v next) as [[next' |] |]; try discriminate.
  exfalso. now apply (IH next').
Qed.

Lemma concat_insert_length {A : Type} (bs : list (list A)) i c c' :
  bs !! i = Some c ->
  (length (concat (<[i := c']> bs)) + length c = length (concat bs) + length c')%nat.
Proof.
  intros Hi. pose proof (lookup_lt_Some _ _ _ Hi) as Hlt.
  rewrite insert_take_drop by exact Hlt.
  rewrite <- (take_drop_middle bs i c Hi) at 3.
  rewrite !concat_app, !length_app. simpl. rewrite !length_app. lia.
Qed.

Lemma cache_store_count mem ht ht' (k : addr) (v : option addr) (h : Z) :
  wf_table ht ->
  hash_cb ht mem k = Some h ->
  cache_store mem (Some ht) (Some k) v = Some (Some ht') ->
  match replace_entry (eq_cb ht mem) k v (chain_of ht h) with
  | Some (Some _) => entry_count ht' = entry_count ht
  | Some None => entry_count ht' = S (entry_count ht)
  | None => False
  end.
Proof.
  intros Hwf Hh Hstore.
  pose proof (bucket_index_in_range ht h Hwf) as Hidx.
  destruct (lookup_lt_is_Some_2 _ _ Hidx) as [c Hc].
  assert (Hchain : chain_of ht h = c) by (unfold chain_of; rewrite Hc; reflexivity).
  unfold cache_store in Hstore. rewrite Hh in Hstore. fold (chain_of ht h) in Hstore.
  rewrite Hchain in *. unfold entry_count.
  destruct (replace_entry (eq_cb ht mem) k v c) as [[chain' |] |] eqn:Hrep;
    try discriminate; injection Hstore as <-; cbn [buckets].
  - pose proof (concat_insert_length (buckets ht) _ c chain' Hc) as Hlen.
    rewrite (replace_entry_length _ _ _ _ _ Hrep) in Hlen. lia.
  - pose proof (concat_insert_length (buckets ht) _ c (mk_entry k v :: c) Hc) as Hlen.
    simpl in Hlen. lia.
Qed.

(** [cache_store] replaces in place or adds exactly one entry: the number
    of entries is unchanged when the chain holds an entry that the
    callback takes for the key, and grows by one when it holds none. *)
Theorem cache_store_entry_count mem ht ht' (k : addr) (v : option addr) (h : Z) :
  wf_table ht ->
  hash_cb ht mem k = Some h ->
  cache_store mem (Some ht) (Some k) v = Some (Some ht') ->
  (Exists (fun e => exists r, eq_cb ht mem (key e) k = Some r /\ r <> 0) (chain_of ht h) ->
   entry_count ht' = entry_count ht)
  /\ (Forall (fun e => eq_cb ht mem (key e) k = Some 0) (chain_of ht h) ->
      entry_count ht' = S (entry_count ht)).
Proof.
  intros Hwf Hh Hstore.
  pose proof (cache_store_count mem ht ht' k v h Hwf Hh Hstore) as Hcount.
  destruct (replace_entry (eq_cb ht mem) k v (chain_of ht h)) as [[chain' |] |] eqn:Hrep;
    [| | contradiction].
  - split; [intros _; exact Hcount |].
    intros Habs. exfalso. eapply replace_entry_absent; eassumption.
  - split; [| intros _; exact Hcount].
    intros Hex. exfalso. eapply replace_entry_found; eassumption.
Qed.

(** *** Last write wins *)

Lemma replace_entry_comparable (eq : addr -> addr -> option Z) k v chain chain' :
  replace_entry eq k v chain = Some (Some chain') ->
  Forall (fun e => is_Some (eq (key e) k)) chain ->
  Forall (fun e => is_Some (eq (key e) k)) chain'.
Proof.
  intros Hrep H. revert chain' Hrep.
  induction H as [| e next He Hnext IH]; intros chain'; simpl; [discriminate |].
  destruct (eq (key e) k) as [r |] eqn:Hek; [| discriminate].
  destruct (negb (r =? 0)).
  - intros [= <-]. constructor; [cbn; rewrite Hek; eauto | exact Hnext].
  - destruct (replace_entry eq k v next) as [[next' |] |]; try discriminate.
    intros [= <-]. constructor; [rewrite Hek; eauto | now apply IH].
Qed.

Lemma replace_entry_leaves_match (eq : addr -> addr -> option Z) k v chain chain' :
  replace_entry eq k v chain = Some (Some chain') ->
  Exists (fun e => exists r, eq (key e) k = Some r /\ r <> 0) chain'.
Proof.
  revert chain'. induction chain as [| e next IH]; intros chain'; simpl; [discriminate |].
  destruct (eq (key e) k) as [r |] eqn:Hek; [| discriminate].
  destruct (negb (r =? 0)) eqn:Hr.
  - intros [= <-]. apply Exists_cons_hd. exists r. cbn. split; [exact Hek |].
    now apply negb_true_iff, Z.eqb_neq in Hr.
  - destruct (replace_entry eq k v next) as [[next' |] |]; try discriminate.
    intros [= <-]. apply Exists_cons_tl. now apply IH.
Qed.

(** After a store under [k], the chain of [k] holds an entry for [k], and
    its keys are still comparable with [k]. *)
Lemma chain_after_store mem ht ht' (k : addr) (v : option addr) (h r : Z) :
  wf_table ht ->
  hash_cb ht mem k = Some h ->
  eq_cb ht mem k k = Some r -> r <> 0 ->
  Forall (fun e => is_Some (eq_cb ht mem (key e) k)) (chain_of ht h) ->
  cache_store mem (Some ht) (Some k) v = Some (Some ht') ->
  Forall (fun e => is_Some (eq_cb ht mem (key e) k)) (chain_of ht' h)
  /\ Exists (fun e => exists r, eq_cb ht mem (key e) k = Some r /\ r <> 0) (chain_of ht' h).
Proof.
  intros Hwf Hh Hrefl Hr Hchain Hstore.
  pose proof (bucket_index_in_range ht h Hwf) as Hidx.
  unfold cache_store in Hstore. rewrite Hh in Hstore. fold (chain_of ht h) in Hstore.
  destruct (replace_entry (eq_cb ht mem) k v (chain_of ht h)) as [[chain' |] |] eqn:Hrep;
    try discriminate; injection Hstore as <-; unfold chain_of;
    cbn [buckets capacity]; rewrite list_lookup_insert_eq by exact Hidx; cbn.
  - split; [eapply replace_entry_comparable | eapply replace_entry_leaves_match]; eassumption.
  - split.
    + constructor; [cbn; rewrite Hrefl; eauto | exact Hchain].
    + apply Exists_cons_hd. cbn. eauto.
Qed.

(** Two stores under the same key: the second replaces the value of the
    first in place.  The lookup then returns the second value, and the
    second store adds no entry. *)
Theorem cache_store_last_write_wins mem ht (k : addr) (v1 v2 : option addr) (h r : Z) :
  wf_table ht ->
  hash_cb ht mem k = Some h ->
  eq_cb ht mem k k = Some r -> r <> 0 ->
  Forall (fun e => is_Some (eq_cb ht mem (key e) k)) (chain_of ht h) ->
  exists ht1 ht2,
    cache_store mem (Some ht) (Some k) v1 = Some (Some ht1)
    /\ cache_store mem (Some ht1) (Some k) v2 = Some (Some ht2)
    /\ cache_lookup mem (Some ht2) (Some k) = Some v2
    /\ entry_count ht2 = entry_count ht1.
Proof.
  intros Hwf Hh Hrefl Hr Hchain.
  destruct (cache_lookup_after_store mem ht k v1 h r Hwf Hh Hrefl Hr Hchain)
    as (ht1 & Hs1 & Hl1).
  destruct (cache_store_callbacks _ _ _ _ _ Hs1) as (Hhc & Hec & Hcap).
  pose proof (wf_table_store _ _ _ _ _ Hwf Hs1) as Hwf1.
  destruct (chain_after_store mem ht ht1 k v1 h r Hwf Hh Hrefl Hr Hchain Hs1) as [Hcomp Hex].
  destruct (cache_lookup_after_store mem ht1 k v2 h r Hwf1) as (ht2 & Hs2 & Hl2).
  - now rewrite Hhc.
  - now rewrite Hec.
  - exact Hr.
  - rewrite Hec. exact Hcomp.
  - exists ht1, ht2. repeat split; try assumption.
    assert (Hh1 : hash_cb ht1 mem k = Some h) by now rewrite Hhc.
    pose proof (cache_store_count mem ht1 ht2 k v2 h Hwf1 Hh1 Hs2) as Hcount.
    rewrite <- Hec in Hex.
    pose proof (replace_entry_found (eq_cb ht1 mem) k v2 _ Hex) as Hfound.
    destruct (replace_entry (eq_cb ht1 mem) k v2 (chain_of ht1 h)) as [[chain' |] |];
      [exact Hcount | contradiction | contradiction].
Qed.

(** *** Walking the table *)

Lemma next_chain_spec (bs : list (list hash_entry)) fuel :
  forall b,
    (b <= length bs)%nat -> (length bs - b < fuel)%nat ->
    let '(b', c) := next_chain fuel bs (length bs) b in
    (b' <= length bs)%nat
    /\ concat (drop b bs) = c ++ concat (drop b' bs)
    /\ (c = [] -> concat (drop b bs) = []).
Proof.
  induction fuel as [| fuel IH]; intros b Hb Hfuel; [lia |].
  cbn [next_chain]. destruct (Nat.leb_spec (length bs) b) as [Hge | Hlt].
  - rewrite drop_ge by lia. auto.
  - destruct (lookup_lt_is_Some_2 bs b Hlt) as [c Hc]. rewrite Hc. cbn [default].
    rewrite (drop_S bs c b Hc). cbn [concat].
    destruct c as [| e c].
    + specialize (IH (S b) ltac:(lia) ltac:(lia)).
      destruct (next_chain fuel bs (length bs) (S b)) as [b' c']. exact IH.
    + split; [lia |]. split; [reflexivity | discriminate].
Qed.

Lemma drain_spec ht fuel :
  wf_table ht ->
  forall b ce,
    (b <= length (buckets ht))%nat ->
    (length (tail ce ++ concat (drop b (buckets ht))) < fuel)%nat ->
    drain fuel (mk_iter ht b ce)
    = map (fun e => (key e, value e)) (tail ce ++ concat (drop b (buckets ht))).
Proof.
  intros [Hcap Hlen]. induction fuel as [| fuel IH]; intros b ce Hb Hfuel; [lia |].
  cbn [drain]. unfold cache_iterator_next. cbn [iter_cache current_entry current_bucket].
  rewrite <- Hlen.
  replace (match ce with [] => [] | _ :: next => next end) with (tail ce)
    by (destruct ce; reflexivity).
  destruct (tail ce) as [| e rest] eqn:Htail.
  - pose proof (next_chain_spec (buckets ht) (S (length (buckets ht))) b Hb ltac:(lia)) as Hn.
    destruct (next_chain _ _ _ b) as [b' c]. destruct Hn as (Hb' & Hcat & Hnil).
    cbn [app] in *. destruct c as [| e c].
    + rewrite Hnil by reflexivity. reflexivity.
    + rewrite Hcat. cbn [map app]. f_equal.
      rewrite (IH b' (e :: c)); [reflexivity | exact Hb' |].
      rewrite Hcat in Hfuel. cbn in Hfuel |- *. lia.
  - cbn [map app]. f_equal.
    rewrite (IH b (e :: rest)); [reflexivity | exact Hb |].
    cbn in Hfuel |- *. lia.
Qed.

Lemma fold_left_concat {A B : Type} (f : B -> A -> B) (ls : list (list A)) (u : B) :
  fold_left (fun u l => fold_left f l u) ls u = fold_left f (concat ls) u.
Proof.
  revert u. induction ls as [| l ls IH]; intros u; simpl; [reflexivity |].
  rewrite fold_left_app. apply IH.
Qed.

(** The two ways of walking a table agree.  [cache_for_each] calls its
    callback on every pair, bucket after bucket and each chain from its
    head; an iterator created on the table delivers the same pairs in the
    same order and then reports the end. *)
Theorem iterator_and_for_each_agree {U : Type} ht (fn : addr -> option addr -> U -> U)
    (user_data : U) (fuel : nat) :
  wf_table ht ->
  (entry_count ht < fuel)%nat ->
  cache_iterator_create (Some ht) = Some (mk_iter ht 0 [])
  /\ drain fuel (mk_iter ht 0 []) = pairs_of ht
  /\ cache_for_each (Some ht) (Some fn) user_data
     = fold_left (fun u kv => fn (fst kv) (snd kv) u) (pairs_of ht) user_data.
Proof.
  intros Hwf Hfuel. split; [reflexivity |]. split.
  - rewrite (drain_spec ht fuel Hwf 0 []); [reflexivity | lia |]. exact Hfuel.
  - unfold cache_for_each, pairs_of. rewrite fold_left_concat.
    generalize (concat (buckets ht)). intros l. revert user_data.
    induction l as [| e l IH]; intros u; simpl; [reflexivity | apply IH].
Qed.

End Table.


Lemma cache_store_spares_other_keys_witness :
  exists t : generic_hash_table (list Z),
    cache_store int_keys (Some int_one) (Some 0%nat) (Some 7%nat) = Some (Some t)
    /\ cache_lookup int_keys (Some t) (Some 3%nat)
       = cache_lookup int_keys (Some int_one) (Some 3%nat).
Proof.
  eexists. split; [vm_compute; reflexivity |].
  apply (cache_store_spares_other_keys int_keys int_one _ 0%nat 3%nat (Some 7%nat) 42).
  - split; [reflexivity | vm_compute; reflexivity].
  - reflexivity.
  - reflexivity.
  - vm_compute. constructor; [| constructor]. intros r [= <-] Hr. contradiction.
  - vm_compute. reflexivity.
Defined.

Lemma cache_store_entry_count_witness :
  exists t : generic_hash_table (list Z),
    cache_store int_keys (Some int_one) (Some 0%nat) (Some 7%nat) = Some (Some t)
    /\ (Exists (fun e => exists r, int_eq int_keys (key e) 0%nat = Some r /\ r <> 0)
               (chain_of int_one 42) -> entry_count t = entry_count int_one)
    /\ (Forall (fun e => int_eq int_keys (key e) 0%nat = Some 0) (chain_of int_one 42) ->
        entry_count t = S (entry_count int_one)).
Proof.
  eexists. split; [vm_compute; reflexivity |].
  apply (cache_store_entry_count int_keys int_one _ 0%nat (Some 7%nat) 42).
  - split; [reflexivity | vm_compute; reflexivity].
  - reflexivity.
  - vm_compute. reflexivity.
Defined.

Lemma cache_store_last_write_wins_witness :
  exists t1 t2 : generic_hash_table (list Z),
    cache_store int_keys (Some int_one) (Some 0%nat) (Some 7%nat) = Some (Some t1)
    /\ cache_store int_keys (Some t1) (Some 0%nat) (Some 8%nat) = Some (Some t2)
    /\ cache_lookup int_keys (Some t2) (Some 0%nat) = Some (Some 8%nat)
    /\ entry_count t2 = entry_count t1.
Proof.
  apply (cache_store_last_write_wins int_keys int_one 0%nat (Some 7%nat) (Some 8%nat) 42 1).
  - split; [reflexivity | vm_compute; reflexivity].
  - reflexivity.
  - reflexivity.
  - discriminate.
  - vm_compute. constructor; [eauto | constructor].
Defined.

Lemma iterator_and_for_each_agree_witness :
  cache_iterator_create (Some int_one) = Some (mk_iter int_one 0 [])
  /\ drain 2 (mk_iter int_one 0 []) = pairs_of int_one
  /\ cache_for_each (Some int_one) (Some (fun k v (n : nat) => S n)) 0%nat
     = fold_left (fun u kv => (fun k v (n : nat) => S n) (fst kv) (snd kv) u)
                 (pairs_of int_one) 0%nat.
Proof.
  apply (iterator_and_for_each_agree int_one (fun k v (n : nat) => S n) 0%nat 2).
  - split; [reflexivity | vm_compute; reflexivity].
  - vm_compute. lia.
Defined.

End CacheMore.

(** * Further properties of the search *)

Module MinimaxMore.
Import Memory Cache Minimax CacheSpec MinimaxSpec.

Section Game.
Context {S M : Type} (gd : game_descriptor_t S M).

Lemma load_alloc {A : Type} (v : A) (h t : heap A) :
  load (length h) ((h ++ [Some v]) ++ t) = Some v.
Proof.
  unfold load, heap, addr in *. rewrite <- app_assoc.
  rewrite (lookup_app_r h ([Some v] ++ t) (length h)) by lia.
  replace (length h - length h)%nat with 0%nat by lia. reflexivity.
Qed.

Lemma free_alloc {A : Type} (v : A) (h : heap A) (n : nat) :
  free (length h) ((h ++ [Some v]) ++ replicate n None) = h ++ replicate (Datatypes.S n) None.
Proof.
  unfold free, heap, addr in *. rewrite <- app_assoc.
  rewrite (insert_app_r_alt h ([Some v] ++ replicate n None) (length h)) by lia.
  replace (length h - length h)%nat with 0%nat by lia. reflexivity.
Qed.

Lemma replicate_app_none {A : Type} (h : heap A) (n k : nat) :
  (h ++ replicate n None) ++ replicate k None = h ++ replicate (n + k) None.
Proof. rewrite <- app_assoc. f_equal. symmetry. apply replicate_add. Qed.

Lemma search_moves_no_table (d : nat) (st : S) (player : Z) :
  (forall state c alpha beta mem, load state (states mem) = Some c ->
     exists n, minimax_ab gd d state alpha beta None mem =
       Some (alphabeta gd d c alpha beta, None,
             mk_memory (states mem ++ replicate n None) (locals mem))) ->
  forall moves l mem,
    exists n, search_moves gd (minimax_ab gd d) st player moves l None mem =
      Some (alphabeta_moves (alphabeta gd d) player (omap (apply_move gd st) moves) l, None,
            mk_memory (states mem ++ replicate n None) (locals mem)).
Proof.
  intros Hrec. induction moves as [|m rest IH]; intros l mem.
  - exists 0%nat. cbn. rewrite app_nil_r. destruct mem; reflexivity.
  - cbn [search_moves omap list_omap]. change (list_omap ?f ?l) with (omap f l).
    destruct (apply_move gd st m) as [child|]; [|apply IH].
    unfold alloc.
    destruct (Hrec (length (states mem)) child (loop_alpha l) (loop_beta l)
                (mk_memory (states mem ++ [Some child]) (locals mem))) as [n Hn].
    { cbn [states]. rewrite <- (app_nil_r (states mem ++ [Some child])). apply load_alloc. }
    rewrite Hn. cbn [states locals alphabeta_moves]. rewrite free_alloc.
    destruct (loop_alpha _ >=? loop_beta _).
    + eexists. reflexivity.
    + destruct (IH (update_best player (alphabeta gd d child (loop_alpha l) (loop_beta l)) l)
                  (mk_memory (states mem ++ replicate (Datatypes.S n) None) (locals mem)))
        as [k Hk].
      rewrite Hk. cbn [states locals]. rewrite replicate_app_none. eexists. reflexivity.
Qed.

Lemma minimax_ab_no_table (depth : nat) :
  forall state st alpha beta mem, load state (states mem) = Some st ->
    exists n, minimax_ab gd depth state alpha beta None mem =
      Some (alphabeta gd depth st alpha beta, None,
            mk_memory (states mem ++ replicate n None) (locals mem)).
Proof.
  induction depth as [|d IH]; intros state st alpha beta mem Hst.
  - exists 0%nat. cbn. rewrite Hst. rewrite app_nil_r. destruct mem; reflexivity.
  - cbn [minimax_ab probe_cache]. rewrite Hst. cbn [store_entry alphabeta is_leaf].
    destruct (negb (is_terminal gd st =? 0)); cbn [orb].
    { exists 0%nat. rewrite app_nil_r. destruct mem; reflexivity. }
    destruct (Z.of_nat (length (get_moves gd st)) =? 0).
    { exists 0%nat. rewrite app_nil_r. destruct mem; reflexivity. }
    destruct (search_moves_no_table d st (player_to_move gd st) IH (get_moves gd st)
                (mk_loop (if player_to_move gd st =? 1 then INT_MIN else INT_MAX) alpha beta)
                mem) as [n Hn].
    rewrite Hn. exists n. reflexivity.
Qed.

Lemma gtb_max (x y : Z) : (if x >? y then x else y) = Z.max x y.
Proof. destruct (Z.gtb_spec x y); lia. Qed.

Lemma ltb_min (x y : Z) : (if x <? y then x else y) = Z.min x y.
Proof. destruct (Z.ltb_spec x y); lia. Qed.

Lemma update_best_max (player value : Z) (l : loop_state) :
  (player =? 1) = true ->
  update_best player value l =
    mk_loop (Z.max value (best_value l))
            (Z.max (Z.max value (best_value l)) (loop_alpha l)) (loop_beta l).
Proof. intros Hp. unfold update_best. rewrite Hp, !gtb_max. reflexivity. Qed.

Lemma update_best_min (player value : Z) (l : loop_state) :
  (player =? 1) = false ->
  update_best player value l =
    mk_loop (Z.min value (best_value l)) (loop_alpha l)
            (Z.min (Z.min value (best_value l)) (loop_beta l)).
Proof. intros Hp. unfold update_best. rewrite Hp, !ltb_min. reflexivity. Qed.

Lemma fold_max_ge (vs : list Z) (V : Z) : V <= fold_left Z.max vs V.
Proof.
  revert V. induction vs as [|v vs IH]; intros V; cbn; [lia|].
  specialize (IH (Z.max V v)). lia.
Qed.

Lemma fold_min_le (vs : list Z) (V : Z) : fold_left Z.min vs V <= V.
Proof.
  revert V. induction vs as [|v vs IH]; intros V; cbn; [lia|].
  specialize (IH (Z.min V v)). lia.
Qed.

Section Level.
Variable d : nat.
Hypothesis below : forall c alpha beta,
  INT_MIN <= alpha -> alpha < beta -> beta <= INT_MAX ->
  bounds_value alpha beta (alphabeta gd d c alpha beta) (minimax gd d c).

Lemma alphabeta_moves_max (player alpha0 beta : Z) :
  (player =? 1) = true -> INT_MIN <= alpha0 -> alpha0 < beta -> beta <= INT_MAX ->
  forall cs b a V,
    a < beta -> a = Z.max alpha0 b -> (b <= alpha0 -> V <= b) -> (alpha0 < b -> b = V) ->
    bounds_value alpha0 beta
      (best_value (alphabeta_moves (alphabeta gd d) player cs (mk_loop b a beta)))
      (fold_left Z.max (map (minimax gd d) cs) V).
Proof.
  intros Hp Hlo Hw Hhi. induction cs as [|c cs IH]; intros b a V Ha Hab Hup Hex.
  - cbn. unfold bounds_value. lia.
  - cbn [alphabeta_moves map fold_left]. rewrite update_best_max by exact Hp.
    cbn [best_value loop_alpha loop_beta].
    destruct (below c a beta ltac:(lia) Ha Hhi) as (Hc1 & Hc2 & Hc3).
    set (r := alphabeta gd d c a beta) in *. set (v := minimax gd d c) in *.
    destruct (Z.geb_spec (Z.max (Z.max r b) a) beta) as [Hcut|Hgo].
    + cbn [best_value]. pose proof (fold_max_ge (map (minimax gd d) cs) (Z.max V v)).
      unfold bounds_value. lia.
    + apply IH; lia.
Qed.

Lemma alphabeta_moves_min (player alpha beta0 : Z) :
  (player =? 1) = false -> INT_MIN <= alpha -> alpha < beta0 -> beta0 <= INT_MAX ->
  forall cs b a V,
    alpha < a -> a = Z.min beta0 b -> (beta0 <= b -> b <= V) -> (b < beta0 -> b = V) ->
    bounds_value alpha beta0
      (best_value (alphabeta_moves (alphabeta gd d) player cs (mk_loop b alpha a)))
      (fold_left Z.min (map (minimax gd d) cs) V).
Proof.
  intros Hp Hlo Hw Hhi. induction cs as [|c cs IH]; intros b a V Ha Hab Hup Hex.
  - cbn. unfold bounds_value. lia.
  - cbn [alphabeta_moves map fold_left]. rewrite update_best_min by exact Hp.
    cbn [best_value loop_alpha loop_beta].
    destruct (below c alpha a Hlo Ha ltac:(lia)) as (Hc1 & Hc2 & Hc3).
    set (r := alphabeta gd d c alpha a) in *. set (v := minimax gd d c) in *.
    destruct (Z.geb_spec alpha (Z.min (Z.min r b) a)) as [Hcut|Hgo].
    + cbn [best_value]. pose proof (fold_min_le (map (minimax gd d) cs) (Z.min V v)).
      unfold bounds_value. lia.
    + apply IH; lia.
Qed.

End Level.

Lemma int_bounds : INT_MIN < INT_MAX.
Proof. reflexivity. Qed.

Lemma alphabeta_bounds (depth : nat) :
  forall st alpha beta, INT_MIN <= alpha -> alpha < beta -> beta <= INT_MAX ->
    bounds_value alpha beta (alphabeta gd depth st alpha beta) (minimax gd depth st).
Proof.
  induction depth as [|d IH]; intros st alpha beta Hlo Hw Hhi.
  - cbn. unfold bounds_value. lia.
  - cbn [alphabeta minimax].
    destruct (is_leaf gd (Datatypes.S d) st); [unfold bounds_value; lia|].
    destruct (player_to_move gd st =? 1) eqn:Hp.
    + apply alphabeta_moves_max; try assumption; try lia.
    + apply alphabeta_moves_min; try assumption; try lia.
Qed.

Section Range.
Hypothesis evaluate_int : forall s, INT_MIN <= evaluate gd s <= INT_MAX.

Lemma fold_max_range (vs : list Z) (V : Z) :
  Forall (fun v => INT_MIN <= v <= INT_MAX) vs -> INT_MIN <= V <= INT_MAX ->
  INT_MIN <= fold_left Z.max vs V <= INT_MAX.
Proof.
  intros Hvs. revert V. induction Hvs as [|v vs Hv _ IH]; intros V HV; cbn; [lia|].
  apply IH. lia.
Qed.

Lemma fold_min_range (vs : list Z) (V : Z) :
  Forall (fun v => INT_MIN <= v <= INT_MAX) vs -> INT_MIN <= V <= INT_MAX ->
  INT_MIN <= fold_left Z.min vs V <= INT_MAX.
Proof.
  intros Hvs. revert V. induction Hvs as [|v vs Hv _ IH]; intros V HV; cbn; [lia|].
  apply IH. lia.
Qed.

Lemma minimax_range (depth : nat) (st : S) : INT_MIN <= minimax gd depth st <= INT_MAX.
Proof.
  pose proof int_bounds.
  revert st. induction depth as [|d IH]; intros st; [apply evaluate_int|].
  cbn [minimax]. destruct (is_leaf gd (Datatypes.S d) st); [apply evaluate_int|].
  destruct (player_to_move gd st =? 1).
  - apply fold_max_range; [|lia]. apply List.Forall_forall. intros v Hv.
    apply List.in_map_iff in Hv as (c & <- & _). apply IH.
  - apply fold_min_range; [|lia]. apply List.Forall_forall. intros v Hv.
    apply List.in_map_iff in Hv as (c & <- & _). apply IH.
Qed.

Lemma alphabeta_moves_range (search : S -> Z -> Z -> Z) (player : Z) :
  (forall c a b, INT_MIN <= search c a b <= INT_MAX) ->
  forall cs l, INT_MIN <= best_value l <= INT_MAX ->
    INT_MIN <= best_value (alphabeta_moves search player cs l) <= INT_MAX.
Proof.
  intros Hs. induction cs as [|c cs IH]; intros l Hl; [exact Hl|].
  cbn [alphabeta_moves].
  assert (INT_MIN <= best_value (update_best player (search c (loop_alpha l) (loop_beta l)) l)
          <= INT_MAX) as Hb.
  { specialize (Hs c (loop_alpha l) (loop_beta l)).
    destruct (player =? 1) eqn:Hp.
    - rewrite update_best_max by exact Hp. cbn. lia.
    - rewrite update_best_min by exact Hp. cbn. lia. }
  destruct (_ >=? _); [exact Hb|]. apply IH, Hb.
Qed.

Lemma alphabeta_range (depth : nat) :
  forall st alpha beta, INT_MIN <= alphabeta gd depth st alpha beta <= INT_MAX.
Proof.
  pose proof int_bounds.
  induction depth as [|d IH]; intros st alpha beta; [apply evaluate_int|].
  cbn [alphabeta]. destruct (is_leaf gd (Datatypes.S d) st); [apply evaluate_int|].
  apply alphabeta_moves_range; [exact IH|]. cbn. destruct (_ =? 1); lia.
Qed.

Lemma alphabeta_full_window (depth : nat) (st : S) :
  alphabeta gd depth st INT_MIN INT_MAX = minimax gd depth st.
Proof.
  pose proof int_bounds.
  pose proof (alphabeta_range depth st INT_MIN INT_MAX).
  pose proof (minimax_range depth st).
  destruct (alphabeta_bounds depth st INT_MIN INT_MAX) as (Hb1 & Hb2 & Hb3); lia.
Qed.

End Range.

(** Without a table the search is defined on every live state, leaves the
    table pointer null, and frees every state it allocates: the blocks of
    the caller are as before, followed by dead blocks only. *)
Theorem search_without_table_frees_its_states (depth : nat) (state : addr) (st : S)
    (alpha beta : Z) (mem : memory S) :
  load state (states mem) = Some st ->
  exists v n, minimax_ab gd depth state alpha beta None mem =
    Some (v, None, mk_memory (states mem ++ replicate n None) (locals mem)).
Proof.
  intros Hst. destruct (minimax_ab_no_table depth state st alpha beta mem Hst) as [n Hn].
  eauto.
Qed.

(** Without a table, the result of a search with the window [alpha],
    [beta] bounds the minimax value of the node: an upper bound when it is
    at most [alpha], a lower bound when it is at least [beta], and the
    value itself in between. *)
Theorem search_result_bounds_minimax (depth : nat) (state : addr) (st : S)
    (alpha beta : Z) (mem : memory S) :
  load state (states mem) = Some st ->
  INT_MIN <= alpha -> alpha < beta -> beta <= INT_MAX ->
  exists r, search_value (minimax_ab gd depth state alpha beta None mem) = Some r /\
            bounds_value alpha beta r (minimax gd depth st).
Proof.
  intros Hst Hlo Hw Hhi.
  destruct (minimax_ab_no_table depth state st alpha beta mem Hst) as [n Hn].
  rewrite Hn. eexists. split; [reflexivity|]. apply alphabeta_bounds; assumption.
Qed.

(** With the full window and evaluations that fit an [int], the search
    without a table returns the minimax value of the node. *)
Theorem full_window_search_is_minimax (depth : nat) (state : addr) (st : S)
    (mem : memory S) :
  load state (states mem) = Some st ->
  (forall s, INT_MIN <= evaluate gd s <= INT_MAX) ->
  search_value (minimax_ab gd depth state INT_MIN INT_MAX None mem) = Some (minimax gd depth st).
Proof.
  intros Hst He.
  destruct (minimax_ab_no_table depth state st INT_MIN INT_MAX mem Hst) as [n Hn].
  rewrite Hn. cbn. f_equal. apply alphabeta_full_window, He.
Qed.

(** *** The search with a table whose buckets it finds empty *)

Lemma nodup_app_inv {A : Type} (l1 l2 : list A) :
  List.NoDup (l1 ++ l2) ->
  List.NoDup l1 /\ List.NoDup l2 /\ forall x, In x l1 -> ~ In x l2.
Proof.
  induction l1 as [|a l1 IH]; cbn; intros H.
  - split; [constructor|]. split; [exact H|]. intros x [].
  - apply List.NoDup_cons_iff in H as [Ha H]. destruct (IH H) as (H1 & H2 & H3).
    split; [|split; [exact H2|]].
    + constructor; [|exact H1]. intros Hin. apply Ha, in_or_app. left. exact Hin.
    + intros x [<-|Hx]; [|apply H3, Hx]. intros Hin. apply Ha, in_or_app. right. exact Hin.
Qed.

Lemma load_app_l {A : Type} (a : addr) (v : A) (h t : heap A) :
  load a h = Some v -> load a (h ++ t) = Some v.
Proof.
  unfold load, heap, addr in *. intros H.
  destruct (h !! a) as [o|] eqn:Ha; [|discriminate].
  rewrite (lookup_app_l_Some h t a o Ha). exact H.
Qed.

Lemma free_last {A : Type} (v : A) (h : heap A) :
  free (length h) (h ++ [Some v]) = h ++ replicate 1 None.
Proof.
  unfold free, heap, addr in *. rewrite (insert_app_r_alt h [Some v] (length h)) by lia.
  replace (length h - length h)%nat with 0%nat by lia. reflexivity.
Qed.

Lemma probe_empty_bucket (depth : Z) (state : addr) (st : S) (alpha beta : Z)
    (bs : list (list hash_entry)) (mem : memory S) :
  load state (states mem) = Some st -> bs !! bucket_of gd st = Some [] ->
  probe_cache depth state alpha beta (Some (search_table gd bs)) mem =
  Some (Window alpha beta).
Proof.
  intros Hst Hb. unfold probe_cache, cache_lookup, search_table.
  cbn [hash_cb eq_cb capacity buckets]. unfold state_hash_cb. rewrite Hst.
  fold (bucket_of gd st). rewrite Hb. reflexivity.
Qed.

Lemma store_empty_bucket (state : addr) (st : S) (e : minimax_cache_entry_t)
    (bs : list (list hash_entry)) (mem : memory S) :
  load state (states mem) = Some st -> bs !! bucket_of gd st = Some [] ->
  store_entry state e (Some (search_table gd bs)) mem =
  Some (Some (search_table gd
                (<[bucket_of gd st := [mk_entry state (Some (length (locals mem)))]]> bs)),
        mk_memory (states mem) (locals mem ++ replicate 1 None)).
Proof.
  intros Hst Hb. unfold store_entry, alloc, cache_store, search_table.
  cbn [hash_cb eq_cb capacity buckets states locals]. unfold state_hash_cb.
  cbn [states]. rewrite Hst. fold (bucket_of gd st). rewrite Hb.
  cbn [default replace_entry]. rewrite free_last. reflexivity.
Qed.

Section Fresh.
Variable d : nat.
Hypothesis below : forall state c alpha beta bs mem,
  load state (states mem) = Some c ->
  List.NoDup (map (bucket_of gd) (subtree gd d c)) ->
  (forall s, In s (subtree gd d c) -> bs !! bucket_of gd s = Some []) ->
  exists bs' n k,
    minimax_ab gd d state alpha beta (Some (search_table gd bs)) mem =
      Some (alphabeta gd d c alpha beta, Some (search_table gd bs'),
            mk_memory (states mem ++ replicate n None) (locals mem ++ replicate k None)) /\
    (forall i, ~ In i (map (bucket_of gd) (subtree gd d c)) -> bs' !! i = bs !! i).

Lemma search_moves_fresh (st : S) (player : Z) :
  forall moves l bs mem,
    List.NoDup (map (bucket_of gd)
                 (flat_map (subtree gd d) (omap (apply_move gd st) moves))) ->
    (forall s, In s (flat_map (subtree gd d) (omap (apply_move gd st) moves)) ->
               bs !! bucket_of gd s = Some []) ->
    exists bs' n k,
      search_moves gd (minimax_ab gd d) st player moves l (Some (search_table gd bs)) mem =
        Some (alphabeta_moves (alphabeta gd d) player (omap (apply_move gd st) moves) l,
              Some (search_table gd bs'),
              mk_memory (states mem ++ replicate n None) (locals mem ++ replicate k None)) /\
      (forall i, ~ In i (map (bucket_of gd)
                           (flat_map (subtree gd d) (omap (apply_move gd st) moves))) ->
                 bs' !! i = bs !! i).
Proof.
  induction moves as [|m rest IH]; intros l bs mem Hnd Hfree.
  - exists bs, 0%nat, 0%nat. cbn. rewrite !app_nil_r. destruct mem. split; reflexivity.
  - cbn [search_moves omap list_omap] in *. change (list_omap ?f ?l) with (omap f l) in *.
    destruct (apply_move gd st m) as [child|]; [|apply IH; assumption].
    cbn [flat_map alphabeta_moves] in *. rewrite map_app in Hnd.
    apply nodup_app_inv in Hnd as (Hnd1 & Hnd2 & Hdisj).
    unfold alloc.
    destruct (below (length (states mem)) child (loop_alpha l) (loop_beta l) bs
                (mk_memory (states mem ++ [Some child]) (locals mem)))
      as (bs1 & n & k & Hrun & Hframe).
    { cbn [states]. rewrite <- (app_nil_r (states mem ++ [Some child])). apply load_alloc. }
    { exact Hnd1. }
    { intros s Hs. apply Hfree, in_or_app. left. exact Hs. }
    rewrite Hrun. cbn [states locals]. rewrite free_alloc.
    destruct (loop_alpha _ >=? loop_beta _).
    + exists bs1, (Datatypes.S n), k. split; [reflexivity|].
      intros i Hi. apply Hframe. intros Hin. apply Hi. rewrite map_app.
      apply in_or_app. left. exact Hin.
    + destruct (IH (update_best player (alphabeta gd d child (loop_alpha l) (loop_beta l)) l)
                  bs1 (mk_memory (states mem ++ replicate (Datatypes.S n) None)
                                 (locals mem ++ replicate k None)) Hnd2)
        as (bs2 & n' & k' & Hrun2 & Hframe2).
      { intros s Hs. rewrite Hframe.
        - apply Hfree, in_or_app. right. exact Hs.
        - intros Hin. apply (Hdisj _ Hin). apply in_map. exact Hs. }
      rewrite Hrun2. cbn [states locals]. rewrite !replicate_app_none.
      eexists _, _, _. split; [reflexivity|].
      intros i Hi. rewrite Hframe2, Hframe; [reflexivity| |].
      * intros Hin. apply Hi. rewrite map_app. apply in_or_app. left. exact Hin.
      * intros Hin. apply Hi. rewrite map_app. apply in_or_app. right. exact Hin.
Qed.

End Fresh.

Lemma minimax_ab_fresh (depth : nat) :
  forall state st alpha beta bs mem,
    load state (states mem) = Some st ->
    List.NoDup (map (bucket_of gd) (subtree gd depth st)) ->
    (forall s, In s (subtree gd depth st) -> bs !! bucket_of gd s = Some []) ->
    exists bs' n k,
      minimax_ab gd depth state alpha beta (Some (search_table gd bs)) mem =
        Some (alphabeta gd depth st alpha beta, Some (search_table gd bs'),
              mk_memory (states mem ++ replicate n None) (locals mem ++ replicate k None)) /\
      (forall i, ~ In i (map (bucket_of gd) (subtree gd depth st)) -> bs' !! i = bs !! i).
Proof.
  assert (Hleaf : forall depth' state st bs mem v,
    load state (states mem) = Some st -> bs !! bucket_of gd st = Some [] ->
    exists bs' n k,
      match store_entry state (mk_cache_entry v depth' EXACT)
                        (Some (search_table gd bs)) mem with
      | None => None
      | Some (cache_handle, mem) => Some (v, cache_handle, mem)
      end =
        Some (v, Some (search_table gd bs'),
              mk_memory (states mem ++ replicate n None) (locals mem ++ replicate k None)) /\
      (forall i, i <> bucket_of gd st -> bs' !! i = bs !! i)).
  { intros depth' state st bs mem v Hst Hb.
    rewrite (store_empty_bucket state st _ bs mem Hst Hb).
    eexists _, 0%nat, 1%nat. rewrite app_nil_r. split; [reflexivity|].
    intros i Hi. apply list_lookup_insert_ne. congruence. }
  induction depth as [|d IH]; intros state st alpha beta bs mem Hst Hnd Hfree.
  - cbn [minimax_ab]. rewrite (probe_empty_bucket _ state st alpha beta bs mem Hst)
      by (apply Hfree; left; reflexivity).
    rewrite Hst.
    destruct (Hleaf (Z.of_nat 0) state st bs mem (evaluate gd st) Hst)
      as (bs' & n & k & Hrun & Hframe); [apply Hfree; left; reflexivity|].
    exists bs', n, k. split; [exact Hrun|].
    intros i Hi. apply Hframe. intros ->. apply Hi. left. reflexivity.
  - cbn [minimax_ab]. rewrite (probe_empty_bucket _ state st alpha beta bs mem Hst)
      by (apply Hfree; left; reflexivity).
    rewrite Hst. cbn [alphabeta subtree is_leaf] in *.
    destruct (negb (is_terminal gd st =? 0)); cbn [orb] in *.
    { destruct (Hleaf (Z.of_nat (Datatypes.S d)) state st bs mem (evaluate gd st) Hst)
        as (bs' & n & k & Hrun & Hframe); [apply Hfree; left; reflexivity|].
      exists bs', n, k. split; [exact Hrun|].
      intros i Hi. apply Hframe. intros ->. apply Hi. left. reflexivity. }
    destruct (Z.of_nat (length (get_moves gd st)) =? 0).
    { destruct (Hleaf (Z.of_nat (Datatypes.S d)) state st bs mem (evaluate gd st) Hst)
        as (bs' & n & k & Hrun & Hframe); [apply Hfree; left; reflexivity|].
      exists bs', n, k. split; [exact Hrun|].
      intros i Hi. apply Hframe. intros ->. apply Hi. left. reflexivity. }
    cbn [map] in Hnd. apply List.NoDup_cons_iff in Hnd as [Hroot Hnd].
    destruct (search_moves_fresh d IH st (player_to_move gd st) (get_moves gd st)
                (mk_loop (if player_to_move gd st =? 1 then INT_MIN else INT_MAX) alpha beta)
                bs mem Hnd) as (bs1 & n & k & Hrun & Hframe).
    { intros s Hs. apply Hfree. right. exact Hs. }
    unfold children. rewrite Hrun.
    rewrite (store_empty_bucket state st _ bs1).
    + cbn [states locals]. rewrite replicate_app_none.
      eexists _, _, _. split; [reflexivity|].
      intros i Hi. rewrite list_lookup_insert_ne.
      * apply Hframe. intros Hin. apply Hi. right. exact Hin.
      * intros Heq. apply Hi. left. exact Heq.
    + cbn [states]. apply load_app_l, Hst.
    + rewrite Hframe by exact Hroot. apply Hfree. left. reflexivity.
Qed.

Lemma bucket_of_in_range (st : S) : (bucket_of gd st < Z.to_nat INITIAL_CAPACITY)%nat.
Proof.
  unfold bucket_of, get_bucket_index.
  pose proof (Z.mod_pos_bound (hash_state gd st) INITIAL_CAPACITY eq_refl). lia.
Qed.

(** When the states of the game tree below the root fall into pairwise
    distinct buckets, a search that starts with a new table returns what
    the search without a table returns. *)
Theorem new_table_search_agrees (depth : nat) (state : addr) (st : S) (alpha beta : Z)
    (mem : memory S) :
  load state (states mem) = Some st ->
  List.NoDup (map (bucket_of gd) (subtree gd depth st)) ->
  search_value (minimax_ab gd depth state alpha beta (new_cache gd) mem) =
  search_value (minimax_ab gd depth state alpha beta None mem).
Proof.
  intros Hst Hnd.
  change (new_cache gd)
    with (Some (search_table gd (replicate (Z.to_nat INITIAL_CAPACITY) []))).
  destruct (minimax_ab_fresh depth state st alpha beta
              (replicate (Z.to_nat INITIAL_CAPACITY) []) mem Hst Hnd)
    as (bs' & n & k & Hrun & _).
  { intros s _. apply lookup_replicate_2, bucket_of_in_range. }
  destruct (minimax_ab_no_table depth state st alpha beta mem Hst) as [n' Hn'].
  rewrite Hrun, Hn'. reflexivity.
Qed.

(** *** [get_best_move] *)

Lemma best_moves_no_table (d : nat) (st : S) (player : Z) :
  forall moves l best mem,
    (forall m, In m moves -> In m (get_moves gd st)) ->
    accepted_move gd st best ->
    exists best' n,
      best_moves gd d st player moves l best None mem =
        Some (best', None, mk_memory (states mem ++ replicate n None) (locals mem)) /\
      accepted_move gd st best'.
Proof.
  induction moves as [|m rest IH]; intros l best mem Hsub Hbest.
  - exists best, 0%nat. cbn. rewrite app_nil_r. destruct mem. split; [reflexivity|exact Hbest].
  - cbn [best_moves].
    assert (Hrest : forall m', In m' rest -> In m' (get_moves gd st))
      by (intros m' Hm'; apply Hsub; right; exact Hm').
    destruct (apply_move gd st m) as [child|] eqn:Happ; [|apply IH; assumption].
    unfold alloc.
    destruct (minimax_ab_no_table d (length (states mem)) child (loop_alpha l) (loop_beta l)
                (mk_memory (states mem ++ [Some child]) (locals mem))) as [n Hn].
    { cbn [states]. rewrite <- (app_nil_r (states mem ++ [Some child])). apply load_alloc. }
    rewrite Hn. cbn [states locals]. rewrite free_alloc.
    set (v := alphabeta gd d child (loop_alpha l) (loop_beta l)).
    set (best1 := if (if player =? 1 then v >? best_value l else v <? best_value l)
                  then Some m else best).
    assert (Hbest1 : accepted_move gd st best1).
    { unfold best1. destruct (if player =? 1 then _ else _); [|exact Hbest].
      split; [apply Hsub; left; reflexivity|]. rewrite Happ. discriminate. }
    destruct (loop_alpha _ >=? loop_beta _).
    + eexists _, _. split; [reflexivity|exact Hbest1].
    + destruct (IH (update_best player v l) best1
                  (mk_memory (states mem ++ replicate (Datatypes.S n) None) (locals mem))
                  Hrest Hbest1) as (best2 & k & Hk & Hbest2).
      rewrite Hk. cbn [states locals]. rewrite replicate_app_none.
      eexists _, _. split; [reflexivity|exact Hbest2].
Qed.

(** For a depth of at least one and without a table, [get_best_move] is
    defined on every live state, frees every state it allocates, and
    answers with no move or with a generated move that [apply_move]
    accepts.  (At depth 0 the source searches with depth -1, which the
    model of [minimax_ab] does not cover.) *)
Theorem get_best_move_answers_accepted_move (depth : Z) (state : addr) (st : S)
    (mem : memory S) :
  1 <= depth ->
  load state (states mem) = Some st ->
  exists best n,
    get_best_move gd (Z.to_nat (depth - 1)) state None mem =
      Some (best, None, mk_memory (states mem ++ replicate n None) (locals mem)) /\
    accepted_move gd st best.
Proof.
  intros _ Hst. unfold get_best_move. rewrite Hst.
  destruct (negb (is_terminal gd st =? 0)).
  { exists None, 0%nat. rewrite app_nil_r. destruct mem. split; [reflexivity|exact I]. }
  destruct (Z.of_nat (length (get_moves gd st)) =? 0).
  { exists None, 0%nat. rewrite app_nil_r. destruct mem. split; [reflexivity|exact I]. }
  apply best_moves_no_table; [auto|exact I].
Qed.

(** [get_best_move] answers with no move on a state that [is_terminal]
    reports as final or that has no generated move, whatever the table. *)
Theorem get_best_move_of_final_state (depth' : nat) (state : addr) (st : S)
    (cache_handle : option (generic_hash_table (memory S))) (mem : memory S) :
  load state (states mem) = Some st ->
  is_terminal gd st <> 0 \/ get_moves gd st = [] ->
  get_best_move gd depth' state cache_handle mem = Some (None, cache_handle, mem).
Proof.
  intros Hst Hfinal. unfold get_best_move. rewrite Hst.
  destruct (Z.eqb_spec (is_terminal gd st) 0) as [Ht|Ht]; cbn [negb]; [|reflexivity].
  destruct Hfinal as [Hf|Hf]; [contradiction|]. rewrite Hf. reflexivity.
Qed.

End Game.

Lemma search_without_table_frees_its_states_witness :
  exists v n, minimax_ab small_tree 2 0%nat INT_MIN INT_MAX None root_memory =
    Some (v, None, mk_memory (states root_memory ++ replicate n None) (locals root_memory)).
Proof.
  apply (search_without_table_frees_its_states small_tree 2 0%nat 0). reflexivity.
Defined.

Lemma search_result_bounds_minimax_witness :
  exists r, search_value (minimax_ab small_tree 2 0%nat 25 40 None root_memory) = Some r /\
            bounds_value 25 40 r (minimax small_tree 2 0).
Proof.
  apply (search_result_bounds_minimax small_tree 2 0%nat 0 25 40 root_memory).
  - reflexivity.
  - vm_compute. discriminate.
  - reflexivity.
  - vm_compute. discriminate.
Defined.

Lemma full_window_search_is_minimax_witness :
  search_value (minimax_ab small_tree 2 0%nat INT_MIN INT_MAX None root_memory) =
  Some (minimax small_tree 2 0).
Proof.
  apply (full_window_search_is_minimax small_tree 2 0%nat 0 root_memory).
  - reflexivity.
  - intros s. cbn. destruct (s =? 2); vm_compute; split; discriminate.
Defined.

Lemma new_table_search_agrees_witness :
  search_value (minimax_ab small_tree 2 0%nat INT_MIN INT_MAX (new_cache small_tree) root_memory) =
  search_value (minimax_ab small_tree 2 0%nat INT_MIN INT_MAX None root_memory).
Proof.
  apply (new_table_search_agrees small_tree 2 0%nat 0).
  - reflexivity.
  - vm_compute. repeat (constructor; [cbn; intuition discriminate|]). constructor.
Defined.

Lemma get_best_move_answers_accepted_move_witness :
  exists best n,
    get_best_move small_tree (Z.to_nat (2 - 1)) 0%nat None root_memory =
      Some (best, None,
            mk_memory (states root_memory ++ replicate n None) (locals root_memory)) /\
    accepted_move small_tree 0 best.
Proof.
  apply (get_best_move_answers_accepted_move small_tree 2 0%nat 0).
  - lia.
  - reflexivity.
Defined.

Lemma get_best_move_of_final_state_witness :
  get_best_move small_tree 1 0%nat None (mk_memory [Some 2] []) =
  Some (None, None, mk_memory [Some 2] []).
Proof.
  apply (get_best_move_of_final_state small_tree 1 0%nat 2).
  - reflexivity.
  - left. discriminate.
Defined.

End MinimaxMore.

(** * The search on the chess game *)

Module ChessGameFacts.
Import Memory Cache Minimax MinimaxSpec Chess ChessGame.

(** On the chess descriptor the search with the full window and without
    a table is defined to every depth and returns the minimax value of the
    position: the evaluation always fits the window. *)
Theorem chess_search_is_minimax (g : zobrist_globals) (now : Z) (depth : nat)
    (state : addr) (st : bitboard_state_t) (mem : memory bitboard_state_t) :
  load state (states mem) = Some st ->
  let gd := snd (initialize_chess_game_descriptor g now) in
  search_value (minimax_ab gd depth state INT_MIN INT_MAX None mem) =
  Some (minimax gd depth st).
Proof.
  intros Hst gd.
  destruct (MinimaxMore.minimax_ab_no_table gd depth state st INT_MIN INT_MAX mem Hst)
    as [n Hn].
  rewrite Hn. cbn [search_value]. f_equal. apply MinimaxMore.alphabeta_full_window.
  intros s. change (evaluate gd s) with (chess_evaluate s).
  pose proof (ChessMore.chess_evaluate_int_range s) as Hr.
  unfold ChessSpec.int_range in Hr. unfold INT_MIN, INT_MAX. lia.
Qed.

Lemma chess_search_is_minimax_witness :
  let gd := snd (initialize_chess_game_descriptor zobrist_start 1700000000) in
  search_value (minimax_ab gd 2 0%nat INT_MIN INT_MAX None
                           (mk_memory [Some initialize_board] [])) =
  Some (minimax gd 2 initialize_board).
Proof.
  apply (chess_search_is_minimax zobrist_start 1700000000 2 0%nat initialize_board).
  reflexivity.
Defined.

End ChessGameFacts.
